(** * Uniform/varying discovery and mask planning of the wide LLVM backend

    A shallow embedding of [BackendLLVMWide::discoverVaryingAndMaskingOfLayer]
    and of the query [BackendLLVMWide::isSymbolUniform]
    (src/liboslexec/backendllvm_wide.cpp), with the properties of the
    analysis stated and proved over it.

    Conventions of the embedding.
    - A [const Symbol *] is the index of the symbol in the symbol table of
      the shader instance ([inst()->symbols()]); two pointers are equal
      exactly when the indices are.
    - C++ [int] values (block depths, mask ids, op indices, jump targets)
      are [Z]; signed overflow is undefined in C++ and no count of this
      analysis comes near the range of [int].
    - [ASSERT] aborts the process: a failing assertion is [Err
      AssertionFailed].  An access outside a vector, undefined in C++, is
      [Err OutOfBounds].  The recursion of the walk is bounded by a fuel
      argument, [Err OutOfFuel] when it is exhausted.
    - The tracing to [std::cout] is left out. *)

From stdpp Require Import gmap strings list fin_maps relations.
From Stdlib Require Import ZArith Lia.

Set Warnings "-clear-no-such-hyp".

Local Open Scope Z_scope.

(** ** Errors *)

Inductive error := AssertionFailed | OutOfBounds | OutOfFuel.

Inductive result (A : Type) :=
| Ok (a : A)
| Err (e : error).
Arguments Ok {A} a.
Arguments Err {A} e.

Global Instance result_ret : MRet result := λ A a, Ok a.

Global Instance result_bind : MBind result := λ A B k m,
  match m with
  | Ok a => k a
  | Err e => Err e
  end.

(** Modelled from the spec: the macro [ASSERT] is defined outside the
    sources at hand; its sites "encode IR preconditions" and are "fatal
    panics/aborts". *)
Definition ASSERT (b : bool) : result unit :=
  if b then Ok tt else Err AssertionFailed.

(** ** The IR view: symbols, opcodes, shader instance *)

Abbreviation SymPtr := nat.

Inductive SymType :=
| SymTypeParam | SymTypeOutputParam | SymTypeLocal
| SymTypeTemp | SymTypeGlobal | SymTypeConst.

Global Instance SymType_eq_dec : EqDecision SymType.
Proof. solve_decision. Defined.

Inductive ValueSource := DefaultVal | InstanceVal | GeomVal | ConnectedVal.

Global Instance ValueSource_eq_dec : EqDecision ValueSource.
Proof. solve_decision. Defined.

(** The queries on [TypeSpec] that the analysis makes. *)
Record TypeSpec := {
  is_structure : bool;
  is_closure : bool;
  is_closure_based : bool;
  is_string_based : bool;
}.

Record Symbol := {
  name : string;
  symtype : SymType;
  typespec : TypeSpec;
  is_constant : bool;
  has_init_ops : bool;
  valuesource : ValueSource;
  initbegin : Z;
  initend : Z;
  everread : bool;
  connected : bool;
  connected_down : bool;
  renderer_output : bool;
  lockgeom : bool;
}.

(** One argument of an op: the symbol and its read and write flags
    ([opargsym], [argread], [argwrite]). *)
Record OpArg := {
  argsym : SymPtr;
  argread : bool;
  argwrite : bool;
}.

Record Opcode := {
  opname : string;
  args : list OpArg;
  jumps : list Z;
}.

Definition nargs (opcode : Opcode) : nat := length (args opcode).

(** Modelled from the spec: [opcode.jump(i)], the i-th of "up to four jump
    targets", negative when the op has none there. *)
Definition jump (opcode : Opcode) (i : nat) : Z := nth i (jumps opcode) (-1).

(** Modelled from the spec: [Opcode::farthest_jump] is declared outside the
    sources at hand; "returns the largest valid target", "-1 for
    straight-line ops", over the four jump slots of the op. *)
Definition farthest_jump (opcode : Opcode) : Z :=
  Z.max (Z.max (jump opcode 0) (jump opcode 1))
        (Z.max (jump opcode 2) (jump opcode 3)).

(** Modelled from the spec: the interned op names [op_if] ... are
    declared outside the sources at hand; the "closed vocabulary
    including if, for, while, dowhile, functioncall, break, continue,
    getattribute". *)
Definition op_if : string := "if".
Definition op_for : string := "for".
Definition op_while : string := "while".
Definition op_dowhile : string := "dowhile".
Definition op_functioncall : string := "functioncall".
Definition op_break : string := "break".
Definition op_getattribute : string := "getattribute".

(** The shader instance of the layer, with the two switches of the shading
    system the analysis reads.  [firstparam, lastparam) is the range of the
    symbol table that [FOREACH_PARAM] iterates. *)
Record ShaderInstance := {
  ops : list Opcode;
  symbols : list Symbol;
  firstparam : nat;
  lastparam : nat;
  maincodebegin : Z;
  maincodeend : Z;
  debug_uninit : bool;
  lazy_userdata : bool;
}.

Definition symbol (inst : ShaderInstance) (p : SymPtr) : option Symbol :=
  symbols inst !! p.

(** [op(i)]: indexing the op vector. *)
Definition op (inst : ShaderInstance) (i : Z) : result Opcode :=
  if decide (0 ≤ i) then
    match ops inst !! Z.to_nat i with
    | Some o => Ok o
    | None => Err OutOfBounds
    end
  else Err OutOfBounds.

(** Modelled from the spec: the macro [FOREACH_PARAM] is defined outside
    the sources at hand; "iteration over parameter symbols", here the
    symbols of the range [firstparam, lastparam) with their addresses, in
    the order of the symbol table. *)
Definition params (inst : ShaderInstance) : list (SymPtr * Symbol) :=
  filter (λ ps, (firstparam inst ≤ ps.1 < lastparam inst)%nat)
         (imap (λ i s, (i, s)) (symbols inst)).

(** ** Shader globals: the name table *)

(** The table [fields] zipped with [field_is_uniform], in the order of the
    source. *)
Definition fields : list (string * bool) :=
  [ ("renderstate", true); ("tracedata", true); ("objdata", true);
    ("shadingcontext", true); ("renderer", true); ("Ci", true);
    ("raytype", true); ("pad0", true); ("pad1", true); ("pad2", true);
    ("P", false); ("dPdz", false); ("I", false); ("N", false);
    ("Ng", false); ("u", false); ("v", false); ("dPdu", false);
    ("dPdv", false); ("time", false); ("dtime", false); ("dPdtime", false);
    ("Ps", false); ("object2common", false); ("shader2common", false);
    ("surfacearea", false); ("flipHandedness", false);
    ("backfacing", false) ]%string.

(** The loop of [IsShaderGlobalUniformByName]: the first entry with the
    name decides, no entry gives [false]. *)
Fixpoint IsShaderGlobalUniformByName_from (tbl : list (string * bool))
    (nm : string) : bool :=
  match tbl with
  | [] => false
  | (f, u) :: rest =>
      if decide (nm = f) then u else IsShaderGlobalUniformByName_from rest nm
  end.

Definition IsShaderGlobalUniformByName (nm : string) : bool :=
  IsShaderGlobalUniformByName_from fields nm.

(** ** State of the analysis *)

Record UsageInfo := {
  last_depth : Z;
  last_maskId : Z;
  potentially_unmasked_ops : list (Z * Z);   (* (blockDepth, op_num) *)
}.

(** [UsageInfo()], what [usageInfoBySymbol[sym]] creates for a new key. *)
Definition UsageInfo_default : UsageInfo :=
  {| last_depth := 0; last_maskId := 0; potentially_unmasked_ops := [] |}.

(** The members of the backend the analysis writes. *)
Record Backend := {
  m_is_uniform_by_symbol : gmap SymPtr bool;
  m_requires_masking_by_layer_and_op_index : list (list bool);
}.

(** What the closures of [discoverVaryingAndMaskingOfLayer] capture: the
    two tables of the backend ([requires_masking_by_op_index] is the vector
    of the current layer) and the locals of the function.  The stacks grow
    at the end of the list ([push_back]). *)
Record WalkState := {
  is_uniform_by_symbol : gmap SymPtr bool;
  requires_masking_by_op_index : list bool;
  symbolFeedForwardMap : list (SymPtr * SymPtr);
  usageInfoBySymbol : gmap SymPtr UsageInfo;
  symbolsCurrentBlockDependsOn : list SymPtr;
  loopControlFlowSymbolStack : list SymPtr;
  symbolsWrittenToByGetAttribute : list SymPtr;
  nextMaskId : Z;
}.

Definition set_is_uniform (f : gmap SymPtr bool → gmap SymPtr bool)
    (st : WalkState) : WalkState :=
  {| is_uniform_by_symbol := f (is_uniform_by_symbol st);
     requires_masking_by_op_index := requires_masking_by_op_index st;
     symbolFeedForwardMap := symbolFeedForwardMap st;
     usageInfoBySymbol := usageInfoBySymbol st;
     symbolsCurrentBlockDependsOn := symbolsCurrentBlockDependsOn st;
     loopControlFlowSymbolStack := loopControlFlowSymbolStack st;
     symbolsWrittenToByGetAttribute := symbolsWrittenToByGetAttribute st;
     nextMaskId := nextMaskId st |}.

Definition set_masking_usage (flags : list bool)
    (u : gmap SymPtr UsageInfo) (st : WalkState) : WalkState :=
  {| is_uniform_by_symbol := is_uniform_by_symbol st;
     requires_masking_by_op_index := flags;
     symbolFeedForwardMap := symbolFeedForwardMap st;
     usageInfoBySymbol := u;
     symbolsCurrentBlockDependsOn := symbolsCurrentBlockDependsOn st;
     loopControlFlowSymbolStack := loopControlFlowSymbolStack st;
     symbolsWrittenToByGetAttribute := symbolsWrittenToByGetAttribute st;
     nextMaskId := nextMaskId st |}.

Definition set_usage (u : gmap SymPtr UsageInfo) (st : WalkState)
    : WalkState :=
  set_masking_usage (requires_masking_by_op_index st) u st.

Definition add_feed (reader writer : SymPtr) (st : WalkState) : WalkState :=
  {| is_uniform_by_symbol := is_uniform_by_symbol st;
     requires_masking_by_op_index := requires_masking_by_op_index st;
     symbolFeedForwardMap := symbolFeedForwardMap st ++ [(reader, writer)];
     usageInfoBySymbol := usageInfoBySymbol st;
     symbolsCurrentBlockDependsOn := symbolsCurrentBlockDependsOn st;
     loopControlFlowSymbolStack := loopControlFlowSymbolStack st;
     symbolsWrittenToByGetAttribute := symbolsWrittenToByGetAttribute st;
     nextMaskId := nextMaskId st |}.

Definition set_stacks (conds loops : list SymPtr) (st : WalkState)
    : WalkState :=
  {| is_uniform_by_symbol := is_uniform_by_symbol st;
     requires_masking_by_op_index := requires_masking_by_op_index st;
     symbolFeedForwardMap := symbolFeedForwardMap st;
     usageInfoBySymbol := usageInfoBySymbol st;
     symbolsCurrentBlockDependsOn := conds;
     loopControlFlowSymbolStack := loops;
     symbolsWrittenToByGetAttribute := symbolsWrittenToByGetAttribute st;
     nextMaskId := nextMaskId st |}.

Definition add_getattribute_writes (ws : list SymPtr) (st : WalkState)
    : WalkState :=
  {| is_uniform_by_symbol := is_uniform_by_symbol st;
     requires_masking_by_op_index := requires_masking_by_op_index st;
     symbolFeedForwardMap := symbolFeedForwardMap st;
     usageInfoBySymbol := usageInfoBySymbol st;
     symbolsCurrentBlockDependsOn := symbolsCurrentBlockDependsOn st;
     loopControlFlowSymbolStack := loopControlFlowSymbolStack st;
     symbolsWrittenToByGetAttribute :=
       symbolsWrittenToByGetAttribute st ++ ws;
     nextMaskId := nextMaskId st |}.

(** [nextMaskId++]: the value before the increment and the new state. *)
Definition fresh_mask (st : WalkState) : Z * WalkState :=
  (nextMaskId st,
   {| is_uniform_by_symbol := is_uniform_by_symbol st;
      requires_masking_by_op_index := requires_masking_by_op_index st;
      symbolFeedForwardMap := symbolFeedForwardMap st;
      usageInfoBySymbol := usageInfoBySymbol st;
      symbolsCurrentBlockDependsOn := symbolsCurrentBlockDependsOn st;
      loopControlFlowSymbolStack := loopControlFlowSymbolStack st;
      symbolsWrittenToByGetAttribute := symbolsWrittenToByGetAttribute st;
      nextMaskId := nextMaskId st + 1 |}).

(** ** The mask planner: [ensureWritesAtLowerDepthAreMasked] *)

(** [vec[i] = b] on a [std::vector<bool>]. *)
Definition vec_store (vec : list bool) (i : Z) (b : bool)
    : result (list bool) :=
  if decide (0 ≤ i < Z.of_nat (length vec))
  then Ok (<[Z.to_nat i := b]> vec)
  else Err OutOfBounds.

(** The loop over [info.potentially_unmasked_ops]: deeper usages set the
    flag of their op, the others are pushed onto [remaining_ops]. *)
Fixpoint mark_deeper_usages (blockDepth : Z) (usages : list (Z * Z))
    (flags : list bool) (remaining_ops : list (Z * Z))
    : result (list bool * list (Z * Z)) :=
  match usages with
  | [] => Ok (flags, remaining_ops)
  | usage :: rest =>
      if decide (usage.1 > blockDepth) then
        flags' ← vec_store flags usage.2 true;
        mark_deeper_usages blockDepth rest flags' remaining_ops
      else
        mark_deeper_usages blockDepth rest flags (remaining_ops ++ [usage])
  end.

Definition ensureWritesAtLowerDepthAreMasked (symbolToCheck : SymPtr)
    (blockDepth maskId : Z) (st : WalkState) : result WalkState :=
  match usageInfoBySymbol st !! symbolToCheck with
  | None => Ok st
  | Some info =>
      if decide (last_depth info > blockDepth ∧ last_maskId info ≠ maskId)
      then
        _ ← ASSERT (negb (bool_decide (potentially_unmasked_ops info = [])));
        '(flags, remaining_ops) ←
          mark_deeper_usages blockDepth (potentially_unmasked_ops info)
            (requires_masking_by_op_index st) [];
        Ok (set_masking_usage flags
              (<[symbolToCheck :=
                   {| last_depth := blockDepth;
                      last_maskId := last_maskId info;
                      potentially_unmasked_ops := remaining_ops |}]>
                 (usageInfoBySymbol st))
              st)
      else Ok st
  end.

(** ** The scope walker: [discoverSymbolsBetween] *)

(** [opargsym (opcode, argIndex)]: the address of the argument's symbol in
    the symbol table of the instance; an index outside the table is an
    access out of bounds. *)
Definition opargsym (inst : ShaderInstance) (a : OpArg) : result SymPtr :=
  match symbol inst (argsym a) with
  | Some _ => Ok (argsym a)
  | None => Err OutOfBounds
  end.

(** The loop over the arguments of the op: fills [symbolsReadByOp] and
    [symbolsWrittenByOp] and enters every argument symbol in
    [m_is_uniform_by_symbol] as uniform. *)
Fixpoint discover_args (inst : ShaderInstance) (l : list OpArg)
    (symbolsReadByOp symbolsWrittenByOp : list SymPtr) (st : WalkState)
    : result (list SymPtr * list SymPtr * WalkState) :=
  match l with
  | [] => Ok (symbolsReadByOp, symbolsWrittenByOp, st)
  | a :: rest =>
      aSymbol ← opargsym inst a;
      let written :=
        if argwrite a then symbolsWrittenByOp ++ [aSymbol]
        else symbolsWrittenByOp in
      let read :=
        if argread a then symbolsReadByOp ++ [aSymbol]
        else symbolsReadByOp in
      discover_args inst rest read written
        (set_is_uniform (<[aSymbol := true]>) st)
  end.

(** The inner loop shared by the two edge-inserting loops: an edge from
    [from] to every written symbol other than [from] itself. *)
Definition feed_into_writes (from : SymPtr) (symbolsWrittenByOp : list SymPtr)
    (st : WalkState) : WalkState :=
  fold_left
    (λ st symbolWrittenTo,
       if decide (symbolWrittenTo ≠ from)
       then add_feed from symbolWrittenTo st else st)
    symbolsWrittenByOp st.

(** The loop over the symbols read: edges to the written symbols, then the
    mask check of the read. *)
Fixpoint discover_reads (symbolsReadByOp symbolsWrittenByOp : list SymPtr)
    (blockDepth maskId : Z) (st : WalkState) : result WalkState :=
  match symbolsReadByOp with
  | [] => Ok st
  | symbolReadFrom :: rest =>
      st ← ensureWritesAtLowerDepthAreMasked symbolReadFrom blockDepth maskId
             (feed_into_writes symbolReadFrom symbolsWrittenByOp st);
      discover_reads rest symbolsWrittenByOp blockDepth maskId st
  end.

(** The loop over the symbols written: the usage info of each records the
    write. *)
Definition record_write (writeBlockDepth writeMaskId opIndex : Z)
    (st : WalkState) (symbolWrittenTo : SymPtr) : WalkState :=
  let info := default UsageInfo_default
                (usageInfoBySymbol st !! symbolWrittenTo) in
  set_usage
    (<[symbolWrittenTo :=
         {| last_depth := writeBlockDepth;
            last_maskId := writeMaskId;
            potentially_unmasked_ops :=
              potentially_unmasked_ops info ++ [(writeBlockDepth, opIndex)]
         |}]> (usageInfoBySymbol st))
    st.

Definition discover_writes (symbolsWrittenByOp : list SymPtr)
    (writeBlockDepth writeMaskId opIndex : Z) (st : WalkState) : WalkState :=
  fold_left (record_write writeBlockDepth writeMaskId opIndex)
    symbolsWrittenByOp st.

(** The loop over [symbolsCurrentBlockDependsOn]: every enclosing condition
    feeds the symbols written. *)
Definition discover_block_dependencies (symbolsWrittenByOp : list SymPtr)
    (st : WalkState) : WalkState :=
  fold_left (λ st symbolCurrentBlockDependsOn,
               feed_into_writes symbolCurrentBlockDependsOn
                 symbolsWrittenByOp st)
    (symbolsCurrentBlockDependsOn st) st.

(** [symbolsReadByOp[0]] under [ASSERT(symbolsRead == 1)]. *)
Definition single_read (symbolsReadByOp : list SymPtr) : result SymPtr :=
  match symbolsReadByOp with
  | [c] => Ok c
  | _ => Err AssertionFailed
  end.

Definition pushSymbolsCurentBlockDependsOn (symbolsReadByOp : list SymPtr)
    (st : WalkState) : result WalkState :=
  c ← single_read symbolsReadByOp;
  Ok (set_stacks (symbolsCurrentBlockDependsOn st ++ [c])
        (loopControlFlowSymbolStack st) st).

Definition popSymbolsCurentBlockDependsOn (symbolsReadByOp : list SymPtr)
    (st : WalkState) : result WalkState :=
  c ← single_read symbolsReadByOp;
  match last (symbolsCurrentBlockDependsOn st) with
  | None => Err OutOfBounds
  | Some top =>
      _ ← ASSERT (bool_decide (top = c));
      Ok (set_stacks (removelast (symbolsCurrentBlockDependsOn st))
            (loopControlFlowSymbolStack st) st)
  end.

Definition push_loop_control (symbolsReadByOp : list SymPtr)
    (st : WalkState) : result WalkState :=
  c ← single_read symbolsReadByOp;
  Ok (set_stacks (symbolsCurrentBlockDependsOn st)
        (loopControlFlowSymbolStack st ++ [c]) st).

Definition pop_loop_control (symbolsReadByOp : list SymPtr)
    (st : WalkState) : result WalkState :=
  match last (loopControlFlowSymbolStack st), symbolsReadByOp with
  | Some top, c :: _ =>
      _ ← ASSERT (bool_decide (top = c));
      Ok (set_stacks (symbolsCurrentBlockDependsOn st)
            (removelast (loopControlFlowSymbolStack st)) st)
  | _, _ => Err OutOfBounds
  end.

(** [std::find (begin, end, x)] followed by [++iter] up to [end]: the
    entries after the first occurrence of [x], [None] when [find] returns
    [end]. *)
Fixpoint after_first (x : SymPtr) (l : list SymPtr) : option (list SymPtr) :=
  match l with
  | [] => None
  | y :: l' => if decide (y = x) then Some l' else after_first x l'
  end.

(** The [op_break] case. *)
Definition discover_break (writeBlockDepth writeMaskId opIndex : Z)
    (st : WalkState) : result WalkState :=
  match last (loopControlFlowSymbolStack st) with
  | None => Err AssertionFailed
  | Some loopCondition =>
      match after_first loopCondition (symbolsCurrentBlockDependsOn st) with
      | None => Err AssertionFailed
      | Some inner =>
          let st :=
            fold_left (λ st conditionBreakDependsOn,
                         add_feed conditionBreakDependsOn loopCondition st)
              inner st in
          let info := default UsageInfo_default
                        (usageInfoBySymbol st !! loopCondition) in
          let deeper := bool_decide (writeBlockDepth > last_depth info) in
          Ok (set_usage
                (<[loopCondition :=
                     {| last_depth :=
                          if deeper then writeBlockDepth else last_depth info;
                        last_maskId :=
                          if deeper then writeMaskId else last_maskId info;
                        potentially_unmasked_ops :=
                          potentially_unmasked_ops info
                            ++ [(writeBlockDepth, opIndex)] |}]>
                   (usageInfoBySymbol st))
                st)
      end
  end.

(** The part of the loop body before the dispatch on jumps. *)
Definition discover_op_begin (inst : ShaderInstance) (opcode : Opcode)
    (opIndex blockDepth writeBlockDepth maskId writeMaskId : Z)
    (st : WalkState) : result (list SymPtr * list SymPtr * WalkState) :=
  '(symbolsReadByOp, symbolsWrittenByOp, st) ←
    discover_args inst (args opcode) [] [] st;
  st ← discover_reads symbolsReadByOp symbolsWrittenByOp blockDepth maskId st;
  let st := discover_writes symbolsWrittenByOp writeBlockDepth writeMaskId
              opIndex st in
  Ok (symbolsReadByOp, symbolsWrittenByOp,
      discover_block_dependencies symbolsWrittenByOp st).

(** The part of the loop body after the dispatch on jumps: [op_break] and
    [op_getattribute]. *)
Definition discover_op_end (opcode : Opcode)
    (symbolsWrittenByOp : list SymPtr) (opIndex writeBlockDepth writeMaskId : Z)
    (st : WalkState) : result WalkState :=
  st ← (if decide (opname opcode = op_break)
        then discover_break writeBlockDepth writeMaskId opIndex st
        else Ok st);
  Ok (if decide (opname opcode = op_getattribute)
      then add_getattribute_writes symbolsWrittenByOp st
      else st).

(** The index after the op: past its nested blocks when it has jumps. *)
Definition next_op (opcode : Opcode) (opIndex : Z) : Z :=
  let next := farthest_jump opcode in
  (if decide (next >= 0) then next - 1 else opIndex) + 1.

Definition is_loop_op (opcode : Opcode) : Prop :=
  opname opcode = op_for ∨ opname opcode = op_while
  ∨ opname opcode = op_dowhile.

Global Instance is_loop_op_dec opcode : Decision (is_loop_op opcode).
Proof. unfold is_loop_op. apply _. Defined.

(** [discoverSymbolsBetween]: one unit of fuel per iteration of the [for]
    loop over the ops and per level of nesting. *)
Fixpoint discoverSymbolsBetween (fuel : nat) (inst : ShaderInstance)
    (beginop endop blockDepth writeBlockDepth maskId writeMaskId : Z)
    (st : WalkState) : result WalkState :=
  match fuel with
  | O => Err OutOfFuel
  | S fuel =>
    if decide (beginop < endop) then
      let opIndex := beginop in
      opcode ← op inst opIndex;
      '(symbolsReadByOp, symbolsWrittenByOp, st) ←
        discover_op_begin inst opcode opIndex blockDepth writeBlockDepth
          maskId writeMaskId st;
      st ←
        (if decide (jump opcode 0 >= 0) then
           if decide (opname opcode = op_if) then
             st ← pushSymbolsCurentBlockDependsOn symbolsReadByOp st;
             let thenBlockDepth := blockDepth + 1 in
             let '(thenMaskId, st) := fresh_mask st in
             st ← discoverSymbolsBetween fuel inst (opIndex + 1)
                    (jump opcode 0) thenBlockDepth thenBlockDepth
                    thenMaskId thenMaskId st;
             let elseBlockDepth := blockDepth + 1 in
             let '(elseMaskId, st) := fresh_mask st in
             st ← discoverSymbolsBetween fuel inst (jump opcode 0)
                    (jump opcode 1) elseBlockDepth elseBlockDepth
                    elseMaskId elseMaskId st;
             popSymbolsCurentBlockDependsOn symbolsReadByOp st
           else if decide (is_loop_op opcode) then
             st ← discoverSymbolsBetween fuel inst (opIndex + 1)
                    (jump opcode 0) blockDepth blockDepth maskId maskId st;
             let depthForBodyAndStep := blockDepth + 1 in
             let '(maskIdForBodyAndStep, st) := fresh_mask st in
             st ← pushSymbolsCurentBlockDependsOn symbolsReadByOp st;
             st ← push_loop_control symbolsReadByOp st;
             st ← discoverSymbolsBetween fuel inst (jump opcode 1)
                    (jump opcode 2) depthForBodyAndStep depthForBodyAndStep
                    maskIdForBodyAndStep maskIdForBodyAndStep st;
             st ← discoverSymbolsBetween fuel inst (jump opcode 2)
                    (jump opcode 3) depthForBodyAndStep depthForBodyAndStep
                    maskIdForBodyAndStep maskIdForBodyAndStep st;
             st ← discoverSymbolsBetween fuel inst (jump opcode 0)
                    (jump opcode 1) blockDepth depthForBodyAndStep
                    maskId maskIdForBodyAndStep st;
             condition ← match args opcode with
                         | a :: _ => opargsym inst a
                         | [] => Err OutOfBounds
                         end;
             st ← ensureWritesAtLowerDepthAreMasked condition blockDepth
                    maskId st;
             st ← popSymbolsCurentBlockDependsOn symbolsReadByOp st;
             pop_loop_control symbolsReadByOp st
           else if decide (opname opcode = op_functioncall) then
             discoverSymbolsBetween fuel inst (opIndex + 1) (jump opcode 0)
               blockDepth writeBlockDepth maskId writeMaskId st
           else Err AssertionFailed
         else Ok st);
      st ← discover_op_end opcode symbolsWrittenByOp opIndex writeBlockDepth
             writeMaskId st;
      discoverSymbolsBetween fuel inst (next_op opcode opIndex) endop
        blockDepth writeBlockDepth maskId writeMaskId st
    else Ok st
  end.

(** ** Varying propagation: [recursivelyMarkNonUniform] *)

(** [symbolFeedForwardMap.equal_range (s)]: the symbols fed by [s], in the
    order in which [feeds], the sequence of the iteration of the map, has
    their entries. *)
Definition equal_range (feeds : list (SymPtr * SymPtr)) (s : SymPtr)
    : list SymPtr :=
  (filter (λ e, e.1 = s) feeds).*2.

(** [m_is_uniform_by_symbol[s]] as an rvalue: a new key is created with the
    value [false]. *)
Definition previously_was_uniform (tbl : gmap SymPtr bool) (s : SymPtr)
    : bool :=
  default false (tbl !! s).

(** A loop over a list whose body may abort. *)
Fixpoint foldM {A S : Type} (f : A → S → result S) (l : list A) (s : S)
    : result S :=
  match l with
  | [] => Ok s
  | a :: l' => s' ← f a s; foldM f l' s'
  end.

(** The recursion of the source stops at symbols already varying; every
    deeper call follows the flip of one more symbol from uniform to
    varying, so the fuel bounds the depth of the recursion. *)
Fixpoint recursivelyMarkNonUniform (fuel : nat)
    (feeds : list (SymPtr * SymPtr)) (nonUniformSymbol : SymPtr)
    (tbl : gmap SymPtr bool) : result (gmap SymPtr bool) :=
  match fuel with
  | O => Err OutOfFuel
  | S fuel =>
      let was_uniform := previously_was_uniform tbl nonUniformSymbol in
      let tbl := <[nonUniformSymbol := false]> tbl in
      if was_uniform then
        foldM (recursivelyMarkNonUniform fuel feeds)
          (equal_range feeds nonUniformSymbol) tbl
      else Ok tbl
  end.

(** A call from the body of [discoverVaryingAndMaskingOfLayer]: the depth
    of the recursion is at most the number of entries of the table plus
    one (lemma [mark_total] below). *)
Definition markNonUniform (feeds : list (SymPtr * SymPtr)) (s : SymPtr)
    (tbl : gmap SymPtr bool) : result (gmap SymPtr bool) :=
  recursivelyMarkNonUniform (S (size tbl)) feeds s tbl.

(** The seed decision of the loop over [symbolFeedForwardMap]. *)
Definition seed_is_uniform (sym : Symbol) : bool :=
  match symtype sym with
  | SymTypeGlobal => IsShaderGlobalUniformByName (name sym)
  | SymTypeParam => false
  | _ => true
  end.

(** The loop over [symbolFeedForwardMap].  [iter] is what is left of the
    iteration and [prev] the key of the entry handled last: the inner
    [do ... while] of the source steps over the entries that follow with
    that same key. *)
Fixpoint seed_from_feeds (inst : ShaderInstance)
    (feeds : list (SymPtr * SymPtr)) (prev : option SymPtr)
    (iter : list (SymPtr * SymPtr)) (tbl : gmap SymPtr bool)
    : result (gmap SymPtr bool) :=
  match iter with
  | [] => Ok tbl
  | feed :: rest =>
      let symbolReadFrom := feed.1 in
      if decide (prev = Some symbolReadFrom) then
        seed_from_feeds inst feeds prev rest tbl
      else
        match symbol inst symbolReadFrom with
        | None => Err OutOfBounds
        | Some sym =>
            tbl ← (if seed_is_uniform sym then Ok tbl
                   else markNonUniform feeds symbolReadFrom tbl);
            seed_from_feeds inst feeds (Some symbolReadFrom) rest tbl
        end
  end.

(** The loop that marks every output parameter as varying. *)
Definition mark_output_params (inst : ShaderInstance)
    (feeds : list (SymPtr * SymPtr)) (tbl : gmap SymPtr bool)
    : result (gmap SymPtr bool) :=
  foldM (λ ps tbl,
           if decide (symtype ps.2 = SymTypeOutputParam)
           then markNonUniform feeds ps.1 tbl else Ok tbl)
    (params inst) tbl.

(** ** The three passes of the walk and the pass over the outputs *)

(** The test that guards the init ops of a symbol in the first pass. *)
Definition walks_symbol_init (inst : ShaderInstance) (s : Symbol) : bool :=
  negb (bool_decide (symtype s = SymTypeConst))
  && negb (is_structure (typespec s))
  && (negb (bool_decide (symtype s = SymTypeParam))
      && negb (bool_decide (symtype s = SymTypeOutputParam))
      && negb (bool_decide (symtype s = SymTypeGlobal))
      && (is_constant s || is_closure_based (typespec s)
          || is_string_based (typespec s)
          || ((bool_decide (symtype s = SymTypeLocal)
               || bool_decide (symtype s = SymTypeTemp))
              && debug_uninit inst)))
  && (has_init_ops s && bool_decide (valuesource s = DefaultVal)).

(** "Skip if it's never read and isn't connected". *)
Definition param_unused (s : Symbol) : bool :=
  negb (everread s) && negb (connected_down s) && negb (connected s)
  && negb (renderer_output s).

(** The test that guards the init ops of a parameter in the second pass. *)
Definition walks_param_init (inst : ShaderInstance) (s : Symbol) : bool :=
  negb (is_structure (typespec s))
  && negb (param_unused s)
  && negb (bool_decide (symtype s = SymTypeParam)
           && negb (lockgeom s) && negb (is_closure (typespec s))
           && negb (connected s) && negb (connected_down s)
           && lazy_userdata inst)
  && (has_init_ops s && bool_decide (valuesource s = DefaultVal)).

(** The test of the pass over the output parameters. *)
Definition checks_output_param (s : Symbol) : bool :=
  negb (is_structure (typespec s))
  && negb (param_unused s)
  && bool_decide (symtype s = SymTypeOutputParam).

(** ** [discoverVaryingAndMaskingOfLayer] *)

(** The locals of the function at the start, over the tables of the
    backend. *)
Definition initial_walk_state (tbl : gmap SymPtr bool) (flags : list bool)
    : WalkState :=
  {| is_uniform_by_symbol := tbl;
     requires_masking_by_op_index := flags;
     symbolFeedForwardMap := [];
     usageInfoBySymbol := ∅;
     symbolsCurrentBlockDependsOn := [];
     loopControlFlowSymbolStack := [];
     symbolsWrittenToByGetAttribute := [];
     nextMaskId := 0 |}.

(** The function up to "About to build m_is_uniform_by_symbol": the two
    assertions on the masking vector of the layer, its [resize], the walk
    of the init ops of the symbols, of the init ops of the parameters and
    of the main code, and the mask check of the output parameters. *)
Definition discoverVaryingAndMaskingOfLayer_walk (fuel : nat)
    (inst : ShaderInstance) (layer : nat) (b : Backend) : result WalkState :=
  _ ← ASSERT (bool_decide
        (layer < length (m_requires_masking_by_layer_and_op_index b))%nat);
  flags ← match m_requires_masking_by_layer_and_op_index b !! layer with
          | Some flags => Ok flags
          | None => Err OutOfBounds
          end;
  _ ← ASSERT (bool_decide (flags = []));
  let flags := resize (length (ops inst)) false flags in
  let '(mainMask, st) :=
    fresh_mask (initial_walk_state (m_is_uniform_by_symbol b) flags) in
  st ← foldM (λ s st,
                if walks_symbol_init inst s
                then discoverSymbolsBetween fuel inst (initbegin s)
                       (initend s) 0 0 mainMask mainMask st
                else Ok st)
         (symbols inst) st;
  st ← foldM (λ ps st,
                if walks_param_init inst ps.2
                then discoverSymbolsBetween fuel inst (initbegin ps.2)
                       (initend ps.2) 0 0 mainMask mainMask st
                else Ok st)
         (params inst) st;
  st ← discoverSymbolsBetween fuel inst (maincodebegin inst)
         (maincodeend inst) 0 0 mainMask mainMask st;
  foldM (λ ps st,
           if checks_output_param ps.2
           then ensureWritesAtLowerDepthAreMasked ps.1 0 mainMask st
           else Ok st)
    (params inst) st.

(** The rest of the function: varying seeds pushed through the
    feed-forward map.  The iteration order of a [std::unordered_multimap]
    is not specified; [order] stands for it, giving the sequence in which
    iterators meet the entries of the map.  Every iteration of the rest
    of the function goes through that sequence: the loop from [begin()]
    to [end()], and the loops over [equal_range], which meet the entries
    of one key in the order the sequence has them. *)
Definition discoverVaryingAndMaskingOfLayer_propagate
    (order : list (SymPtr * SymPtr) → list (SymPtr * SymPtr))
    (inst : ShaderInstance) (st : WalkState) : result (gmap SymPtr bool) :=
  let feeds := order (symbolFeedForwardMap st) in
  tbl ← seed_from_feeds inst feeds None feeds (is_uniform_by_symbol st);
  tbl ← mark_output_params inst feeds tbl;
  foldM (markNonUniform feeds) (symbolsWrittenToByGetAttribute st) tbl.

Definition discoverVaryingAndMaskingOfLayer
    (order : list (SymPtr * SymPtr) → list (SymPtr * SymPtr))
    (fuel : nat) (inst : ShaderInstance) (layer : nat) (b : Backend)
    : result Backend :=
  st ← discoverVaryingAndMaskingOfLayer_walk fuel inst layer b;
  tbl ← discoverVaryingAndMaskingOfLayer_propagate order inst st;
  Ok {| m_is_uniform_by_symbol := tbl;
        m_requires_masking_by_layer_and_op_index :=
          <[layer := requires_masking_by_op_index st]>
            (m_requires_masking_by_layer_and_op_index b) |}.

(** ** The query [isSymbolUniform] *)

Definition isSymbolUniform (b : Backend) (p : SymPtr) (sym : Symbol)
    : result bool :=
  _ ← ASSERT (negb (bool_decide (m_is_uniform_by_symbol b = ∅)));
  match m_is_uniform_by_symbol b !! p with
  | None =>
      if decide (symtype sym = SymTypeOutputParam) then Ok false else Ok true
  | Some is_uniform => Ok is_uniform
  end.

(** The backend before any layer is analysed, with room for [nlayers]
    layers. *)
Definition fresh_backend (nlayers : nat) : Backend :=
  {| m_is_uniform_by_symbol := ∅;
     m_requires_masking_by_layer_and_op_index := replicate nlayers [] |}.


(** ** Vocabulary of the statements *)

(** The feed-forward graph: an edge from a reader to a writer for every
    entry of [symbolFeedForwardMap]. *)
Definition feeds_to (feeds : list (SymPtr * SymPtr)) : relation SymPtr :=
  λ reader writer, (reader, writer) ∈ feeds.

(** The symbols that the table has as uniform. *)
Definition uniform_set (tbl : gmap SymPtr bool) : gset SymPtr :=
  dom (filter (λ kv, kv.2 = true) tbl).

(** Every edge out of a varying symbol outside [pending] ends in a varying
    symbol.  [pending] holds the symbols whose call of
    [recursivelyMarkNonUniform] is still running. *)
Definition closed_except (pending : gset SymPtr)
    (feeds : list (SymPtr * SymPtr)) (tbl : gmap SymPtr bool) : Prop :=
  ∀ u v, (u, v) ∈ feeds → tbl !! u = Some false → u ∉ pending →
         tbl !! v = Some false.

(** Every reader of the feed-forward map has an entry in the table. *)
Definition readers_known (feeds : list (SymPtr * SymPtr))
    (tbl : gmap SymPtr bool) : Prop :=
  ∀ u v, (u, v) ∈ feeds → is_Some (tbl !! u).

(** How the propagation may change the table: varying stays varying, no
    symbol becomes uniform, no entry is lost. *)
Record table_grows (tbl tbl' : gmap SymPtr bool) : Prop := {
  grows_false : ∀ x, tbl !! x = Some false → tbl' !! x = Some false;
  grows_true : ∀ x, tbl' !! x = Some true → tbl !! x = Some true;
  grows_dom : ∀ x, is_Some (tbl !! x) → is_Some (tbl' !! x);
}.

(** What the walk maintains when it starts from an empty table: every
    entry of the table is [true] and stands for a symbol of the instance,
    the readers of the feed-forward map and the enclosing conditions have
    an entry, and the masking vector has one flag per op. *)
Record walk_inv (inst : ShaderInstance) (st : WalkState) : Prop := {
  inv_table : ∀ x b, is_uniform_by_symbol st !! x = Some b →
                     b = true ∧ is_Some (symbol inst x);
  inv_feeds : ∀ u v, (u, v) ∈ symbolFeedForwardMap st →
                     u ∈ dom (is_uniform_by_symbol st);
  inv_conds : ∀ c, c ∈ symbolsCurrentBlockDependsOn st →
                   c ∈ dom (is_uniform_by_symbol st);
  inv_flags : length (requires_masking_by_op_index st) = length (ops inst);
}.

(** A step that adds entries to the table at most. *)
Definition extends (st st' : WalkState) : Prop :=
  dom (is_uniform_by_symbol st) ⊆ dom (is_uniform_by_symbol st').

(** The symbols on which the function calls [recursivelyMarkNonUniform]
    itself: the readers of the feed-forward map whose seed decision is
    "not uniform", the output parameters, and the symbols written by a
    [getattribute] op. *)
Definition varying_seed (inst : ShaderInstance) (st : WalkState)
    (s : SymPtr) : Prop :=
  (s ∈ (symbolFeedForwardMap st).*1
   ∧ ∃ sym, symbol inst s = Some sym ∧ seed_is_uniform sym = false)
  ∨ (∃ sym, (s, sym) ∈ params inst ∧ symtype sym = SymTypeOutputParam)
  ∨ s ∈ symbolsWrittenToByGetAttribute st.

(** [x] is a varying seed or a feed-forward path leads from one to it. *)
Definition fed_by_seed (inst : ShaderInstance) (st : WalkState)
    (x : SymPtr) : Prop :=
  ∃ seed, varying_seed inst st seed
          ∧ rtc (feeds_to (symbolFeedForwardMap st)) seed x.

(** The table between two calls of [recursivelyMarkNonUniform] from the
    body of the function, against the table [tbl0] the walk left. *)
Record propagated (feeds : list (SymPtr * SymPtr)) (seeds : SymPtr → Prop)
    (tbl0 tbl : gmap SymPtr bool) : Prop := {
  prop_closed : closed_except ∅ feeds tbl;
  prop_grows : table_grows tbl0 tbl;
  prop_sound : ∀ x, tbl !! x = Some false →
                    ∃ r, seeds r ∧ rtc (feeds_to feeds) r x;
}.

(** An iteration order of the multimap: the entries met are the entries of
    the map. *)
Definition iterates (order : list (SymPtr * SymPtr) → list (SymPtr * SymPtr))
    : Prop :=
  ∀ feeds e, e ∈ order feeds ↔ e ∈ feeds.



(** What one call [recursivelyMarkNonUniform (s)] does to the table. *)
Record marks (feeds : list (SymPtr * SymPtr)) (pending : gset SymPtr)
    (s : SymPtr) (tbl tbl' : gmap SymPtr bool) : Prop := {
  marks_self : tbl' !! s = Some false;
  marks_closed : closed_except pending feeds tbl';
  marks_grows : table_grows tbl tbl';
  marks_sound : ∀ x, tbl' !! x = Some false →
                     tbl !! x = Some false ∨ rtc (feeds_to feeds) s x;
}.

(** The state [st] reached from [st0] by steps of the walk. *)
Definition reached (inst : ShaderInstance) (st0 st : WalkState) : Prop :=
  walk_inv inst st ∧ extends st0 st.






(** ** Concrete layers and states

    Small inputs on which the definitions above are evaluated. *)

Definition ts_plain : TypeSpec :=
  {| is_structure := false; is_closure := false;
     is_closure_based := false; is_string_based := false |}.

(** A symbol without init ops that is read by the shader. *)
Definition mk_symbol (nm : string) (t : SymType) (conn : bool) : Symbol :=
  {| name := nm; symtype := t; typespec := ts_plain; is_constant := false;
     has_init_ops := false; valuesource := DefaultVal;
     initbegin := 0; initend := 0;
     everread := true; connected := conn; connected_down := false;
     renderer_output := false; lockgeom := true |}.

Definition rd (p : SymPtr) : OpArg :=
  {| argsym := p; argread := true; argwrite := false |}.
Definition wr (p : SymPtr) : OpArg :=
  {| argsym := p; argread := false; argwrite := true |}.
Definition mk_op (nm : string) (a : list OpArg) (j : list Z) : Opcode :=
  {| opname := nm; args := a; jumps := j |}.

(** A state of the walk with one symbol written twice: by op 0 at depth 2
    under mask 2 and by op 1 at depth 0. *)
Definition planner_state : WalkState :=
  {| is_uniform_by_symbol := {[ 0%nat := true ]};
     requires_masking_by_op_index := [false; false; false];
     symbolFeedForwardMap := [];
     usageInfoBySymbol :=
       {[ 0%nat := {| last_depth := 2; last_maskId := 2;
                      potentially_unmasked_ops := [(0, 1); (2, 0)] |} ]};
     symbolsCurrentBlockDependsOn := [];
     loopControlFlowSymbolStack := [];
     symbolsWrittenToByGetAttribute := [];
     nextMaskId := 3 |}.

Definition planner_info : UsageInfo :=
  {| last_depth := 2; last_maskId := 2;
     potentially_unmasked_ops := [(0, 1); (2, 0)] |}.

(** A state with one symbol last written at depth 0. *)
Definition shallow_state : WalkState :=
  {| is_uniform_by_symbol := {[ 0%nat := true ]};
     requires_masking_by_op_index := [false];
     symbolFeedForwardMap := [];
     usageInfoBySymbol :=
       {[ 0%nat := {| last_depth := 0; last_maskId := 0;
                      potentially_unmasked_ops := [(0, 0)] |} ]};
     symbolsCurrentBlockDependsOn := [];
     loopControlFlowSymbolStack := [];
     symbolsWrittenToByGetAttribute := [];
     nextMaskId := 1 |}.

Definition plain_layer (code : list Opcode) (syms : list Symbol)
    (first last_ : nat) : ShaderInstance :=
  {| ops := code; symbols := syms;
     firstparam := first; lastparam := last_;
     maincodebegin := 0; maincodeend := Z.of_nat (length code);
     debug_uninit := false; lazy_userdata := false |}.

(** [x = Kd] with [Kd] a parameter that is not connected. *)
Definition layer_param : ShaderInstance :=
  plain_layer
    [ mk_op "assign" [wr 1%nat; rd 0%nat] [] ]
    [ mk_symbol "Kd" SymTypeParam false; mk_symbol "x" SymTypeLocal false ]
    0 1.

(** [N = k]: a varying global that is written and never read. *)
Definition layer_global_written : ShaderInstance :=
  plain_layer
    [ mk_op "assign" [wr 0%nat; rd 1%nat] [] ]
    [ mk_symbol "N" SymTypeGlobal false; mk_symbol "k" SymTypeConst false ]
    0 0.

(** [if (c1) { if (c2) x = k;  y = x; }  z = x;]
    with c1, c2, x, k, y, z at 0 .. 5. *)
Definition layer_nested_if : ShaderInstance :=
  plain_layer
    [ mk_op "if" [rd 0%nat] [4; 4];
      mk_op "if" [rd 1%nat] [3; 3];
      mk_op "assign" [wr 2%nat; rd 3%nat] [];
      mk_op "assign" [wr 4%nat; rd 2%nat] [];
      mk_op "assign" [wr 5%nat; rd 2%nat] [] ]
    [ mk_symbol "c1" SymTypeLocal false; mk_symbol "c2" SymTypeLocal false;
      mk_symbol "x" SymTypeLocal false; mk_symbol "k" SymTypeConst false;
      mk_symbol "y" SymTypeLocal false; mk_symbol "z" SymTypeLocal false ]
    0 0.

(** The same layer without its last op. *)
Definition layer_nested_if_prefix : ShaderInstance :=
  plain_layer (take 4 (ops layer_nested_if)) (symbols layer_nested_if) 0 0.

(** [if (x) { while (x) { if (c) break; } }] with x at 0 and c at 1: the
    loop condition is also the condition of the enclosing [if]. *)
Definition layer_break : ShaderInstance :=
  plain_layer
    [ mk_op "if" [rd 0%nat] [4; 4];
      mk_op "while" [rd 0%nat] [2; 2; 4; 4];
      mk_op "if" [rd 1%nat] [4; 4];
      mk_op "break" [] [] ]
    [ mk_symbol "x" SymTypeLocal false; mk_symbol "c" SymTypeLocal false ]
    0 0.

(** The state of the walk of [layer_break] when it reaches the [break]. *)
Definition state_at_break : WalkState :=
  {| is_uniform_by_symbol := {[ 0%nat := true; 1%nat := true ]};
     requires_masking_by_op_index := [false; false; false; false];
     symbolFeedForwardMap := [];
     usageInfoBySymbol := ∅;
     symbolsCurrentBlockDependsOn := [0%nat; 0%nat; 1%nat];
     loopControlFlowSymbolStack := [0%nat];
     symbolsWrittenToByGetAttribute := [];
     nextMaskId := 4 |}.

(** No op and one output parameter. *)
Definition layer_no_ops : ShaderInstance :=
  plain_layer [] [ mk_symbol "Cout" SymTypeOutputParam false ] 0 1.

(** [cond = u;  if (cond) x = 1; else x = 2;  y = x;  Cout = y;]
    with u, cond, x, one, two, y, Cout at 0 .. 6. *)
Definition layer_if_varying : ShaderInstance :=
  plain_layer
    [ mk_op "assign" [wr 1%nat; rd 0%nat] [];
      mk_op "if" [rd 1%nat] [3; 4];
      mk_op "assign" [wr 2%nat; rd 3%nat] [];
      mk_op "assign" [wr 2%nat; rd 4%nat] [];
      mk_op "assign" [wr 5%nat; rd 2%nat] [];
      mk_op "assign" [wr 6%nat; rd 5%nat] [] ]
    [ mk_symbol "u" SymTypeGlobal false; mk_symbol "cond" SymTypeLocal false;
      mk_symbol "x" SymTypeLocal false; mk_symbol "one" SymTypeConst false;
      mk_symbol "two" SymTypeConst false; mk_symbol "y" SymTypeLocal false;
      mk_symbol "Cout" SymTypeOutputParam false ]
    6 7.

(** An iteration order that differs from the order of insertion. *)
Definition reversed (feeds : list (SymPtr * SymPtr))
    : list (SymPtr * SymPtr) := reverse feeds.

(** The state a walk returned, for stating facts about a concrete walk. *)
Definition walked (r : result WalkState) : WalkState :=
  match r with
  | Ok st => st
  | Err _ => initial_walk_state ∅ []
  end.

Definition analysed (r : result Backend) : Backend :=
  match r with
  | Ok b => b
  | Err _ => fresh_backend 0
  end.

(** No op and no output parameter. *)
Definition layer_bare : ShaderInstance :=
  plain_layer [] [ mk_symbol "x" SymTypeLocal false ] 0 0.

(** [vc = u;  for (i = n; i < n; i += n) { if (vc) break; }]
    with u, vc, cond, i, n at 0 .. 4. *)
Definition layer_loop_break : ShaderInstance :=
  plain_layer
    [ mk_op "assign" [wr 1%nat; rd 0%nat] [];
      mk_op "for" [rd 2%nat] [3; 4; 6; 7];
      mk_op "assign" [wr 3%nat; rd 4%nat] [];
      mk_op "lt" [wr 2%nat; rd 3%nat; rd 4%nat] [];
      mk_op "if" [rd 1%nat] [6; 6];
      mk_op "break" [] [];
      mk_op "add" [wr 3%nat; rd 3%nat; rd 4%nat] [] ]
    [ mk_symbol "u" SymTypeGlobal false; mk_symbol "vc" SymTypeLocal false;
      mk_symbol "cond" SymTypeTemp false; mk_symbol "i" SymTypeLocal false;
      mk_symbol "n" SymTypeConst false ]
    0 0.


(** * Further functions of the backend *)

(** ** The masking query [requiresMasking] *)

(** The conversion of an [int] to [size_t] (64 bits) that the comparison
    [size() > opIndex] and the indexing of a vector apply. *)
Definition size_t_of_int (i : Z) : Z := i mod 2 ^ 64.

Definition requiresMasking (b : Backend) (layer : nat) (opIndex : Z)
    : result bool :=
  flags ← match m_requires_masking_by_layer_and_op_index b !! layer with
          | Some flags => Ok flags
          | None => Err OutOfBounds
          end;
  _ ← ASSERT (negb (bool_decide (flags = [])));
  _ ← ASSERT (bool_decide
        (Z.of_nat (length flags) > size_t_of_int opIndex));
  match flags !! Z.to_nat (size_t_of_int opIndex) with
  | Some requires => Ok requires
  | None => Err OutOfBounds
  end.

(** ** The stack of loop conditions of the code generator *)

(** The calls on the LLVM helper [ll] that these functions make. *)
Inductive ll_call := clear_mask_break.

(** [m_generated_loops_condition_stack], whose entries are symbol
    addresses or [nullptr], and the calls made on [ll] so far. *)
Record LoopConditions := {
  m_generated_loops_condition_stack : list (option SymPtr);
  ll_calls : list ll_call;
}.

Definition push_varying_loop_condition (condition : option SymPtr)
    (g : LoopConditions) : LoopConditions :=
  {| m_generated_loops_condition_stack :=
       m_generated_loops_condition_stack g ++ [condition];
     ll_calls := ll_calls g |}.

Definition varying_condition_of_innermost_loop (g : LoopConditions)
    : result (option SymPtr) :=
  match last (m_generated_loops_condition_stack g) with
  | None => Err AssertionFailed
  | Some condition => Ok condition
  end.

Definition pop_varying_loop_condition (g : LoopConditions)
    : result LoopConditions :=
  match last (m_generated_loops_condition_stack g) with
  | None => Err AssertionFailed
  | Some varying_loop_condition =>
      Ok {| m_generated_loops_condition_stack :=
              removelast (m_generated_loops_condition_stack g);
            ll_calls :=
              match varying_loop_condition with
              | Some _ => ll_calls g ++ [clear_mask_break]
              | None => ll_calls g
              end |}
  end.

(** ** The index of a shader global *)

(** The loop of [ShaderGlobalNameToIndex] from index [i] on: the index of
    the first entry with the name, and the flag of that entry written to
    the reference [is_uniform]; -1 and the flag as it was when no entry
    has the name. *)
Fixpoint ShaderGlobalNameToIndex_from (tbl : list (string * bool)) (i : Z)
    (nm : string) (is_uniform : bool) : Z * bool :=
  match tbl with
  | [] => (-1, is_uniform)
  | (f, u) :: rest =>
      if decide (nm = f) then (i, u)
      else ShaderGlobalNameToIndex_from rest (i + 1) nm is_uniform
  end.

Definition ShaderGlobalNameToIndex (nm : string) (is_uniform : bool)
    : Z * bool :=
  ShaderGlobalNameToIndex_from fields 0 nm is_uniform.

(** ** Vocabulary of the further statements *)

(** Some op of the layer has [s] as an argument it writes. *)
Definition written_by_op (inst : ShaderInstance) (s : SymPtr) : Prop :=
  ∃ opcode a, opcode ∈ ops inst ∧ a ∈ args opcode
              ∧ argsym a = s ∧ argwrite a = true.

(** Some loop op of the layer has [s] as an argument it reads. *)
Definition read_by_loop_op (inst : ShaderInstance) (s : SymPtr) : Prop :=
  ∃ opcode a, opcode ∈ ops inst ∧ is_loop_op opcode ∧ a ∈ args opcode
              ∧ argsym a = s ∧ argread a = true.

Global Instance written_by_op_dec inst s : Decision (written_by_op inst s).
Proof.
  refine (cast_if (decide (Exists (λ opcode,
            Exists (λ a, argsym a = s ∧ argwrite a = true) (args opcode))
            (ops inst))));
    unfold written_by_op.
  - apply Exists_exists in e as (opcode & Hin & Ha).
    apply Exists_exists in Ha as (a & Ha & Hs & Hw). by exists opcode, a.
  - intros (opcode & a & Hin & Ha & Hs & Hw). apply n.
    apply Exists_exists. exists opcode. split; [done|].
    apply Exists_exists. by exists a.
Defined.

Global Instance read_by_loop_op_dec inst s
    : Decision (read_by_loop_op inst s).
Proof.
  refine (cast_if (decide (Exists (λ opcode,
            is_loop_op opcode
            ∧ Exists (λ a, argsym a = s ∧ argread a = true) (args opcode))
            (ops inst))));
    unfold read_by_loop_op.
  - apply Exists_exists in e as (opcode & Hin & Hloop & Ha).
    apply Exists_exists in Ha as (a & Ha & Hs & Hr). by exists opcode, a.
  - intros (opcode & a & Hin & Hloop & Ha & Hs & Hr). apply n.
    apply Exists_exists. exists opcode. split; [done|]. split; [done|].
    apply Exists_exists. by exists a.
Defined.

(** What the walk keeps about where its edges end: every edge of the
    feed-forward map ends at a symbol that an op writes or a loop op
    reads, the loop-control stack holds conditions of loop ops, and the
    symbols noted for [getattribute] are written by an op. *)
Record walk_targets (inst : ShaderInstance) (st : WalkState) : Prop := {
  targets_feeds : ∀ u v, (u, v) ∈ symbolFeedForwardMap st →
                         written_by_op inst v ∨ read_by_loop_op inst v;
  targets_loops : ∀ c, c ∈ loopControlFlowSymbolStack st →
                       read_by_loop_op inst c;
  targets_getattribute : ∀ w, w ∈ symbolsWrittenToByGetAttribute st →
                              written_by_op inst w;
}.

(** The masking flags of [st'] against those of [st]: as many, and every
    flag that was set still set. *)
Definition flags_kept (st st' : WalkState) : Prop :=
  length (requires_masking_by_op_index st')
  = length (requires_masking_by_op_index st)
  ∧ ∀ i : nat, requires_masking_by_op_index st !! i = Some true →
               requires_masking_by_op_index st' !! i = Some true.

(** The two stacks of conditions are the same in both states. *)
Definition same_stacks (st st' : WalkState) : Prop :=
  symbolsCurrentBlockDependsOn st' = symbolsCurrentBlockDependsOn st
  ∧ loopControlFlowSymbolStack st' = loopControlFlowSymbolStack st.

(** A layer without control flow: no op has a jump target or is a
    [break], every argument is a symbol of the layer, and the code ranges
    lie inside the op vector. *)
Record straight_line (inst : ShaderInstance) : Prop := {
  sl_ops : ∀ opcode, opcode ∈ ops inst →
             farthest_jump opcode < 0 ∧ opname opcode ≠ op_break
             ∧ ∀ a, a ∈ args opcode → is_Some (symbol inst (argsym a));
  sl_main : 0 ≤ maincodebegin inst
            ∧ maincodeend inst ≤ Z.of_nat (length (ops inst));
  sl_init : ∀ s, s ∈ symbols inst →
              0 ≤ initbegin s ∧ initend s ≤ Z.of_nat (length (ops inst));
}.

(** No usage info records a write deeper than the top level. *)
Definition writes_at_top_level (st : WalkState) : Prop :=
  ∀ s info, usageInfoBySymbol st !! s = Some info → last_depth info ≤ 0.

(** The usage info that a write of op [opIndex] leaves. *)
Definition just_written (writeBlockDepth writeMaskId opIndex : Z)
    (st : WalkState) (w : SymPtr) : Prop :=
  ∃ info, usageInfoBySymbol st !! w = Some info
          ∧ last_depth info = writeBlockDepth
          ∧ last_maskId info = writeMaskId
          ∧ last (potentially_unmasked_ops info)
            = Some (writeBlockDepth, opIndex).


(** ** Further concrete inputs *)

(** What the first part of the loop body returned, for stating facts
    about a concrete op. *)
Definition begun (r : result (list SymPtr * list SymPtr * WalkState))
    : list SymPtr * list SymPtr * WalkState :=
  match r with
  | Ok x => x
  | Err _ => ([], [], initial_walk_state ∅ [])
  end.

(** Whether a walk returned. *)
Definition returned (r : result WalkState) : bool :=
  match r with
  | Ok _ => true
  | Err _ => false
  end.

(** The state in which the walk of [layer_if_varying] meets the op
    [x = 1] of the then-block: the condition at 1 is on the stack. *)
Definition state_in_then : WalkState :=
  set_stacks [1%nat] []
    (initial_walk_state {[ 0%nat := true; 1%nat := true ]}
       (replicate 6 false)).

(** The state at the start of the main code of a layer of six ops. *)
Definition state_at_main : WalkState :=
  (fresh_mask (initial_walk_state ∅ (replicate 6 false))).2.

(** An op with a jump target that is no [if], loop or function call. *)
Definition layer_unknown_jump : ShaderInstance :=
  plain_layer
    [ mk_op "useparam" [rd 0%nat] [1] ]
    [ mk_symbol "x" SymTypeLocal false ]
    0 0.

(** An [if] that reads two symbols. *)
Definition layer_if_two_reads : ShaderInstance :=
  plain_layer
    [ mk_op "if" [rd 0%nat; rd 1%nat] [1; 1] ]
    [ mk_symbol "a" SymTypeLocal false; mk_symbol "b" SymTypeLocal false ]
    0 0.

(** A [break] outside every loop, under an [if]. *)
Definition layer_stray_break : ShaderInstance :=
  plain_layer
    [ mk_op "if" [rd 0%nat] [2; 2];
      mk_op "break" [] [] ]
    [ mk_symbol "c" SymTypeLocal false ]
    0 0.

(** [n] calls of [pop_varying_loop_condition] in sequence, as the code
    generator makes them when it leaves [n] nested loops. *)
Fixpoint pop_varying_loop_conditions (n : nat) (g : LoopConditions)
    : result LoopConditions :=
  match n with
  | O => Ok g
  | S n => g' ← pop_varying_loop_condition g;
           pop_varying_loop_conditions n g'
  end.

(** The calls of [push_varying_loop_condition] for the conditions of
    nested loops, the outermost first. *)
Definition push_varying_loop_conditions (conditions : list (option SymPtr))
    (g : LoopConditions) : LoopConditions :=
  fold_left (λ g condition, push_varying_loop_condition condition g)
    conditions g.

(** A state of the code generator inside two loops, the inner one with a
    varying condition. *)
Definition two_loops : LoopConditions :=
  {| m_generated_loops_condition_stack := [None; Some 2%nat];
     ll_calls := [] |}.

(** The op at index [i] writes one of its arguments or is a [break]. *)
Definition writes_or_breaks (inst : ShaderInstance) (i : Z) : Prop :=
  ∃ opcode, op inst i = Ok opcode
            ∧ ((∃ a, a ∈ args opcode ∧ argwrite a = true)
               ∨ opname opcode = op_break).

(** What the walk keeps about the ops it may ask a mask for: the pending
    writes of every usage info and the ops whose masking flag is set are
    ops that write or break. *)
Record pending_ok (inst : ShaderInstance) (st : WalkState) : Prop := {
  pending_usage : ∀ s info u,
    usageInfoBySymbol st !! s = Some info →
    u ∈ potentially_unmasked_ops info → writes_or_breaks inst u.2;
  pending_flags : ∀ n : nat,
    requires_masking_by_op_index st !! n = Some true →
    writes_or_breaks inst (Z.of_nat n);
}.

(** * Addresses of symbols in the generated code *)

(** A [TypeDesc] as far as the functions below look at it: they compare
    it with [TypeDesc::UNKNOWN] and pass it on. *)
Inductive TypeDesc := TypeDesc_UNKNOWN | TypeDesc_tag (tag : nat).

Global Instance TypeDesc_eq_dec : EqDecision TypeDesc.
Proof. solve_decision. Defined.

(** What the functions below read of a symbol through methods that are
    declared outside the sources at hand: [typespec().elementtype()] (by
    a tag) and its [simpletype()], [dealias()->mangled()],
    [has_derivs()], and [llvm_typedesc (typespec())] with its
    [size()]. *)
Record SymbolLayout := {
  elementtype : nat;
  elementtype_simpletype : TypeDesc;
  mangled : string;
  has_derivs : bool;
  llvm_typedesc : TypeDesc;
  llvm_typedesc_size : Z;
}.

(** The types asked of the backend: [llvm_type] and [llvm_wide_type], of
    a [TypeSpec] and of a [TypeDesc]. *)
Inductive llvm_type_of :=
  | llvm_type (ts : nat)
  | llvm_wide_type (ts : nat)
  | llvm_type_desc (t : TypeDesc)
  | llvm_wide_type_desc (t : TypeDesc).

(** The values that the calls on [ll] build, as terms: one constructor
    for every call, an [alloca] with the number of the instruction. *)
Inductive llvm_value :=
  | sg_ptr
  | groupdata_ptr
  | GEP (ptr : llvm_value) (elem1 elem2 : Z)
  | void_ptr (ptr : llvm_value)
  | ptr_to_cast (val : llvm_value) (ty : llvm_type_of)
  | op_alloca_type_bool (id : nat) (n : Z) (nm : string)
  | op_alloca_type_wide_bool (id : nat) (n : Z) (nm : string)
  | op_alloca (id : nat) (t : TypeDesc) (n : Z) (nm : string)
  | wide_op_alloca (id : nat) (t : TypeDesc) (n : Z) (nm : string).

(** The members that the functions below change: [named_values()], the
    counter [m_llvm_local_mem] (its declaration is outside the sources at
    hand; the sum is taken in Z), the number of [alloca] instructions
    built, and the names reported by [shadingcontext()->error]. *)
Record Codegen := {
  named_values : gmap string llvm_value;
  m_llvm_local_mem : Z;
  allocas_built : nat;
  reported_errors : list string;
}.

Definition llvm_global_symbol_ptr (nm : string) (is_uniform : bool)
    : result (llvm_value * bool) :=
  let '(sg_index, is_uniform) := ShaderGlobalNameToIndex nm is_uniform in
  _ ← ASSERT (bool_decide (sg_index >= 0));
  Ok (void_ptr (GEP sg_ptr 0 sg_index), is_uniform).

Definition groupdata_field_ref (fieldnum : Z) : llvm_value :=
  GEP groupdata_ptr 0 fieldnum.

Definition groupdata_field_ptr (fieldnum : Z) (type : TypeDesc)
    (is_uniform : bool) : llvm_value :=
  let result := void_ptr (groupdata_field_ref fieldnum) in
  if decide (type ≠ TypeDesc_UNKNOWN) then
    if is_uniform then ptr_to_cast result (llvm_type_desc type)
    else ptr_to_cast result (llvm_wide_type_desc type)
  else result.

Definition layer_run_ref (layer : Z) : llvm_value :=
  let fieldnum := 0 in
  let layer_run := groupdata_field_ref fieldnum in
  GEP layer_run 0 layer.

Definition userdata_initialized_ref (userdata_index : Z) : llvm_value :=
  let fieldnum := 1 in
  let userdata_initiazlied := groupdata_field_ref fieldnum in
  GEP userdata_initiazlied 0 userdata_index.

(** [llvm_alloca]; the [name] is the mangled name of the caller. *)
Definition llvm_alloca (t : TypeDesc) (size : Z)
    (derivs is_uniform forceBool : bool) (nm : string) (g : Codegen)
    : llvm_value * Codegen :=
  let n := if derivs then 3 else 1 in
  let id := allocas_built g in
  let g := {| named_values := named_values g;
              m_llvm_local_mem := m_llvm_local_mem g + size * n;
              allocas_built := S id;
              reported_errors := reported_errors g |} in
  if is_uniform then
    if forceBool then (op_alloca_type_bool id n nm, g)
    else (op_alloca id t n nm, g)
  else
    if forceBool then (op_alloca_type_wide_bool id n nm, g)
    else (wide_op_alloca id t n nm, g).

Section Addresses.

(** [DASSERT] checks in debug builds only; [NDEBUG] tells the build.
    [m_param_order_map] is declared outside the sources at hand:
    [param_order p] stands for what [m_param_order_map[&sym]] gives for
    the symbol at [p]. *)
Context (NDEBUG : bool) (param_order : SymPtr → Z).

Definition DASSERT (c : bool) : result unit :=
  if NDEBUG then Ok () else ASSERT c.

(** [getLLVMSymbolBase]: the pointer, [None] for the null pointer of the
    error case, and the members after the call.  [ASSERT (result)] holds
    of every value that [llvm_global_symbol_ptr] returns. *)
Definition getLLVMSymbolBase (b : Backend) (p : SymPtr) (sym : Symbol)
    (lay : SymbolLayout) (g : Codegen)
    : result (option llvm_value * Codegen) :=
  is_uniform ← isSymbolUniform b p sym;
  if decide (symtype sym = SymTypeGlobal) then
    '(ptr, is_uniform) ← llvm_global_symbol_ptr (name sym) is_uniform;
    let ptr :=
      if is_uniform : bool
      then ptr_to_cast ptr (llvm_type (elementtype lay))
      else ptr_to_cast ptr (llvm_wide_type (elementtype lay)) in
    Ok (Some ptr, g)
  else if decide (symtype sym = SymTypeParam
                  ∨ symtype sym = SymTypeOutputParam) then
    let fieldnum := param_order p in
    Ok (Some (groupdata_field_ptr fieldnum (elementtype_simpletype lay)
                is_uniform), g)
  else
    let mangled_name := mangled lay in
    match named_values g !! mangled_name with
    | None =>
        Ok (None,
            {| named_values := named_values g;
               m_llvm_local_mem := m_llvm_local_mem g;
               allocas_built := allocas_built g;
               reported_errors := reported_errors g ++ [mangled_name] |})
    | Some a => Ok (Some a, g)
    end.

Definition getOrAllocateLLVMSymbol (b : Backend) (p : SymPtr) (sym : Symbol)
    (lay : SymbolLayout) (forceBool : bool) (g : Codegen)
    : result (llvm_value * Codegen) :=
  _ ← DASSERT (bool_decide (symtype sym = SymTypeLocal
                            ∨ symtype sym = SymTypeTemp
                            ∨ symtype sym = SymTypeConst));
  let mangled_name := mangled lay in
  match named_values g !! mangled_name with
  | None =>
      is_uniform ← isSymbolUniform b p sym;
      let '(a, g) := llvm_alloca (llvm_typedesc lay) (llvm_typedesc_size lay)
                       (has_derivs lay) is_uniform forceBool mangled_name
                       g in
      Ok (a, {| named_values := <[mangled_name := a]> (named_values g);
                m_llvm_local_mem := m_llvm_local_mem g;
                allocas_built := allocas_built g;
                reported_errors := reported_errors g |})
  | Some a => Ok (a, g)
  end.

End Addresses.

(** The layout of a float local named [x]. *)
Definition layout_x : SymbolLayout :=
  {| elementtype := 0; elementtype_simpletype := TypeDesc_tag 0;
     mangled := "x"; has_derivs := true;
     llvm_typedesc := TypeDesc_tag 0; llvm_typedesc_size := 4 |}.

(** The members before any symbol is allocated. *)
Definition empty_codegen : Codegen :=
  {| named_values := ∅; m_llvm_local_mem := 0; allocas_built := 0;
     reported_errors := [] |}.

(** What an allocation returned, for stating facts about a concrete
    call. *)
Definition allocated (r : result (llvm_value * Codegen))
    : llvm_value * Codegen :=
  match r with
  | Ok x => x
  | Err _ => (sg_ptr, empty_codegen)
  end.

(** * Types and arguments of calls *)

(** The outcomes of the tests that [llvm_pass_type] and
    [llvm_pass_wide_type] make on
    [t = typespec.simpletype().elementtype()], in the order of the
    source; the comparisons of a [TypeDesc] are declared outside the
    sources at hand. *)
Record TypeTests := {
  t_is_FLOAT : bool;
  t_is_INT : bool;
  t_is_STRING : bool;
  t_aggregate_is_VEC3 : bool;
  t_aggregate_is_MATRIX44 : bool;
  t_is_NONE : bool;
  t_is_PTR : bool;
  t_is_LONGLONG : bool;
  t_arraylen : Z;
}.

(** The types of [ll] that the two functions return. *)
Inductive pass_type :=
  | type_void_ptr | type_float | type_int | type_string | type_void
  | type_longlong.

Definition llvm_pass_type (closure_based : bool) (t : TypeTests)
    : result pass_type :=
  if closure_based then Ok type_void_ptr
  else
    lt ← (if t_is_FLOAT t then Ok type_float
          else if t_is_INT t then Ok type_int
          else if t_is_STRING t then Ok type_string
          else if t_aggregate_is_VEC3 t then Ok type_void_ptr
          else if t_aggregate_is_MATRIX44 t then Ok type_void_ptr
          else if t_is_NONE t then Ok type_void
          else if t_is_PTR t then Ok type_void_ptr
          else if t_is_LONGLONG t then Ok type_longlong
          else Err AssertionFailed);
    _ ← ASSERT (bool_decide (t_arraylen t = 0));
    Ok lt.

Definition llvm_pass_wide_type (closure_based : bool) (t : TypeTests)
    : result pass_type :=
  if closure_based then Ok type_void_ptr
  else
    lt ← (if t_is_FLOAT t then Ok type_void_ptr
          else if t_is_INT t then Ok type_void_ptr
          else if t_is_STRING t then Ok type_void_ptr
          else if t_aggregate_is_VEC3 t then Ok type_void_ptr
          else if t_aggregate_is_MATRIX44 t then Ok type_void_ptr
          else if t_is_NONE t then Ok type_void
          else if t_is_PTR t then Ok type_void_ptr
          else if t_is_LONGLONG t then Ok type_void_ptr
          else Err AssertionFailed);
    _ ← ASSERT (bool_decide (t_arraylen t = 0));
    Ok lt.

(** How the loop of [llvm_call_function] passes one argument: the value
    of a closure, a pointer to the symbol, a pointer to a widened copy of
    a constant, or the value. *)
Inductive arg_passing :=
  | pass_closure_value
  | pass_void_ptr
  | pass_widened_constant
  | pass_value.

(** The branch that the body of the loop of [llvm_call_function] takes
    for an argument [s]; [aggregate] is [t.simpletype().aggregate].  The
    two [DASSERT]s of the widening branch check in debug builds only. *)
Definition llvm_call_function_arg (NDEBUG : bool) (s : Symbol)
    (aggregate : Z) (s_has_derivs : bool)
    (deriv_ptrs function_is_uniform functionIsLlvmInlined : bool)
    : result arg_passing :=
  if is_closure (typespec s) then Ok pass_closure_value
  else if bool_decide (aggregate > 1)
          || (deriv_ptrs && s_has_derivs)
          || (negb function_is_uniform && negb functionIsLlvmInlined)
  then
    if function_is_uniform
       || negb (bool_decide (symtype s = SymTypeConst))
    then Ok pass_void_ptr
    else
      _ ← DASSERT NDEBUG (bool_decide (symtype s = SymTypeConst));
      _ ← DASSERT NDEBUG function_is_uniform;
      Ok pass_widened_constant
  else Ok pass_value.

(** * The test renderer: command line and options *)

Module TestRender.

(** The file-level variables that the two functions below read or
    write. *)
Record Globals := {
  debug1 : bool;
  debug2 : bool;
  profile : bool;
  O0 : bool;
  O1 : bool;
  O2 : bool;
  debugnan : bool;
  debug_uninit : bool;
  userdata_isconnected : bool;
  extraoptions : string;
  texoptions : string;
  scenefile : string;
  imagefile : string;
  shaderpath : string;
  shadingsys_options_set : bool;
}.

Definition set_scenefile (s : string) (g : Globals) : Globals :=
  {| debug1 := debug1 g; debug2 := debug2 g; profile := profile g;
     O0 := O0 g; O1 := O1 g; O2 := O2 g; debugnan := debugnan g;
     debug_uninit := debug_uninit g;
     userdata_isconnected := userdata_isconnected g;
     extraoptions := extraoptions g; texoptions := texoptions g;
     scenefile := s; imagefile := imagefile g;
     shaderpath := shaderpath g;
     shadingsys_options_set := shadingsys_options_set g |}.

Definition set_imagefile (s : string) (g : Globals) : Globals :=
  {| debug1 := debug1 g; debug2 := debug2 g; profile := profile g;
     O0 := O0 g; O1 := O1 g; O2 := O2 g; debugnan := debugnan g;
     debug_uninit := debug_uninit g;
     userdata_isconnected := userdata_isconnected g;
     extraoptions := extraoptions g; texoptions := texoptions g;
     scenefile := scenefile g; imagefile := s;
     shaderpath := shaderpath g;
     shadingsys_options_set := shadingsys_options_set g |}.

Definition set_options_set (g : Globals) : Globals :=
  {| debug1 := debug1 g; debug2 := debug2 g; profile := profile g;
     O0 := O0 g; O1 := O1 g; O2 := O2 g; debugnan := debugnan g;
     debug_uninit := debug_uninit g;
     userdata_isconnected := userdata_isconnected g;
     extraoptions := extraoptions g; texoptions := texoptions g;
     scenefile := scenefile g; imagefile := imagefile g;
     shaderpath := shaderpath g;
     shadingsys_options_set := true |}.

(** The body of the loop of [get_filenames] for one argument. *)
Definition take_filename (g : Globals) (arg : string) : Globals :=
  if decide (scenefile g = "") then set_scenefile arg g
  else if decide (imagefile g = "") then set_imagefile arg g
  else g.

(** [get_filenames (argc, argv)]: the value returned and the variables
    after the call. *)
Definition get_filenames (argv : list string) (g : Globals)
    : Z * Globals :=
  (0, fold_left take_filename argv g).

(** The values passed to [attribute]: an [int] (a [bool] is converted) or
    a string. *)
Inductive attr_value :=
  | attr_int (v : Z)
  | attr_string (s : string).

(** The calls [shadingsys->attribute] and
    [shadingsys->texturesys()->attribute]. *)
Inductive attr_call :=
  | shadingsys_attribute (nm : string) (v : attr_value)
  | texturesys_attribute (nm : string) (v : attr_value).

(** [set_shadingsys_options]: the calls it makes, in order, and the
    variables after it.  [opt_env] is what [getenv ("TESTSHADE_OPT")]
    returns, [None] for the null pointer, and [atoi] the function of the
    C library. *)
Definition set_shadingsys_options (atoi : string → Z)
    (opt_env : option string) (g : Globals) : list attr_call * Globals :=
  let opt := 2 in
  let opt := if O0 g then 0 else opt in
  let opt := if O1 g then 1 else opt in
  let opt := if O2 g then 2 else opt in
  let opt := match opt_env with
             | Some opt_env => atoi opt_env
             | None => opt
             end in
  ([ shadingsys_attribute "debug"
       (attr_int (if debug2 g then 2 else if debug1 g then 1 else 0));
     shadingsys_attribute "compile_report"
       (attr_int (Z.lor (Z.b2z (debug1 g)) (Z.b2z (debug2 g))));
     shadingsys_attribute "optimize" (attr_int opt);
     shadingsys_attribute "profile" (attr_int (Z.b2z (profile g)));
     shadingsys_attribute "lockgeom" (attr_int 1);
     shadingsys_attribute "debug_nan" (attr_int (Z.b2z (debugnan g)));
     shadingsys_attribute "debug_uninit"
       (attr_int (Z.b2z (debug_uninit g)));
     shadingsys_attribute "userdata_isconnected"
       (attr_int (Z.b2z (userdata_isconnected g))) ]
   ++ (if decide (shaderpath g = "") then []
       else [ shadingsys_attribute "searchpath:shader"
                (attr_string (shaderpath g)) ])
   ++ (if decide (extraoptions g = "") then []
       else [ shadingsys_attribute "options"
                (attr_string (extraoptions g)) ])
   ++ (if decide (texoptions g = "") then []
       else [ texturesys_attribute "options"
                (attr_string (texoptions g)) ])
   ++ [ shadingsys_attribute "llvm_debugging_symbols" (attr_int 1);
        shadingsys_attribute "llvm_profiling_events" (attr_int 1) ],
   set_options_set g).

(** The variables as the file initialises them. *)
Definition initial_globals : Globals :=
  {| debug1 := false; debug2 := false; profile := false;
     O0 := false; O1 := false; O2 := false; debugnan := false;
     debug_uninit := false; userdata_isconnected := false;
     extraoptions := ""; texoptions := "";
     scenefile := ""; imagefile := ""; shaderpath := "";
     shadingsys_options_set := false |}.

(** The value that the calls give an integer attribute of the shading
    system, the last call deciding. *)
Definition shadingsys_int (nm : string) (calls : list attr_call)
    : option Z :=
  last (omap (λ c, match c with
                   | shadingsys_attribute nm' (attr_int v) =>
                       if decide (nm' = nm) then Some v else None
                   | _ => None
                   end) calls).

End TestRender.
(** * Properties *)

(** ** The error monad *)

Lemma bind_Ok {A B} (m : result A) (k : A → result B) b :
  m ≫= k = Ok b ↔ ∃ a, m = Ok a ∧ k a = Ok b.
Proof.
  destruct m as [a|e]; simpl; split.
  - eauto.
  - by intros (a' & [= ->] & Hk).
  - done.
  - by intros (a' & ? & _).
Qed.

Lemma ASSERT_Ok b u : ASSERT b = Ok u ↔ b = true.
Proof. destruct b, u; simpl; split; congruence. Qed.

(** ** The mask planner *)

Lemma vec_store_Ok (vec : list bool) i b :
  0 ≤ i < Z.of_nat (length vec) →
  vec_store vec i b = Ok (<[Z.to_nat i := b]> vec).
Proof. intros Hi. unfold vec_store. by rewrite decide_True. Qed.

(** What the loop over the pending writes computes, when every pending op
    index is an index of the masking vector. *)
Lemma mark_deeper_usages_spec blockDepth (usages : list (Z * Z))
    (flags : list bool) (remaining_ops : list (Z * Z)) :
  Forall (λ u, 0 ≤ u.2 < Z.of_nat (length flags)) usages →
  ∃ flags',
    mark_deeper_usages blockDepth usages flags remaining_ops
    = Ok (flags',
          remaining_ops ++ filter (λ u, u.1 ≤ blockDepth) usages)
    ∧ length flags' = length flags
    ∧ (∀ d i, (d, i) ∈ usages → d > blockDepth →
         flags' !! Z.to_nat i = Some true)
    ∧ (∀ n : nat, (∀ d, (d, Z.of_nat n) ∈ usages → d ≤ blockDepth) →
         flags' !! n = flags !! n).
Proof.
  revert flags remaining_ops.
  induction usages as [|[d0 i0] usages IH]; intros flags rem Hrange.
  - exists flags. simpl. rewrite app_nil_r. repeat split; try done.
    intros d i Hin. by apply elem_of_nil in Hin.
  - apply Forall_cons in Hrange as [Hi0 Hrange]. simpl in Hi0.
    cbn [mark_deeper_usages fst snd]. destruct (decide (d0 > blockDepth)) as [Hd|Hd].
    + rewrite vec_store_Ok by done. cbn.
      destruct (IH (<[Z.to_nat i0 := true]> flags) rem) as (flags' & Heq & Hlen & Hset & Hkeep).
      { by rewrite length_insert. }
      exists flags'. rewrite Heq, decide_False by lia.
      rewrite length_insert in Hlen. repeat split; try done.
      * intros d i Hin Hgt. apply elem_of_cons in Hin as [[= -> ->]|Hin]; [|by eauto].
        destruct (decide (Exists (λ u, u.2 = i0 ∧ u.1 > blockDepth) usages))
          as [Hex|Hnone].
        { apply Exists_exists in Hex as ([d' i'] & Hin' & Heq' & Hgt').
          simpl in *. subst. eauto. }
        rewrite Hkeep.
        -- apply list_lookup_insert_eq. lia.
        -- intros d' Hin'. rewrite Z2Nat.id in Hin' by lia.
           destruct (decide (d' ≤ blockDepth)); [done|].
           exfalso. apply Hnone, Exists_exists. exists (d', i0).
           simpl. split; [done|]. split; [done|lia].
      * intros n Hn. rewrite Hkeep.
        -- apply list_lookup_insert_ne. intros <-.
           specialize (Hn d0). rewrite Z2Nat.id in Hn by lia.
           specialize (Hn (list_elem_of_here _ _)). lia.
        -- intros d' Hin'. apply Hn. by apply list_elem_of_further.
    + destruct (IH flags (rem ++ [(d0, i0)])) as (flags' & Heq & Hlen & Hset & Hkeep);
        [done|].
      exists flags'. rewrite Heq, filter_cons_True by (simpl; lia).
      rewrite <- app_assoc. repeat split; try done.
      * intros d i Hin Hgt. apply elem_of_cons in Hin as [[= -> ->]|Hin]; [lia|by eauto].
      * intros n Hn. apply Hkeep. intros d' Hin'. apply Hn.
        by apply list_elem_of_further.
Qed.

(** The three ways a call on a symbol with usage info can go. *)
Lemma ensure_not_triggered symbolToCheck blockDepth maskId st info :
  usageInfoBySymbol st !! symbolToCheck = Some info →
  ¬ (last_depth info > blockDepth ∧ last_maskId info ≠ maskId) →
  ensureWritesAtLowerDepthAreMasked symbolToCheck blockDepth maskId st = Ok st.
Proof.
  intros Hinfo Hcond. unfold ensureWritesAtLowerDepthAreMasked.
  by rewrite Hinfo, decide_False.
Qed.

Lemma ensure_triggered_empty symbolToCheck blockDepth maskId st info :
  usageInfoBySymbol st !! symbolToCheck = Some info →
  last_depth info > blockDepth → last_maskId info ≠ maskId →
  potentially_unmasked_ops info = [] →
  ensureWritesAtLowerDepthAreMasked symbolToCheck blockDepth maskId st
  = Err AssertionFailed.
Proof.
  intros Hinfo Hd Hm Hempty. unfold ensureWritesAtLowerDepthAreMasked.
  by rewrite Hinfo, decide_True, Hempty.
Qed.

Lemma ensure_triggered symbolToCheck blockDepth maskId st info :
  usageInfoBySymbol st !! symbolToCheck = Some info →
  last_depth info > blockDepth → last_maskId info ≠ maskId →
  potentially_unmasked_ops info ≠ [] →
  Forall (λ u, 0 ≤ u.2 < Z.of_nat (length (requires_masking_by_op_index st)))
    (potentially_unmasked_ops info) →
  ∃ flags',
    ensureWritesAtLowerDepthAreMasked symbolToCheck blockDepth maskId st
    = Ok (set_masking_usage flags'
            (<[symbolToCheck :=
                 {| last_depth := blockDepth;
                    last_maskId := last_maskId info;
                    potentially_unmasked_ops :=
                      filter (λ u, u.1 ≤ blockDepth)
                        (potentially_unmasked_ops info) |}]>
               (usageInfoBySymbol st)) st)
    ∧ length flags' = length (requires_masking_by_op_index st)
    ∧ (∀ d i, (d, i) ∈ potentially_unmasked_ops info → d > blockDepth →
         flags' !! Z.to_nat i = Some true)
    ∧ (∀ n : nat,
         (∀ d, (d, Z.of_nat n) ∈ potentially_unmasked_ops info →
               d ≤ blockDepth) →
         flags' !! n = requires_masking_by_op_index st !! n).
Proof.
  intros Hinfo Hd Hm Hne Hrange. unfold ensureWritesAtLowerDepthAreMasked.
  rewrite Hinfo, decide_True by done.
  rewrite bool_decide_eq_false_2 by done. cbn.
  destruct (mark_deeper_usages_spec blockDepth _ _ [] Hrange)
    as (flags' & Heq & Hlen & Hset & Hkeep).
  exists flags'. rewrite Heq. cbn. done.
Qed.

(** C2.  A call of [ensureWritesAtLowerDepthAreMasked] on a symbol whose
    usage info has [last_depth > blockDepth] and [last_maskId ≠ maskId]:
    the pending writes deeper than [blockDepth] get the masking flag of
    their op set and leave the pending list, the pending writes at depth
    at most [blockDepth] stay pending, in their order, and the flag of no
    other op changes.  (With no pending write at all the call stops at its
    assertion, no flag set.) *)
Theorem ensure_masks_deeper_pending_writes
    symbolToCheck blockDepth maskId st info :
  usageInfoBySymbol st !! symbolToCheck = Some info →
  last_depth info > blockDepth →
  last_maskId info ≠ maskId →
  Forall (λ u, 0 ≤ u.2 < Z.of_nat (length (requires_masking_by_op_index st)))
    (potentially_unmasked_ops info) →
  (potentially_unmasked_ops info = []
   ∧ ensureWritesAtLowerDepthAreMasked symbolToCheck blockDepth maskId st
     = Err AssertionFailed)
  ∨ ∃ st' info',
      ensureWritesAtLowerDepthAreMasked symbolToCheck blockDepth maskId st
      = Ok st'
      ∧ (∀ d i, (d, i) ∈ potentially_unmasked_ops info → d > blockDepth →
           requires_masking_by_op_index st' !! Z.to_nat i = Some true
           ∧ (d, i) ∉ potentially_unmasked_ops info')
      ∧ (∀ d i, (d, i) ∈ potentially_unmasked_ops info → d ≤ blockDepth →
           (d, i) ∈ potentially_unmasked_ops info')
      ∧ (∀ n : nat,
           (∀ d, (d, Z.of_nat n) ∈ potentially_unmasked_ops info →
                 d ≤ blockDepth) →
           requires_masking_by_op_index st' !! n
           = requires_masking_by_op_index st !! n)
      ∧ usageInfoBySymbol st' !! symbolToCheck = Some info'
      ∧ potentially_unmasked_ops info'
        = filter (λ u, u.1 ≤ blockDepth) (potentially_unmasked_ops info).
Proof.
  intros Hinfo Hd Hm Hrange.
  destruct (decide (potentially_unmasked_ops info = [])) as [Hempty|Hne].
  { left. eauto using ensure_triggered_empty. }
  right.
  destruct (ensure_triggered _ _ _ _ _ Hinfo Hd Hm Hne Hrange)
    as (flags' & Heq & _ & Hset & Hkeep).
  eexists _,
    {| last_depth := blockDepth; last_maskId := last_maskId info;
       potentially_unmasked_ops :=
         filter (λ u, u.1 ≤ blockDepth) (potentially_unmasked_ops info) |}.
  split; [exact Heq|]. cbn.
  rewrite lookup_insert_eq. split_and!; try done.
  - intros d i Hin Hgt. split; [by eapply Hset|].
    rewrite list_elem_of_filter. simpl. lia.
  - intros d i Hin Hle. by apply list_elem_of_filter.
Qed.

Lemma ensure_masks_deeper_pending_writes_witness :
  ∃ st',
    ensureWritesAtLowerDepthAreMasked 0%nat 1 1 planner_state = Ok st'
    ∧ requires_masking_by_op_index st' = [true; false; false]
    ∧ (potentially_unmasked_ops <$> usageInfoBySymbol st' !! 0%nat)
      = Some [(0, 1)].
Proof.
  destruct (ensure_masks_deeper_pending_writes 0%nat 1 1 planner_state
              planner_info) as [[Hempty _]|(st' & info' & Heq & _)].
  - reflexivity.
  - simpl; lia.
  - simpl; lia.
  - repeat constructor; simpl; lia.
  - discriminate Hempty.
  - exists st'. split; [exact Heq|].
    vm_compute in Heq. injection Heq as <-. split; reflexivity.
Defined.

(** C4, as the code has it.  A call of
    [ensureWritesAtLowerDepthAreMasked] on a symbol with usage info sets
    [last_depth] to [blockDepth] when [last_depth > blockDepth] and
    [last_maskId ≠ maskId] (and some write is pending, so that the
    assertion holds), leaving [last_maskId]; in every other case the call
    changes nothing. *)
Theorem ensure_resets_last_depth_when_triggered
    symbolToCheck blockDepth maskId st info :
  usageInfoBySymbol st !! symbolToCheck = Some info →
  (last_depth info > blockDepth ∧ last_maskId info ≠ maskId →
   potentially_unmasked_ops info ≠ [] →
   Forall (λ u, 0 ≤ u.2 < Z.of_nat (length (requires_masking_by_op_index st)))
     (potentially_unmasked_ops info) →
   ∃ st' info',
     ensureWritesAtLowerDepthAreMasked symbolToCheck blockDepth maskId st
     = Ok st'
     ∧ usageInfoBySymbol st' !! symbolToCheck = Some info'
     ∧ last_depth info' = blockDepth
     ∧ last_maskId info' = last_maskId info)
  ∧ (¬ (last_depth info > blockDepth ∧ last_maskId info ≠ maskId) →
     ensureWritesAtLowerDepthAreMasked symbolToCheck blockDepth maskId st
     = Ok st).
Proof.
  intros Hinfo. split.
  - intros [Hd Hm] Hne Hrange.
    destruct (ensure_triggered _ _ _ _ _ Hinfo Hd Hm Hne Hrange)
      as (flags' & Heq & _).
    eexists _, _. split; [exact Heq|]. cbn.
    by rewrite lookup_insert_eq.
  - eauto using ensure_not_triggered.
Qed.

Lemma ensure_resets_last_depth_when_triggered_witness :
  (∃ st' info',
     ensureWritesAtLowerDepthAreMasked 0%nat 1 1 planner_state = Ok st'
     ∧ usageInfoBySymbol st' !! 0%nat = Some info'
     ∧ last_depth info' = 1
     ∧ last_maskId info' = 2)
  ∧ ensureWritesAtLowerDepthAreMasked 0%nat 2 1 planner_state
    = Ok planner_state.
Proof.
  destruct (ensure_resets_last_depth_when_triggered 0%nat 1 1 planner_state
              planner_info eq_refl) as [Hyes _].
  destruct (ensure_resets_last_depth_when_triggered 0%nat 2 1 planner_state
              planner_info eq_refl) as [_ Hno].
  split.
  - apply Hyes.
    + simpl; lia.
    + discriminate.
    + repeat constructor; simpl; lia.
  - apply Hno. simpl; lia.
Defined.

(** C4 as claimed fails: a symbol last written at depth 0 and checked at
    depth 1 keeps [last_depth = 0]. *)
Lemma ensure_always_resets_last_depth_counterexample :
  ¬ (∀ symbolToCheck blockDepth maskId st st' info,
       usageInfoBySymbol st !! symbolToCheck = Some info →
       ensureWritesAtLowerDepthAreMasked symbolToCheck blockDepth maskId st
       = Ok st' →
       last_depth <$> usageInfoBySymbol st' !! symbolToCheck
       = Some blockDepth).
Proof.
  intros Hclaim.
  specialize (Hclaim 0%nat 1 1 shallow_state shallow_state _ eq_refl eq_refl).
  vm_compute in Hclaim. discriminate Hclaim.
Qed.

(** ** Varying propagation *)

Lemma elem_of_uniform_set tbl x : x ∈ uniform_set tbl ↔ tbl !! x = Some true.
Proof.
  unfold uniform_set. rewrite elem_of_dom. split.
  - intros [b Hb]. apply map_lookup_filter_Some in Hb as [Hb Hp].
    simpl in Hp. by subst.
  - intros Hx. exists true. by apply map_lookup_filter_Some.
Qed.

Lemma uniform_set_size tbl : (size (uniform_set tbl) ≤ size tbl)%nat.
Proof.
  unfold uniform_set. rewrite size_dom.
  apply map_subseteq_size, map_filter_subseteq.
Qed.

Lemma table_grows_refl tbl : table_grows tbl tbl.
Proof. by split. Qed.

Lemma table_grows_trans t1 t2 t3 :
  table_grows t1 t2 → table_grows t2 t3 → table_grows t1 t3.
Proof. intros [] []. split; eauto. Qed.

Lemma table_grows_uniform_set tbl tbl' :
  table_grows tbl tbl' → (size (uniform_set tbl') ≤ size (uniform_set tbl))%nat.
Proof.
  intros Hg. apply subseteq_size. intros x.
  rewrite !elem_of_uniform_set. apply Hg.
Qed.

Lemma table_grows_readers_known feeds tbl tbl' :
  table_grows tbl tbl' → readers_known feeds tbl → readers_known feeds tbl'.
Proof. intros Hg Hk u v Huv. eapply grows_dom; eauto. Qed.

Lemma table_grows_insert_false tbl s :
  table_grows tbl (<[s := false]> tbl).
Proof.
  split; intros x.
  - intros Hx. destruct (decide (s = x)) as [->|Hne].
    + by rewrite lookup_insert_eq.
    + by rewrite lookup_insert_ne.
  - destruct (decide (s = x)) as [->|Hne].
    + by rewrite lookup_insert_eq.
    + by rewrite lookup_insert_ne.
  - intros Hx. destruct (decide (s = x)) as [->|Hne].
    + rewrite lookup_insert_eq. eauto.
    + by rewrite lookup_insert_ne.
Qed.

Section mark.
Variable feeds : list (SymPtr * SymPtr).

Lemma elem_of_equal_range s v : v ∈ equal_range feeds s ↔ (s, v) ∈ feeds.
Proof.
  unfold equal_range. rewrite list_elem_of_fmap. split.
  - intros ([u w] & -> & Hin). apply list_elem_of_filter in Hin as [Hu Hin].
    simpl in Hu. by subst.
  - intros Hin. exists (s, v). split; [done|]. by apply list_elem_of_filter.
Qed.

(** The loop over [equal_range], given the specification of the calls it
    makes. *)
Lemma visit_spec fuel
    (IH : ∀ s tbl pending,
        (size (uniform_set tbl) < fuel)%nat →
        readers_known feeds tbl → closed_except pending feeds tbl →
        ∃ tbl', recursivelyMarkNonUniform fuel feeds s tbl = Ok tbl'
                ∧ marks feeds pending s tbl tbl') :
  ∀ (l : list SymPtr) tbl pending,
    (size (uniform_set tbl) < fuel)%nat →
    readers_known feeds tbl → closed_except pending feeds tbl →
    ∃ tbl', foldM (recursivelyMarkNonUniform fuel feeds) l tbl = Ok tbl'
            ∧ closed_except pending feeds tbl'
            ∧ table_grows tbl tbl'
            ∧ (∀ v, v ∈ l → tbl' !! v = Some false)
            ∧ (∀ x, tbl' !! x = Some false →
                    tbl !! x = Some false
                    ∨ ∃ v, v ∈ l ∧ rtc (feeds_to feeds) v x).
Proof.
  induction l as [|v l IHl]; intros tbl pending Hsize Hknown Hclosed.
  - exists tbl. split_and!; eauto using table_grows_refl.
    intros v Hv. by apply elem_of_nil in Hv.
  - destruct (IH v tbl pending Hsize Hknown Hclosed) as (tbl1 & Hrun1 & Hm1).
    destruct Hm1 as [Hself1 Hclosed1 Hgrows1 Hsound1].
    destruct (IHl tbl1 pending) as (tbl' & Hrun & Hclosed' & Hgrows' & Hall & Hsound');
      eauto using table_grows_readers_known.
    { pose proof (table_grows_uniform_set _ _ Hgrows1). lia. }
    exists tbl'. cbn. rewrite Hrun1. cbn. split_and!;
      eauto using table_grows_trans.
    + intros w Hw. apply elem_of_cons in Hw as [->|Hw]; [|by eauto].
      by eapply grows_false.
    + intros x Hx. destruct (Hsound' x Hx) as [Hx1|(w & Hw & Hreach)].
      * destruct (Hsound1 x Hx1) as [?|Hreach]; [by left|].
        right. exists v. split; [apply list_elem_of_here|done].
      * right. exists w. split; [by apply list_elem_of_further|done].
Qed.

(** [recursivelyMarkNonUniform] returns when the fuel exceeds the number
    of uniform symbols, and does what [marks] says. *)
Lemma mark_spec fuel :
  ∀ s tbl pending,
    (size (uniform_set tbl) < fuel)%nat →
    readers_known feeds tbl → closed_except pending feeds tbl →
    ∃ tbl', recursivelyMarkNonUniform fuel feeds s tbl = Ok tbl'
            ∧ marks feeds pending s tbl tbl'.
Proof.
  induction fuel as [|fuel IH]; intros s tbl pending Hsize Hknown Hclosed;
    [lia|].
  cbn [recursivelyMarkNonUniform]. unfold previously_was_uniform.
  destruct (tbl !! s) as [[|]|] eqn:Hs; cbn [default].
  - (* uniform so far: flipped, the symbols it feeds are visited *)
    assert (Hclosed1 : closed_except ({[s]} ∪ pending) feeds
                         (<[s := false]> tbl)).
    { intros u v Huv Hu Hnot. assert (u ≠ s) by set_solver.
      rewrite lookup_insert_ne in Hu by done.
      eapply grows_false; [apply table_grows_insert_false|].
      eapply Hclosed; eauto. set_solver. }
    assert (Hsize1 : (size (uniform_set (<[s := false]> tbl)) < fuel)%nat).
    { assert (uniform_set (<[s := false]> tbl) ⊂ uniform_set tbl) as Hsub.
      { split.
        - intros x. rewrite !elem_of_uniform_set.
          apply (grows_true _ _ (table_grows_insert_false tbl s)).
        - intros Hsub. specialize (Hsub s).
          rewrite !elem_of_uniform_set, lookup_insert_eq in Hsub.
          by specialize (Hsub Hs). }
      apply subset_size in Hsub. lia. }
    destruct (visit_spec fuel IH (equal_range feeds s) (<[s := false]> tbl)
                ({[s]} ∪ pending) Hsize1)
      as (tbl' & Hrun & Hclosed' & Hgrows' & Hall & Hsound');
      eauto using table_grows_readers_known, table_grows_insert_false.
    exists tbl'. split; [done|]. split.
    + eapply grows_false; [done|]. by rewrite lookup_insert_eq.
    + intros u v Huv Hu Hnot. destruct (decide (u = s)) as [->|Hne].
      * by apply Hall, elem_of_equal_range.
      * eapply Hclosed'; [done|done|].
        intros [?%elem_of_singleton|?]%elem_of_union; done.
    + eauto using table_grows_trans, table_grows_insert_false.
    + intros x Hx. destruct (Hsound' x Hx) as [Hx1|(w & Hw & Hreach)].
      * destruct (decide (s = x)) as [->|Hne]; [by right|].
        rewrite lookup_insert_ne in Hx1 by done. by left.
      * right. eapply rtc_l; [|done]. by apply elem_of_equal_range.
  - (* varying already *)
    exists (<[s := false]> tbl). split; [done|].
    rewrite insert_id by done. split; eauto using table_grows_refl.
  - (* no entry: created as varying; [s] reads nothing *)
    exists (<[s := false]> tbl). split; [done|]. split.
    + by rewrite lookup_insert_eq.
    + intros u v Huv Hu Hnot. destruct (decide (u = s)) as [->|Hne].
      * destruct (Hknown _ _ Huv) as [b Hb]. congruence.
      * rewrite lookup_insert_ne in Hu by done.
        eapply grows_false; [apply table_grows_insert_false|].
        eapply Hclosed; eauto.
    + apply table_grows_insert_false.
    + intros x Hx. destruct (decide (s = x)) as [->|Hne]; [by right|].
      rewrite lookup_insert_ne in Hx by done. by left.
Qed.

(** A call from the body of the function returns. *)
Lemma mark_total s tbl pending :
  readers_known feeds tbl → closed_except pending feeds tbl →
  ∃ tbl', markNonUniform feeds s tbl = Ok tbl'
          ∧ marks feeds pending s tbl tbl'.
Proof.
  intros. apply mark_spec; [|done..].
  pose proof (uniform_set_size tbl). lia.
Qed.
End mark.

(** ** Invariants of the walk *)

Tactic Notation "bind_ok" hyp(H) "as" simple_intropattern(a) ident(H1) :=
  apply bind_Ok in H as (a & H1 & H).

Lemma extends_refl st : extends st st.
Proof. by unfold extends. Qed.

Lemma extends_trans st1 st2 st3 :
  extends st1 st2 → extends st2 st3 → extends st1 st3.
Proof. unfold extends. set_solver. Qed.

Global Instance extends_preorder : PreOrder extends.
Proof. split; [exact extends_refl | exact extends_trans]. Qed.

Local Hint Resolve extends_refl : core.

(** A step that leaves the table, the feed-forward map and the condition
    stack alone and keeps the length of the masking vector. *)
Lemma walk_inv_frame inst st st' :
  is_uniform_by_symbol st' = is_uniform_by_symbol st →
  symbolFeedForwardMap st' = symbolFeedForwardMap st →
  symbolsCurrentBlockDependsOn st' = symbolsCurrentBlockDependsOn st →
  length (requires_masking_by_op_index st')
  = length (requires_masking_by_op_index st) →
  walk_inv inst st → walk_inv inst st' ∧ extends st st'.
Proof.
  intros Ht Hf Hc Hl [H1 H2 H3 H4]. split.
  - split; rewrite ?Ht, ?Hf, ?Hc, ?Hl; done.
  - unfold extends. by rewrite Ht.
Qed.

Lemma mark_deeper_usages_length blockDepth usages flags rem flags' rem' :
  mark_deeper_usages blockDepth usages flags rem = Ok (flags', rem') →
  length flags' = length flags.
Proof.
  revert flags rem. induction usages as [|u usages IH]; intros flags rem Hrun.
  - by injection Hrun as <- <-.
  - cbn [mark_deeper_usages] in Hrun. destruct (decide (u.1 > blockDepth)).
    + bind_ok Hrun as flags1 Hstore. unfold vec_store in Hstore.
      destruct (decide _) in Hstore; [|done]. injection Hstore as <-.
      apply IH in Hrun. by rewrite length_insert in Hrun.
    + eauto.
Qed.

Lemma ensure_inv inst symbolToCheck blockDepth maskId st st' :
  ensureWritesAtLowerDepthAreMasked symbolToCheck blockDepth maskId st
  = Ok st' →
  walk_inv inst st → walk_inv inst st' ∧ extends st st'.
Proof.
  unfold ensureWritesAtLowerDepthAreMasked. intros Hrun.
  destruct (usageInfoBySymbol st !! symbolToCheck) as [info|];
    [|by injection Hrun as <-].
  destruct (decide _) in Hrun; [|by injection Hrun as <-].
  bind_ok Hrun as [] Hassert. bind_ok Hrun as [flags remaining_ops] Hloop.
  injection Hrun as <-.
  apply walk_inv_frame; try done. cbn.
  eauto using mark_deeper_usages_length.
Qed.

Lemma feed_into_writes_inv inst from ws st :
  from ∈ dom (is_uniform_by_symbol st) →
  walk_inv inst st →
  walk_inv inst (feed_into_writes from ws st)
  ∧ is_uniform_by_symbol (feed_into_writes from ws st)
    = is_uniform_by_symbol st
  ∧ symbolsCurrentBlockDependsOn (feed_into_writes from ws st)
    = symbolsCurrentBlockDependsOn st.
Proof.
  unfold feed_into_writes. revert st.
  induction ws as [|w ws IH]; intros st Hfrom Hinv; [done|].
  cbn [fold_left]. destruct (decide (w ≠ from)); [|by apply IH].
  destruct (IH (add_feed from w st)) as (IH1 & IH2 & IH3); [done| |done].
  destruct Hinv as [H1 H2 H3 H4]. split; try done. cbn.
  intros u v Huv. apply elem_of_app in Huv as [Huv|Huv]; [by eauto|].
  apply list_elem_of_singleton in Huv as [= -> ->]. done.
Qed.

Lemma discover_args_inv inst l reads writes st reads' writes' st' :
  discover_args inst l reads writes st = Ok (reads', writes', st') →
  walk_inv inst st →
  (∀ x, x ∈ reads → x ∈ dom (is_uniform_by_symbol st)) →
  walk_inv inst st' ∧ extends st st'
  ∧ (∀ x, x ∈ reads' → x ∈ dom (is_uniform_by_symbol st'))
  ∧ symbolsCurrentBlockDependsOn st' = symbolsCurrentBlockDependsOn st.
Proof.
  revert reads writes st.
  induction l as [|a l IH]; intros reads writes st Hrun Hinv Hreads.
  - by injection Hrun as <- <- <-.
  - cbn [discover_args] in Hrun. bind_ok Hrun as aSymbol Harg.
    unfold opargsym in Harg.
    destruct (symbol inst (argsym a)) as [sym|] eqn:Hsym; [|done].
    injection Harg as <-.
    apply IH in Hrun as (IH1 & IH2 & IH3 & IH4).
    + split_and!; try done. etrans; [|exact IH2].
      unfold extends. cbn. apply dom_insert_subseteq.
    + destruct Hinv as [H1 H2 H3 H4]. split; cbn; try done.
      * intros x b Hx. destruct (decide (argsym a = x)) as [<-|Hne].
        -- rewrite lookup_insert_eq in Hx. injection Hx as <-.
           by rewrite Hsym.
        -- rewrite lookup_insert_ne in Hx by done. eauto.
      * intros u v Huv. rewrite dom_insert. set_solver.
      * intros c Hc. rewrite dom_insert. set_solver.
    + intros x Hx. cbn. rewrite dom_insert.
      destruct (argread a); [|set_solver].
      apply elem_of_app in Hx as [Hx|Hx]; [set_solver|].
      apply list_elem_of_singleton in Hx. set_solver.
Qed.

Lemma discover_reads_inv inst reads writes blockDepth maskId st st' :
  discover_reads reads writes blockDepth maskId st = Ok st' →
  walk_inv inst st →
  (∀ x, x ∈ reads → x ∈ dom (is_uniform_by_symbol st)) →
  walk_inv inst st' ∧ extends st st'
  ∧ symbolsCurrentBlockDependsOn st' = symbolsCurrentBlockDependsOn st.
Proof.
  revert st. induction reads as [|r reads IH]; intros st Hrun Hinv Hreads.
  - by injection Hrun as <-.
  - cbn [discover_reads] in Hrun. bind_ok Hrun as st1 Hens.
    destruct (feed_into_writes_inv inst r writes st) as (F1 & F2 & F3);
      [apply Hreads, list_elem_of_here|done|].
    assert (Hc : symbolsCurrentBlockDependsOn st1
                 = symbolsCurrentBlockDependsOn st).
    { rewrite <- F3. clear -Hens.
      unfold ensureWritesAtLowerDepthAreMasked in Hens.
      destruct (usageInfoBySymbol _ !! r); [|by injection Hens as <-].
      destruct (decide _) in Hens; [|by injection Hens as <-].
      bind_ok Hens as [] Hassert. bind_ok Hens as [flags remaining_ops] Hloop.
      by injection Hens as <-. }
    apply (ensure_inv inst) in Hens as [E1 E2]; [|done].
    assert (Hext : extends st st1).
    { unfold extends in *. by rewrite <- F2. }
    apply IH in Hrun as (IH1 & IH2 & IH3); [| done |].
    + split_and!; [done|by etrans|congruence].
    + intros x Hx. apply Hext, Hreads. by apply list_elem_of_further.
Qed.

Lemma discover_writes_inv inst ws writeBlockDepth writeMaskId opIndex st :
  walk_inv inst st →
  walk_inv inst (discover_writes ws writeBlockDepth writeMaskId opIndex st)
  ∧ extends st (discover_writes ws writeBlockDepth writeMaskId opIndex st)
  ∧ symbolsCurrentBlockDependsOn
      (discover_writes ws writeBlockDepth writeMaskId opIndex st)
    = symbolsCurrentBlockDependsOn st.
Proof.
  unfold discover_writes. revert st.
  induction ws as [|w ws IH]; intros st Hinv; [done|].
  cbn [fold_left].
  destruct (walk_inv_frame inst st
              (record_write writeBlockDepth writeMaskId opIndex st w))
    as [F1 F2]; try done.
  destruct (IH _ F1) as (IH1 & IH2 & IH3).
  split_and!; [done|by etrans|by rewrite IH3].
Qed.

Lemma discover_block_dependencies_inv inst ws st :
  walk_inv inst st →
  walk_inv inst (discover_block_dependencies ws st)
  ∧ extends st (discover_block_dependencies ws st)
  ∧ symbolsCurrentBlockDependsOn (discover_block_dependencies ws st)
    = symbolsCurrentBlockDependsOn st.
Proof.
  unfold discover_block_dependencies.
  assert (∀ conds st,
    walk_inv inst st →
    (∀ c, c ∈ conds → c ∈ dom (is_uniform_by_symbol st)) →
    let st' := fold_left (λ st c, feed_into_writes c ws st) conds st in
    walk_inv inst st' ∧ extends st st'
    ∧ symbolsCurrentBlockDependsOn st' = symbolsCurrentBlockDependsOn st)
    as Hgen.
  { induction conds as [|c conds IH]; intros st0 Hinv Hconds; [done|].
    cbn [fold_left].
    destruct (feed_into_writes_inv inst c ws st0) as (F1 & F2 & F3);
      [apply Hconds, list_elem_of_here|done|].
    destruct (IH (feed_into_writes c ws st0) F1) as (IH1 & IH2 & IH3).
    { intros c' Hc'. rewrite F2. by apply Hconds, list_elem_of_further. }
    split_and!; [done| |congruence].
    unfold extends in *. by rewrite <- F2. }
  intros Hinv. apply Hgen; [done|]. by destruct Hinv.
Qed.

Lemma discover_op_begin_inv inst opcode opIndex blockDepth writeBlockDepth
    maskId writeMaskId st reads writes st' :
  discover_op_begin inst opcode opIndex blockDepth writeBlockDepth maskId
    writeMaskId st = Ok (reads, writes, st') →
  walk_inv inst st →
  walk_inv inst st' ∧ extends st st'
  ∧ (∀ x, x ∈ reads → x ∈ dom (is_uniform_by_symbol st')).
Proof.
  unfold discover_op_begin. intros Hrun Hinv.
  bind_ok Hrun as [[reads0 writes0] st1] Hargs.
  bind_ok Hrun as st2 Hreads. injection Hrun as <- <- <-.
  apply discover_args_inv in Hargs as (A1 & A2 & A3 & _);
    [|done|by intros x ?%elem_of_nil].
  apply (discover_reads_inv inst) in Hreads as (R1 & R2 & _); [|done..].
  destruct (discover_writes_inv inst writes0 writeBlockDepth writeMaskId
              opIndex st2 R1) as (W1 & W2 & _).
  destruct (discover_block_dependencies_inv inst writes0 _ W1)
    as (B1 & B2 & _).
  split_and!; [done|by repeat (etrans; [eassumption|])|].
  intros x Hx. apply B2, W2, R2. eauto.
Qed.

Lemma single_read_elem reads c : single_read reads = Ok c → c ∈ reads.
Proof.
  destruct reads as [|c' [|]]; try done. intros [= ->].
  apply list_elem_of_here.
Qed.

Lemma push_conds_inv inst reads st st' :
  pushSymbolsCurentBlockDependsOn reads st = Ok st' →
  (∀ x, x ∈ reads → x ∈ dom (is_uniform_by_symbol st)) →
  walk_inv inst st → walk_inv inst st' ∧ extends st st'.
Proof.
  unfold pushSymbolsCurentBlockDependsOn. intros Hrun Hreads [H1 H2 H3 H4].
  bind_ok Hrun as c Hc. injection Hrun as <-.
  apply single_read_elem in Hc. split; [|by unfold extends].
  split; try done. cbn.
  intros c' [Hc'|Hc']%elem_of_app; [by eauto|].
  apply list_elem_of_singleton in Hc' as ->. eauto.
Qed.

Lemma elem_of_removelast (l : list SymPtr) x : x ∈ removelast l → x ∈ l.
Proof.
  induction l as [|y [|z l] IH]; [done|by intros ?%elem_of_nil|].
  change (removelast (y :: z :: l)) with (y :: removelast (z :: l)).
  intros [->|Hx]%elem_of_cons; [apply list_elem_of_here|].
  by apply list_elem_of_further, IH.
Qed.

Lemma pop_conds_inv inst reads st st' :
  popSymbolsCurentBlockDependsOn reads st = Ok st' →
  walk_inv inst st → walk_inv inst st' ∧ extends st st'.
Proof.
  unfold popSymbolsCurentBlockDependsOn. intros Hrun [H1 H2 H3 H4].
  bind_ok Hrun as c Hc.
  destruct (last (symbolsCurrentBlockDependsOn st)) as [top|]; [|done].
  bind_ok Hrun as [] Hassert. injection Hrun as <-.
  split; [|by unfold extends]. split; try done. cbn.
  intros c' Hc'. eauto using elem_of_removelast.
Qed.

Lemma push_loop_inv inst reads st st' :
  push_loop_control reads st = Ok st' →
  walk_inv inst st → walk_inv inst st' ∧ extends st st'.
Proof.
  unfold push_loop_control. intros Hrun Hinv.
  bind_ok Hrun as c Hc. injection Hrun as <-. by apply walk_inv_frame.
Qed.

Lemma pop_loop_inv inst reads st st' :
  pop_loop_control reads st = Ok st' →
  walk_inv inst st → walk_inv inst st' ∧ extends st st'.
Proof.
  unfold pop_loop_control. intros Hrun Hinv.
  destruct (last (loopControlFlowSymbolStack st)) as [top|]; [|done].
  destruct reads as [|c reads]; [done|].
  bind_ok Hrun as [] Hassert. injection Hrun as <-. by apply walk_inv_frame.
Qed.

Lemma fresh_mask_inv inst st :
  walk_inv inst st →
  walk_inv inst (fresh_mask st).2 ∧ extends st (fresh_mask st).2.
Proof. by apply walk_inv_frame. Qed.

Lemma after_first_elem x l inner c :
  after_first x l = Some inner → c ∈ inner → c ∈ l.
Proof.
  revert inner. induction l as [|y l IH]; intros inner; [done|].
  cbn [after_first]. destruct (decide (y = x)).
  - intros [= ->] Hc. by apply list_elem_of_further.
  - intros Hl Hc. apply list_elem_of_further. eauto.
Qed.

Lemma discover_break_inv inst writeBlockDepth writeMaskId opIndex st st' :
  discover_break writeBlockDepth writeMaskId opIndex st = Ok st' →
  walk_inv inst st → walk_inv inst st' ∧ extends st st'.
Proof.
  unfold discover_break. intros Hrun Hinv.
  destruct (last (loopControlFlowSymbolStack st)) as [loopCondition|];
    [|done].
  destruct (after_first loopCondition (symbolsCurrentBlockDependsOn st))
    as [inner|] eqn:Hinner; [|done].
  injection Hrun as <-.
  assert (∀ l st0,
    walk_inv inst st0 →
    (∀ c, c ∈ l → c ∈ dom (is_uniform_by_symbol st0)) →
    let st1 := fold_left (λ st c, add_feed c loopCondition st) l st0 in
    walk_inv inst st1
    ∧ is_uniform_by_symbol st1 = is_uniform_by_symbol st0
    ∧ symbolsCurrentBlockDependsOn st1 = symbolsCurrentBlockDependsOn st0)
    as Hgen.
  { induction l as [|c l IH]; intros st0 Hinv0 Hl; [done|].
    cbn [fold_left]. apply (IH (add_feed c loopCondition st0)).
    - destruct Hinv0 as [H1 H2 H3 H4]. split; try done. cbn.
      intros u v [Huv|Huv]%elem_of_app; [by eauto|].
      apply list_elem_of_singleton in Huv as [= -> ->].
      apply Hl, list_elem_of_here.
    - intros c' Hc'. by apply Hl, list_elem_of_further. }
  destruct (Hgen inner st Hinv) as (G1 & G2 & G3).
  { intros c Hc. destruct Hinv as [_ _ H3 _].
    eauto using after_first_elem. }
  match goal with |- walk_inv _ ?s ∧ _ =>
    destruct (walk_inv_frame inst
                (fold_left (λ st c, add_feed c loopCondition st) inner st) s)
      as [F1 F2]; try done
  end.
  split; [done|]. unfold extends in *. by rewrite <- G2.
Qed.

Lemma discover_op_end_inv inst opcode writes opIndex writeBlockDepth
    writeMaskId st st' :
  discover_op_end opcode writes opIndex writeBlockDepth writeMaskId st
  = Ok st' →
  walk_inv inst st → walk_inv inst st' ∧ extends st st'.
Proof.
  unfold discover_op_end. intros Hrun Hinv. bind_ok Hrun as st1 Hbreak.
  injection Hrun as <-.
  assert (walk_inv inst st1 ∧ extends st st1) as [B1 B2].
  { destruct (decide (opname opcode = op_break));
      [by eapply discover_break_inv|].
    injection Hbreak as <-. auto. }
  destruct (decide (opname opcode = op_getattribute)); [|auto].
  destruct (walk_inv_frame inst st1 (add_getattribute_writes writes st1))
    as [F1 F2]; [done..|].
  split; [done|by etrans].
Qed.

Lemma reached_step inst st0 st st' :
  reached inst st0 st →
  (walk_inv inst st → walk_inv inst st' ∧ extends st st') →
  reached inst st0 st'.
Proof.
  intros [Hinv Hext] Hstep. destruct (Hstep Hinv).
  split; [done|by etrans].
Qed.

Lemma reached_known inst st0 st (reads : list SymPtr) :
  reached inst st0 st →
  (∀ x, x ∈ reads → x ∈ dom (is_uniform_by_symbol st0)) →
  ∀ x, x ∈ reads → x ∈ dom (is_uniform_by_symbol st).
Proof. intros [_ Hext] Hreads x Hx. apply Hext. eauto. Qed.

(** [G] is [reached inst st0 st] for the state [st] that the hypothesis [H]
    starts from; it becomes [reached inst st0 st'] for the state [H] ends
    in. *)
Ltac advance G H lem :=
  eapply reached_step in G; [|intros ?; eapply lem; [exact H|..]; eauto].

Ltac advance_mask G :=
  lazymatch type of G with
  | reached ?inst _ ?st =>
      eapply reached_step in G; [|exact (fresh_mask_inv inst st)];
      cbn [fresh_mask fst snd] in G
  end.

Lemma discoverSymbolsBetween_inv inst fuel :
  ∀ beginop endop blockDepth writeBlockDepth maskId writeMaskId st st',
    discoverSymbolsBetween fuel inst beginop endop blockDepth
      writeBlockDepth maskId writeMaskId st = Ok st' →
    walk_inv inst st → walk_inv inst st' ∧ extends st st'.
Proof.
  induction fuel as [|fuel IH];
    intros beginop endop blockDepth writeBlockDepth maskId writeMaskId
           st st' Hrun Hinv; [done|].
  cbn [discoverSymbolsBetween] in Hrun.
  destruct (decide (beginop < endop)); [|injection Hrun as <-; auto].
  bind_ok Hrun as opcode Hop.
  bind_ok Hrun as [[reads writes] st1] Hbegin.
  bind_ok Hrun as st2 Hjumps.
  bind_ok Hrun as st3 Hend.
  apply discover_op_begin_inv in Hbegin as (B1 & B2 & Hreads); [|done].
  assert (G : reached inst st1 st1) by (split; auto).
  assert (G2 : reached inst st1 st2).
  { destruct (decide (jump opcode 0 >= 0));
      [|injection Hjumps as <-; exact G].
    destruct (decide (opname opcode = op_if)).
    { bind_ok Hjumps as s1 Hpush.
      cbn [fresh_mask] in Hjumps.
      bind_ok Hjumps as s2 Hthen. bind_ok Hjumps as s3 Helse.
      advance G Hpush push_conds_inv.
      advance_mask G. advance G Hthen IH.
      advance_mask G. advance G Helse IH.
      advance G Hjumps pop_conds_inv. exact G. }
    destruct (decide (is_loop_op opcode)).
    { bind_ok Hjumps as s1 Hinit.
      cbn [fresh_mask] in Hjumps.
      bind_ok Hjumps as s2 Hpush. bind_ok Hjumps as s3 Hpushl.
      bind_ok Hjumps as s4 Hbody. bind_ok Hjumps as s5 Hstep.
      bind_ok Hjumps as s6 Hcond. bind_ok Hjumps as condition Harg.
      bind_ok Hjumps as s7 Hens. bind_ok Hjumps as s8 Hpop.
      advance G Hinit IH. advance_mask G.
      pose proof (reached_known _ _ _ _ G Hreads) as Hknown.
      advance G Hpush push_conds_inv.
      advance G Hpushl push_loop_inv.
      advance G Hbody IH. advance G Hstep IH. advance G Hcond IH.
      advance G Hens ensure_inv. advance G Hpop pop_conds_inv.
      advance G Hjumps pop_loop_inv. exact G. }
    destruct (decide (opname opcode = op_functioncall)); [|done].
    advance G Hjumps IH. exact G. }
  advance G2 Hend discover_op_end_inv.
  advance G2 Hrun IH.
  destruct G2 as [R1 R2]. split; [done|by etrans].
Qed.

(** ** The walk of a layer from a fresh table *)

Lemma foldM_inv {A S} (P : S → Prop) (f : A → S → result S) l s s' :
  (∀ a s s', a ∈ l → f a s = Ok s' → P s → P s') →
  foldM f l s = Ok s' → P s → P s'.
Proof.
  revert s. induction l as [|a l IH]; intros s Hf Hrun Hs.
  - by injection Hrun as <-.
  - cbn [foldM] in Hrun. bind_ok Hrun as s1 Ha.
    apply (IH s1); [|done|].
    + intros a' t t' Ha'. apply Hf. by apply list_elem_of_further.
    + eapply Hf; [apply list_elem_of_here|done..].
Qed.

Lemma walk_inv_initial inst flags :
  walk_inv inst
    (initial_walk_state ∅ (resize (length (ops inst)) false flags)).
Proof.
  split; cbn.
  - intros x b Hx. by rewrite lookup_empty in Hx.
  - intros u v Huv. by apply elem_of_nil in Huv.
  - intros c Hc. by apply elem_of_nil in Hc.
  - apply length_resize.
Qed.

Lemma walk_inv_of_walk fuel inst layer b st :
  m_is_uniform_by_symbol b = ∅ →
  discoverVaryingAndMaskingOfLayer_walk fuel inst layer b = Ok st →
  walk_inv inst st.
Proof.
  unfold discoverVaryingAndMaskingOfLayer_walk. intros Hfresh Hrun.
  bind_ok Hrun as [] Hlen. bind_ok Hrun as flags Hflags.
  bind_ok Hrun as [] Hempty. cbn [fresh_mask] in Hrun.
  bind_ok Hrun as st1 Hsyms. bind_ok Hrun as st2 Hparams.
  bind_ok Hrun as st3 Hmain.
  rewrite Hfresh in Hsyms.
  pose proof (proj1 (fresh_mask_inv inst _ (walk_inv_initial inst flags)))
    as Hinv.
  eapply (foldM_inv (walk_inv inst)) in Hsyms;
    [|intros s t t' _ Hs Ht|exact Hinv].
  2: { destruct (walks_symbol_init inst s); [|by injection Hs as <-].
       by eapply discoverSymbolsBetween_inv. }
  eapply (foldM_inv (walk_inv inst)) in Hparams; [|intros s t t' _ Hs Ht|done].
  2: { destruct (walks_param_init inst s.2); [|by injection Hs as <-].
       by eapply discoverSymbolsBetween_inv. }
  eapply discoverSymbolsBetween_inv in Hmain as [Hmain _]; [|done].
  eapply (foldM_inv (walk_inv inst)) in Hrun; [done| |done].
  intros s t t' _ Hs Ht.
  destruct (checks_output_param s.2); [|by injection Hs as <-].
  by eapply ensure_inv.
Qed.

Lemma walk_inv_readers_known inst st :
  walk_inv inst st →
  readers_known (symbolFeedForwardMap st) (is_uniform_by_symbol st).
Proof. intros [_ H2 _ _] u v Huv. by eapply elem_of_dom, H2. Qed.

Lemma params_symbol inst p sym :
  (p, sym) ∈ params inst → symbol inst p = Some sym.
Proof.
  unfold params, symbol. intros [_ Hin]%list_elem_of_filter.
  apply list_elem_of_lookup in Hin as [i Hi].
  rewrite list_lookup_imap in Hi.
  destruct (symbols inst !! i) as [s|] eqn:Hs; [|done].
  by injection Hi as <- <-.
Qed.

(** ** The propagation as a whole *)

Section propagate.
Variable feeds : list (SymPtr * SymPtr).
Variable seeds : SymPtr → Prop.
Variable tbl0 : gmap SymPtr bool.
Hypothesis Hknown : readers_known feeds tbl0.

Lemma propagated_start :
  (∀ x b, tbl0 !! x = Some b → b = true) →
  propagated feeds seeds tbl0 tbl0.
Proof.
  intros Htrue. split.
  - intros u v _ Hu. by apply Htrue in Hu.
  - apply table_grows_refl.
  - intros x Hx. by apply Htrue in Hx.
Qed.

Lemma propagated_mark s tbl :
  propagated feeds seeds tbl0 tbl → seeds s →
  ∃ tbl', markNonUniform feeds s tbl = Ok tbl'
          ∧ propagated feeds seeds tbl0 tbl'
          ∧ table_grows tbl tbl'
          ∧ tbl' !! s = Some false.
Proof.
  intros [Hclosed Hgrows Hsound] Hs.
  destruct (mark_total feeds s tbl ∅) as (tbl' & Hrun & [M1 M2 M3 M4]);
    eauto using table_grows_readers_known.
  exists tbl'. split_and!; try done. split;
    eauto using table_grows_trans.
  intros x Hx. destruct (M4 x Hx) as [Hold|Hreach]; eauto.
Qed.

(** A loop of the function that calls [recursivelyMarkNonUniform] on
    some of the elements of a list, all of them seeds. *)
Lemma propagated_loop {A} (f : A → gmap SymPtr bool → result (gmap SymPtr bool))
    (target : A → option SymPtr) (l : list A) :
  (∀ a tbl, a ∈ l →
     f a tbl = match target a with
               | Some s => markNonUniform feeds s tbl
               | None => Ok tbl
               end) →
  (∀ a s, a ∈ l → target a = Some s → seeds s) →
  ∀ tbl, propagated feeds seeds tbl0 tbl →
    ∃ tbl', foldM f l tbl = Ok tbl'
            ∧ propagated feeds seeds tbl0 tbl'
            ∧ table_grows tbl tbl'
            ∧ (∀ a s, a ∈ l → target a = Some s → tbl' !! s = Some false).
Proof.
  induction l as [|a l IH]; intros Hf Hseeds tbl Hprop.
  - exists tbl. split_and!; eauto using table_grows_refl.
    intros a s Ha. by apply elem_of_nil in Ha.
  - assert (∃ tbl1, f a tbl = Ok tbl1 ∧ propagated feeds seeds tbl0 tbl1
                    ∧ table_grows tbl tbl1
                    ∧ ∀ s, target a = Some s → tbl1 !! s = Some false)
      as (tbl1 & Hrun1 & Hprop1 & Hgrows1 & Hself).
    { rewrite Hf by apply list_elem_of_here.
      destruct (target a) as [s|] eqn:Ht.
      - destruct (propagated_mark s tbl) as (tbl1 & ? & ? & ? & ?);
          [done|by eapply Hseeds; [apply list_elem_of_here|]|].
        exists tbl1. split_and!; try done. by intros ? [= <-].
      - exists tbl. split_and!; eauto using table_grows_refl. done. }
    destruct (IH) with (tbl := tbl1) as (tbl' & Hrun & Hprop' & Hgrows' & Hall);
      [intros; apply Hf; by apply list_elem_of_further
      |intros ???; apply Hseeds; by apply list_elem_of_further
      |done|].
    exists tbl'. cbn [foldM]. rewrite Hrun1. cbn.
    split_and!; eauto using table_grows_trans.
    intros a' s [->|Ha']%elem_of_cons Ht; [|by eauto].
    eapply grows_false; eauto.
Qed.
End propagate.

Section seed_loop.
Variable inst : ShaderInstance.
Variable feeds : list (SymPtr * SymPtr).
Variable seeds : SymPtr → Prop.
Variable tbl0 : gmap SymPtr bool.
Hypothesis Hknown : readers_known feeds tbl0.
Hypothesis Hvalid : ∀ u v, (u, v) ∈ feeds → is_Some (symbol inst u).
Hypothesis Hseeds : ∀ k sym,
  k ∈ feeds.*1 → symbol inst k = Some sym →
  seed_is_uniform sym = false → seeds k.

(** The loop over the feed-forward map marks every reader whose seed
    decision is "not uniform", whatever entries with the key handled
    last it steps over. *)
Lemma seed_from_feeds_spec :
  ∀ iter prev tbl,
    (∀ e, e ∈ iter → e ∈ feeds) →
    propagated feeds seeds tbl0 tbl →
    (∀ k sym, prev = Some k → symbol inst k = Some sym →
              seed_is_uniform sym = false → tbl !! k = Some false) →
    ∃ tbl', seed_from_feeds inst feeds prev iter tbl = Ok tbl'
            ∧ propagated feeds seeds tbl0 tbl'
            ∧ table_grows tbl tbl'
            ∧ (∀ k sym, k ∈ iter.*1 → symbol inst k = Some sym →
                        seed_is_uniform sym = false →
                        tbl' !! k = Some false).
Proof.
  induction iter as [|[k0 w0] iter IH]; intros prev tbl Hsub Hprop Hprev.
  - exists tbl. split_and!; eauto using table_grows_refl.
    intros k sym Hk. by apply elem_of_nil in Hk.
  - assert (Hsub' : ∀ e, e ∈ iter → e ∈ feeds).
    { intros e He. by apply Hsub, list_elem_of_further. }
    assert (Hin0 : (k0, w0) ∈ feeds) by apply Hsub, list_elem_of_here.
    cbn [seed_from_feeds fst]. destruct (decide (prev = Some k0)) as [->|Hne].
    + destruct (IH (Some k0) tbl Hsub' Hprop Hprev)
        as (tbl' & Hrun & Hprop' & Hgrows & Hall).
      exists tbl'. split_and!; try done.
      intros k sym [->|Hk]%elem_of_cons Hsym Hu; [|by eauto].
      eapply grows_false; eauto.
    + destruct (Hvalid _ _ Hin0) as [sym0 Hsym0]. rewrite Hsym0.
      assert (∃ tbl1,
        (if seed_is_uniform sym0 then Ok tbl
         else markNonUniform feeds k0 tbl) = Ok tbl1
        ∧ propagated feeds seeds tbl0 tbl1 ∧ table_grows tbl tbl1
        ∧ (seed_is_uniform sym0 = false → tbl1 !! k0 = Some false))
        as (tbl1 & Hrun1 & Hprop1 & Hgrows1 & Hself).
      { destruct (seed_is_uniform sym0) eqn:Hu0.
        - exists tbl. split_and!; eauto using table_grows_refl. done.
        - destruct (propagated_mark feeds seeds tbl0 Hknown k0 tbl)
            as (tbl1 & ? & ? & ? & ?); [done| |by exists tbl1].
          eapply Hseeds; [|done..].
          apply list_elem_of_fmap. by exists (k0, w0). }
      destruct (IH (Some k0) tbl1 Hsub' Hprop1)
        as (tbl' & Hrun & Hprop' & Hgrows & Hall).
      { intros k sym [= <-] Hsym Hu. apply Hself. congruence. }
      exists tbl'. rewrite Hrun1. cbn. split_and!;
        eauto using table_grows_trans.
      intros k sym [->|Hk]%elem_of_cons Hsym Hu; [|by eauto].
      eapply grows_false; [done|]. apply Hself. congruence.
Qed.
End seed_loop.

Lemma closed_reach feeds tbl r x :
  closed_except ∅ feeds tbl →
  rtc (feeds_to feeds) r x → tbl !! r = Some false → tbl !! x = Some false.
Proof.
  intros Hclosed. induction 1 as [|u v w Huv _ IH]; [done|].
  intros Hu. apply IH. eapply Hclosed; eauto. set_solver.
Qed.

Lemma iterates_keys order feeds k :
  iterates order → k ∈ (order feeds).*1 ↔ k ∈ feeds.*1.
Proof.
  intros Horder. rewrite !list_elem_of_fmap.
  split; intros (e & -> & He); exists e; (split; [done|]).
  - exact (proj1 (Horder _ _) He).
  - exact (proj2 (Horder _ _) He).
Qed.

Lemma iterates_reach order feeds r x :
  iterates order →
  rtc (feeds_to (order feeds)) r x ↔ rtc (feeds_to feeds) r x.
Proof.
  intros Horder. split; apply rtc_subrel; intros u v Huv.
  - exact (proj1 (Horder _ _) Huv).
  - exact (proj2 (Horder _ _) Huv).
Qed.

(** The propagation returns, and its table is the table of the walk with
    the symbols fed by a seed set to varying, in whatever order the
    feed-forward map is iterated. *)
Lemma propagate_spec order inst st :
  iterates order → walk_inv inst st →
  ∃ tbl',
    discoverVaryingAndMaskingOfLayer_propagate order inst st = Ok tbl'
    ∧ (∀ x, tbl' !! x = Some false ↔ fed_by_seed inst st x)
    ∧ (∀ x, ¬ fed_by_seed inst st x →
            tbl' !! x = is_uniform_by_symbol st !! x).
Proof.
  intros Horder Hinv. unfold discoverVaryingAndMaskingOfLayer_propagate.
  set (feeds := order (symbolFeedForwardMap st)).
  set (tbl0 := is_uniform_by_symbol st).
  assert (Hknown : readers_known feeds tbl0).
  { intros u v Huv. apply (proj1 (Horder _ _)) in Huv.
    exact (walk_inv_readers_known _ _ Hinv u v Huv). }
  assert (Htrue : ∀ x b, tbl0 !! x = Some b → b = true).
  { intros x b Hx. by apply (inv_table _ _ Hinv) in Hx as [? _]. }
  destruct (seed_from_feeds_spec inst feeds (varying_seed inst st) tbl0 Hknown)
    with (iter := feeds) (prev := @None SymPtr) (tbl := tbl0)
    as (tbl1 & Hrun1 & Hprop1 & Hgrows1 & Hkeys).
  { intros u v Huv. destruct (Hknown u v Huv) as [b Hb].
    by apply (inv_table _ _ Hinv) in Hb as [_ ?]. }
  { intros k sym Hk Hsym Hu.
    apply (proj1 (iterates_keys order _ _ Horder)) in Hk. left. eauto. }
  { done. }
  { by apply propagated_start. }
  { done. }
  destruct (propagated_loop feeds (varying_seed inst st) tbl0 Hknown
              (λ ps tbl, if decide (symtype ps.2 = SymTypeOutputParam)
                         then markNonUniform feeds ps.1 tbl else Ok tbl)
              (λ ps, if decide (symtype ps.2 = SymTypeOutputParam)
                     then Some ps.1 else None)
              (params inst))
    with (tbl := tbl1) as (tbl2 & Hrun2 & Hprop2 & Hgrows2 & Houts).
  { intros ps tbl _. by destruct (decide _). }
  { intros [p sym] s Hin Ht. destruct (decide _) in Ht; [|done].
    injection Ht as <-. right. left. eauto. }
  { done. }
  destruct (propagated_loop feeds (varying_seed inst st) tbl0 Hknown
              (markNonUniform feeds) Some
              (symbolsWrittenToByGetAttribute st))
    with (tbl := tbl2) as (tbl3 & Hrun3 & Hprop3 & Hgrows3 & Hattrs).
  { done. }
  { intros a s Hin [= <-]. right. by right. }
  { done. }
  exists tbl3. unfold mark_output_params.
  rewrite Hrun1. cbn [mbind result_bind].
  rewrite Hrun2. cbn [mbind result_bind]. split; [exact Hrun3|].
  assert (Hfalse : ∀ x, tbl3 !! x = Some false ↔ fed_by_seed inst st x).
  { intros x. split.
    { intros (r & Hr & Hreach)%(prop_sound _ _ _ _ Hprop3).
      exists r. split; [done|].
      exact (proj1 (iterates_reach order _ _ _ Horder) Hreach). }
    intros (r & Hr & Hreach).
    apply (proj2 (iterates_reach order _ _ _ Horder)) in Hreach.
    eapply closed_reach; [apply (prop_closed _ _ _ _ Hprop3)|done|].
    destruct Hr as [[Hk (sym & Hsym & Hu)]|[(sym & Hin & Hout)|Hattr]].
    - eapply grows_false; [exact Hgrows3|].
      eapply grows_false; [exact Hgrows2|].
      eapply Hkeys; [|done..].
      exact (proj2 (iterates_keys order _ _ Horder) Hk).
    - eapply grows_false; [exact Hgrows3|].
      eapply (Houts (r, sym)); [done|]. cbn. by rewrite decide_True.
    - by eapply Hattrs. }
  split; [done|]. intros x Hx.
  destruct (tbl3 !! x) as [[|]|] eqn:H3.
  - symmetry. by apply (grows_true _ _ (prop_grows _ _ _ _ Hprop3)).
  - by apply Hfalse in H3.
  - destruct (tbl0 !! x) as [b|] eqn:H0; [|done].
    destruct (grows_dom _ _ (prop_grows _ _ _ _ Hprop3) x) as [b' Hb'];
      [by eauto|congruence].
Qed.

(** ** The analysis of a layer from a fresh table *)

(** Once the walk has returned, the function returns: the masking vector
    of the layer is the one of the walk, and the table is the table of the
    walk with the symbols fed by a seed set to varying. *)
Lemma analysis_spec order fuel inst layer b st :
  iterates order →
  m_is_uniform_by_symbol b = ∅ →
  discoverVaryingAndMaskingOfLayer_walk fuel inst layer b = Ok st →
  ∃ b',
    discoverVaryingAndMaskingOfLayer order fuel inst layer b = Ok b'
    ∧ m_requires_masking_by_layer_and_op_index b'
      = <[layer := requires_masking_by_op_index st]>
          (m_requires_masking_by_layer_and_op_index b)
    ∧ (∀ x, m_is_uniform_by_symbol b' !! x = Some false
            ↔ fed_by_seed inst st x)
    ∧ (∀ x, ¬ fed_by_seed inst st x →
            m_is_uniform_by_symbol b' !! x = is_uniform_by_symbol st !! x).
Proof.
  intros Horder Hfresh Hwalk.
  pose proof (walk_inv_of_walk _ _ _ _ _ Hfresh Hwalk) as Hinv.
  destruct (propagate_spec order inst st Horder Hinv)
    as (tbl' & Hrun & Hfalse & Hrest).
  eexists. unfold discoverVaryingAndMaskingOfLayer.
  rewrite Hwalk. cbn [mbind result_bind].
  rewrite Hrun. cbn [mbind result_bind]. split; [reflexivity|].
  cbn. done.
Qed.


Lemma iterates_id : iterates id.
Proof. by intros feeds e. Qed.

Lemma iterates_reversed : iterates reversed.
Proof. intros feeds e. unfold reversed. apply elem_of_reverse. Qed.




(** ** Shader globals *)


(** ** A layer without ops *)

Lemma discoverSymbolsBetween_empty_range fuel inst beginop endop blockDepth
    writeBlockDepth maskId writeMaskId st :
  fuel ≠ 0%nat → endop ≤ beginop →
  discoverSymbolsBetween fuel inst beginop endop blockDepth writeBlockDepth
    maskId writeMaskId st = Ok st.
Proof.
  intros Hfuel Hrange. destruct fuel as [|fuel]; [done|].
  cbn [discoverSymbolsBetween]. by rewrite decide_False by lia.
Qed.

Lemma foldM_skip {A S} (f : A → S → result S) l s :
  (∀ a, a ∈ l → f a s = Ok s) → foldM f l s = Ok s.
Proof.
  induction l as [|a l IH]; intros Hf; [done|].
  cbn [foldM]. rewrite Hf by apply list_elem_of_here. cbn.
  apply IH. intros a' Ha'. by apply Hf, list_elem_of_further.
Qed.

Lemma params_elem inst p sym : (p, sym) ∈ params inst → sym ∈ symbols inst.
Proof.
  intros Hin%params_symbol. unfold symbol in Hin.
  by eapply list_elem_of_lookup_2.
Qed.

(** The walk of a layer without ops ends in the state it starts from. *)
Lemma walk_no_ops fuel inst layer b :
  ops inst = [] → fuel ≠ 0%nat →
  m_requires_masking_by_layer_and_op_index b !! layer = Some [] →
  (∀ s, s ∈ symbols inst → initend s ≤ initbegin s) →
  maincodeend inst ≤ maincodebegin inst →
  discoverVaryingAndMaskingOfLayer_walk fuel inst layer b
  = Ok (fresh_mask (initial_walk_state (m_is_uniform_by_symbol b) [])).2.
Proof.
  intros Hops Hfuel Hlayer Hinit Hmain.
  unfold discoverVaryingAndMaskingOfLayer_walk.
  rewrite bool_decide_eq_true_2 by (by eapply lookup_lt_Some).
  rewrite Hlayer, Hops. cbn [mbind result_bind ASSERT length resize].
  rewrite bool_decide_eq_true_2 by done.
  cbn [mbind result_bind ASSERT fresh_mask snd].
  rewrite foldM_skip.
  2: { intros s Hs. destruct (walks_symbol_init inst s); [|done].
       apply discoverSymbolsBetween_empty_range; auto. }
  cbn [mbind result_bind]. rewrite foldM_skip.
  2: { intros [p s] Hs. cbn [snd].
       destruct (walks_param_init inst s); [|done].
       apply discoverSymbolsBetween_empty_range; [done|].
       eauto using params_elem. }
  cbn [mbind result_bind].
  rewrite discoverSymbolsBetween_empty_range by done.
  cbn [mbind result_bind]. apply foldM_skip.
  intros [p s] Hs. cbn [snd]. by destruct (checks_output_param s).
Qed.

(** C9, as the code has it.  For a layer with zero ops (every code range
    empty), analysed from an empty table, the masking vector of the layer
    stays empty and the table holds exactly the output parameters of the
    layer, each as varying; it is empty only when the layer declares no
    output parameter. *)
Theorem no_ops_marks_output_params order fuel inst layer b :
  iterates order →
  ops inst = [] → fuel ≠ 0%nat →
  m_is_uniform_by_symbol b = ∅ →
  m_requires_masking_by_layer_and_op_index b !! layer = Some [] →
  (∀ s, s ∈ symbols inst → initend s ≤ initbegin s) →
  maincodeend inst ≤ maincodebegin inst →
  ∃ b',
    discoverVaryingAndMaskingOfLayer order fuel inst layer b = Ok b'
    ∧ m_requires_masking_by_layer_and_op_index b' !! layer = Some []
    ∧ (∀ p, m_is_uniform_by_symbol b' !! p = Some false
            ↔ ∃ sym, (p, sym) ∈ params inst
                     ∧ symtype sym = SymTypeOutputParam)
    ∧ (∀ p, m_is_uniform_by_symbol b' !! p ≠ Some true)
    ∧ (m_is_uniform_by_symbol b' = ∅
       ↔ ∀ p sym, (p, sym) ∈ params inst →
                  symtype sym ≠ SymTypeOutputParam).
Proof.
  intros Horder Hops Hfuel Hfresh Hlayer Hinit Hmain.
  pose proof (walk_no_ops fuel inst layer b Hops Hfuel Hlayer Hinit Hmain)
    as Hwalk.
  destruct (analysis_spec order fuel inst layer b _ Horder Hfresh Hwalk)
    as (b' & Hrun & Hflags & Hfalse & Hrest).
  cbn [fresh_mask snd initial_walk_state] in Hfalse, Hrest.
  assert (Hfed : ∀ p,
    fed_by_seed inst
      (fresh_mask (initial_walk_state (m_is_uniform_by_symbol b) [])).2 p
    ↔ ∃ sym, (p, sym) ∈ params inst ∧ symtype sym = SymTypeOutputParam).
  { intros p. unfold fed_by_seed, varying_seed. cbn. split.
    - intros (seed & Hseed & Hreach).
      apply rtc_inv in Hreach as [->|(y & Hedge & _)];
        [|by apply elem_of_nil in Hedge].
      destruct Hseed as [[Hk _]|[Hout|Hattr]];
        [by apply elem_of_nil in Hk|done|by apply elem_of_nil in Hattr].
    - intros Hout. exists p. split; [|done]. right. by left. }
  assert (Hnone : ∀ p, m_is_uniform_by_symbol b' !! p ≠ Some true).
  { intros p Hp.
    assert (¬ fed_by_seed inst
      (fresh_mask (initial_walk_state (m_is_uniform_by_symbol b) [])).2 p)
      as Hnot.
    { intros Hp'%Hfalse. congruence. }
    apply Hrest in Hnot. cbn in Hnot.
    rewrite Hfresh, lookup_empty in Hnot. congruence. }
  exists b'. split_and!; try done.
  - rewrite Hflags. cbn. apply list_lookup_insert_eq.
    by eapply lookup_lt_Some.
  - intros p. by rewrite Hfalse, Hfed.
  - split.
    + intros Hempty p sym Hin Hout.
      assert (m_is_uniform_by_symbol b' !! p = Some false) as Hp.
      { apply Hfalse, Hfed. eauto. }
      by rewrite Hempty, lookup_empty in Hp.
    + intros Hno. apply map_eq. intros p. rewrite lookup_empty.
      destruct (m_is_uniform_by_symbol b' !! p) as [[|]|] eqn:Hp; [| |done].
      * by apply Hnone in Hp.
      * apply Hfalse, Hfed in Hp as (sym & Hin & Hout).
        by apply Hno in Hin.
Qed.

Lemma no_ops_marks_output_params_witness :
  ∃ b',
    discoverVaryingAndMaskingOfLayer id 1 layer_no_ops 0 (fresh_backend 1)
    = Ok b'
    ∧ m_requires_masking_by_layer_and_op_index b' !! 0%nat = Some []
    ∧ m_is_uniform_by_symbol b' !! 0%nat = Some false.
Proof.
  destruct (no_ops_marks_output_params id 1 layer_no_ops 0 (fresh_backend 1))
    as (b' & Hrun & Hflags & Houts & _).
  - exact iterates_id.
  - reflexivity.
  - discriminate.
  - reflexivity.
  - reflexivity.
  - intros s Hs%list_elem_of_singleton. subst s. simpl. lia.
  - simpl. lia.
  - exists b'. split_and!; [exact Hrun|exact Hflags|].
    apply Houts. exists (mk_symbol "Cout" SymTypeOutputParam false).
    split; [|reflexivity]. vm_compute. apply list_elem_of_here.
Defined.

(** C9 as claimed fails: a layer with no op and one output parameter has
    that parameter in the table. *)
Lemma no_ops_empty_tables_counterexample :
  ¬ (∀ inst b',
       ops inst = [] →
       discoverVaryingAndMaskingOfLayer id 1 inst 0 (fresh_backend 1)
       = Ok b' →
       m_is_uniform_by_symbol b' = ∅
       ∧ m_requires_masking_by_layer_and_op_index b' !! 0%nat = Some []).
Proof.
  intros Hclaim.
  destruct (Hclaim layer_no_ops
              (analysed (discoverVaryingAndMaskingOfLayer id 1 layer_no_ops
                           0 (fresh_backend 1)))
              eq_refl ltac:(vm_compute; reflexivity)) as [Hempty _].
  apply (f_equal (λ m : gmap SymPtr bool, m !! 0%nat)) in Hempty.
  vm_compute in Hempty. discriminate Hempty.
Qed.

(** ** Running the analysis again *)

Lemma walk_Ok_flags fuel inst layer b st :
  discoverVaryingAndMaskingOfLayer_walk fuel inst layer b = Ok st →
  (layer < length (m_requires_masking_by_layer_and_op_index b))%nat.
Proof.
  unfold discoverVaryingAndMaskingOfLayer_walk. intros Hrun.
  bind_ok Hrun as [] Hlen. apply ASSERT_Ok in Hlen.
  by apply bool_decide_eq_true in Hlen.
Qed.

(** On the backend that a run on a layer with ops left, a second run for
    the same layer stops at [ASSERT(...[layer()].empty())]. *)
Lemma walk_again_fails fuel inst layer b (flags : list bool) :
  m_requires_masking_by_layer_and_op_index b !! layer = Some flags →
  flags ≠ [] →
  discoverVaryingAndMaskingOfLayer_walk fuel inst layer b
  = Err AssertionFailed.
Proof.
  intros Hlayer Hflags. unfold discoverVaryingAndMaskingOfLayer_walk.
  rewrite bool_decide_eq_true_2 by (by eapply lookup_lt_Some).
  rewrite Hlayer. cbn [mbind result_bind ASSERT].
  by rewrite bool_decide_eq_false_2.
Qed.

(** C5, as the code has it.  From the same empty table the analysis of a
    layer gives the same two tables whatever the order in which the
    feed-forward multimap is iterated, by the loop over the whole map and
    by the loops over [equal_range] alike.  It cannot be repeated in
    place:
    on the backend that the first run left, a second run for the same
    layer, when the layer has at least one op, stops at the assertion
    that the masking vector of the layer is empty. *)
Theorem analysis_deterministic_and_once order1 order2 fuel inst layer b b1 :
  iterates order1 → iterates order2 →
  m_is_uniform_by_symbol b = ∅ →
  discoverVaryingAndMaskingOfLayer order1 fuel inst layer b = Ok b1 →
  discoverVaryingAndMaskingOfLayer order2 fuel inst layer b = Ok b1
  ∧ (ops inst ≠ [] →
     ∀ order fuel',
       discoverVaryingAndMaskingOfLayer order fuel' inst layer b1
       = Err AssertionFailed).
Proof.
  intros Horder1 Horder2 Hfresh Hrun1.
  pose proof Hrun1 as Hrun. unfold discoverVaryingAndMaskingOfLayer in Hrun.
  bind_ok Hrun as st Hwalk. clear Hrun.
  destruct (analysis_spec order1 fuel inst layer b st)
    as (b1' & Hrun1' & Hflags1 & Hfalse1 & Hrest1); [done..|].
  assert (b1' = b1) as -> by congruence.
  destruct (analysis_spec order2 fuel inst layer b st)
    as (b2 & Hrun2 & Hflags2 & Hfalse2 & Hrest2); [done..|].
  assert (b2 = b1) as ->.
  { destruct b1 as [tbl1 req1], b2 as [tbl2 req2]. cbn in *. f_equal.
    - apply map_eq. intros x.
      destruct (tbl1 !! x) as [[|]|] eqn:H1.
      + rewrite <- H1, Hrest1, Hrest2; [done|intros Hf..];
          apply Hfalse1 in Hf; congruence.
      + by apply Hfalse2, Hfalse1.
      + rewrite <- H1, Hrest1, Hrest2; [done|intros Hf..];
          apply Hfalse1 in Hf; congruence.
    - congruence. }
  split; [done|]. intros Hops order fuel'.
  unfold discoverVaryingAndMaskingOfLayer.
  rewrite (walk_again_fails fuel' inst layer b1
             (requires_masking_by_op_index st)); [done| |].
  - rewrite Hflags1. apply list_lookup_insert_eq.
    by eapply walk_Ok_flags.
  - pose proof (walk_inv_of_walk _ _ _ _ _ Hfresh Hwalk) as Hinv.
    apply inv_flags in Hinv. intros Hnil. rewrite Hnil in Hinv.
    destruct (ops inst); [done|discriminate Hinv].
Qed.

Lemma analysis_deterministic_and_once_witness :
  discoverVaryingAndMaskingOfLayer reversed 10 layer_if_varying 0
    (fresh_backend 1)
  = discoverVaryingAndMaskingOfLayer id 10 layer_if_varying 0
      (fresh_backend 1)
  ∧ discoverVaryingAndMaskingOfLayer reversed 10 layer_if_varying 0
      (analysed (discoverVaryingAndMaskingOfLayer id 10 layer_if_varying 0
                   (fresh_backend 1)))
    = Err AssertionFailed.
Proof.
  destruct (analysis_deterministic_and_once id reversed 10 layer_if_varying
              0 (fresh_backend 1)
              (analysed (discoverVaryingAndMaskingOfLayer id 10
                           layer_if_varying 0 (fresh_backend 1))))
    as [Hsame Honce].
  - exact iterates_id.
  - exact iterates_reversed.
  - reflexivity.
  - vm_compute. reflexivity.
  - split.
    + rewrite Hsame. vm_compute. reflexivity.
    + apply Honce. discriminate.
Defined.

(** C5 as claimed fails: the second run on [x = Kd] does not succeed. *)
Lemma analysis_repeatable_counterexample :
  ¬ (∀ inst b1,
       discoverVaryingAndMaskingOfLayer id 10 inst 0 (fresh_backend 1)
       = Ok b1 →
       discoverVaryingAndMaskingOfLayer id 10 inst 0 b1 = Ok b1).
Proof.
  intros Hclaim.
  specialize (Hclaim layer_param
    (analysed (discoverVaryingAndMaskingOfLayer id 10 layer_param 0
                 (fresh_backend 1)))
    ltac:(vm_compute; reflexivity)).
  vm_compute in Hclaim. discriminate Hclaim.
Qed.

(** ** The query on the frozen table *)

(** C7, as the code has it.  For a symbol absent from the table the query
    returns [false] for an output parameter and [true] otherwise, provided
    the table is not empty; on an empty table the query stops at its
    assertion. *)
Theorem isSymbolUniform_absent b p sym :
  m_is_uniform_by_symbol b !! p = None →
  (m_is_uniform_by_symbol b ≠ ∅ →
   isSymbolUniform b p sym
   = Ok (negb (bool_decide (symtype sym = SymTypeOutputParam))))
  ∧ (m_is_uniform_by_symbol b = ∅ →
     isSymbolUniform b p sym = Err AssertionFailed).
Proof.
  intros Habsent. unfold isSymbolUniform. split; intros Htbl.
  - rewrite bool_decide_eq_false_2 by done. cbn. rewrite Habsent.
    by destruct (decide (symtype sym = SymTypeOutputParam)) as [Ho|Ho];
      [rewrite bool_decide_eq_true_2|rewrite bool_decide_eq_false_2].
  - by rewrite bool_decide_eq_true_2.
Qed.

Lemma isSymbolUniform_absent_witness :
  isSymbolUniform (analysed (discoverVaryingAndMaskingOfLayer id 10
                               layer_param 0 (fresh_backend 1)))
    2%nat (mk_symbol "Cout" SymTypeOutputParam false) = Ok false
  ∧ isSymbolUniform (fresh_backend 1) 1%nat
      (mk_symbol "Cout" SymTypeOutputParam false) = Err AssertionFailed.
Proof.
  split.
  - apply (isSymbolUniform_absent
             (analysed (discoverVaryingAndMaskingOfLayer id 10
                          layer_param 0 (fresh_backend 1)))
             2%nat (mk_symbol "Cout" SymTypeOutputParam false)).
    + vm_compute. reflexivity.
    + intros Hempty.
      apply (f_equal (λ m : gmap SymPtr bool, m !! 0%nat)) in Hempty.
      vm_compute in Hempty. discriminate Hempty.
  - apply (isSymbolUniform_absent (fresh_backend 1) 1%nat
             (mk_symbol "Cout" SymTypeOutputParam false)).
    + reflexivity.
    + reflexivity.
Defined.

(** C7 as claimed fails: the analysis of a layer with no op and no output
    parameter leaves the table empty, and the query on that table stops at
    its assertion instead of answering. *)
Lemma isSymbolUniform_never_fails_counterexample :
  ¬ (∀ inst b' p sym,
       discoverVaryingAndMaskingOfLayer id 1 inst 0 (fresh_backend 1)
       = Ok b' →
       symbol inst p = Some sym →
       m_is_uniform_by_symbol b' !! p = None →
       isSymbolUniform b' p sym
       = Ok (negb (bool_decide (symtype sym = SymTypeOutputParam)))).
Proof.
  intros Hclaim.
  specialize (Hclaim layer_bare (fresh_backend 1) 0%nat
                (mk_symbol "x" SymTypeLocal false)
                ltac:(vm_compute; reflexivity) eq_refl eq_refl).
  vm_compute in Hclaim. discriminate Hclaim.
Qed.

(** ** The [break] op *)

(** The edges a [break] inserts start at the entries of the condition
    stack after the first occurrence of the loop condition. *)
Lemma discover_break_feeds writeBlockDepth writeMaskId opIndex st
    loopCondition inner :
  last (loopControlFlowSymbolStack st) = Some loopCondition →
  after_first loopCondition (symbolsCurrentBlockDependsOn st) = Some inner →
  ∃ st',
    discover_break writeBlockDepth writeMaskId opIndex st = Ok st'
    ∧ symbolFeedForwardMap st'
      = symbolFeedForwardMap st ++ ((λ c, (c, loopCondition)) <$> inner)
    ∧ ∃ info',
        usageInfoBySymbol st' !! loopCondition = Some info'
        ∧ (writeBlockDepth, opIndex) ∈ potentially_unmasked_ops info'.
Proof.
  intros Hloop Hinner. unfold discover_break. rewrite Hloop, Hinner.
  eexists. split; [reflexivity|]. cbn. split.
  - clear. generalize st. induction inner as [|c inner IH]; intros st0.
    + cbn. by rewrite app_nil_r.
    + cbn [fold_left]. rewrite IH. cbn. by rewrite <- app_assoc.
  - rewrite lookup_insert_eq. eexists. split; [done|]. cbn.
    apply elem_of_app. right. apply list_elem_of_here.
Qed.

(** When the loop condition occurs once on the condition stack, the
    entries after it are the conditions opened inside the loop. *)
Lemma after_first_single loopCondition (below above : list SymPtr) :
  loopCondition ∉ below →
  after_first loopCondition (below ++ loopCondition :: above) = Some above.
Proof.
  induction below as [|c below IH]; intros Hnot; cbn [after_first app].
  - by rewrite decide_True.
  - rewrite decide_False; [apply IH|]; set_solver.
Qed.

(** C8 at an input where it fails.  In
    [if (x) { while (x) { if (c) break; } }] the condition stack at the
    [break] is [x; x; c] and the innermost loop condition is its second
    entry, so that the one condition above it is [c]; the [break] inserts
    the edge from [c] to [x] and also an edge from [x], the loop condition
    itself, to [x]. *)
Theorem break_feeds_from_loop_condition_itself :
  ∃ st st',
    discoverVaryingAndMaskingOfLayer_walk 10 layer_break 0 (fresh_backend 1)
    = Ok st
    ∧ symbolFeedForwardMap st = [(0%nat, 0%nat); (1%nat, 0%nat)]
    ∧ discover_break 3 3 3 state_at_break = Ok st'
    ∧ symbolFeedForwardMap st' = [(0%nat, 0%nat); (1%nat, 0%nat)].
Proof.
  eexists _, _. split_and!; vm_compute; reflexivity.
Qed.

(** ** The assertion of the mask planner *)

(** C10 at an input where it fails.  In
    [if (c1) { if (c2) x = k;  y = x; }  z = x;] the read of [x] at depth
    1 takes the one pending write of [x] and resets [last_depth] to 1,
    keeping [last_maskId = 2]; the read of [x] at depth 0 under mask 0
    then finds [last_depth > 0], [last_maskId ≠ 0] and no pending write,
    and the assertion fails. *)
Theorem ensure_assertion_fails_on_second_shallower_read :
  ∃ st,
    discoverVaryingAndMaskingOfLayer_walk 10 layer_nested_if_prefix 0
      (fresh_backend 1) = Ok st
    ∧ usageInfoBySymbol st !! 2%nat
      = Some {| last_depth := 1; last_maskId := 2;
                potentially_unmasked_ops := [] |}
    ∧ ensureWritesAtLowerDepthAreMasked 2%nat 0 0 st = Err AssertionFailed
    ∧ discoverVaryingAndMaskingOfLayer id 10 layer_nested_if 0
        (fresh_backend 1) = Err AssertionFailed.
Proof.
  eexists. split_and!; vm_compute; reflexivity.
Qed.

(** ** Scenarios of the specification *)

(** S3: an [if] under a varying condition.  The symbol written in both
    branches and the symbol that reads it after the [if] are varying, and
    the two writes require masking. *)
Example scenario_if_under_varying_condition :
  ∃ b',
    discoverVaryingAndMaskingOfLayer id 10 layer_if_varying 0
      (fresh_backend 1) = Ok b'
    ∧ m_is_uniform_by_symbol b' !! 2%nat = Some false
    ∧ m_is_uniform_by_symbol b' !! 5%nat = Some false
    ∧ m_requires_masking_by_layer_and_op_index b'
      = [[false; false; true; true; false; false]].
Proof. eexists. split_and!; vm_compute; reflexivity. Qed.

(** S5: a [break] under a varying condition makes the loop condition
    varying, and the [break] requires masking. *)
Example scenario_break_propagates_varying :
  ∃ b',
    discoverVaryingAndMaskingOfLayer id 20 layer_loop_break 0
      (fresh_backend 1) = Ok b'
    ∧ m_is_uniform_by_symbol b' !! 2%nat = Some false
    ∧ m_requires_masking_by_layer_and_op_index b' !! 0%nat
      = Some [false; false; false; true; false; true; true].
Proof. eexists. split_and!; vm_compute; reflexivity. Qed.

(** ** The fuel of the walk *)

(** A walk that returns with some fuel returns the same state with more:
    the fuel only bounds the recursion of the model. *)
Lemma discoverSymbolsBetween_fuel_mono inst fuel :
  ∀ fuel' beginop endop blockDepth writeBlockDepth maskId writeMaskId st st',
    (fuel ≤ fuel')%nat →
    discoverSymbolsBetween fuel inst beginop endop blockDepth
      writeBlockDepth maskId writeMaskId st = Ok st' →
    discoverSymbolsBetween fuel' inst beginop endop blockDepth
      writeBlockDepth maskId writeMaskId st = Ok st'.
Proof.
  induction fuel as [|fuel IH];
    intros fuel' beginop endop blockDepth writeBlockDepth maskId writeMaskId
           st st' Hle Hrun; [done|].
  destruct fuel' as [|fuel']; [lia|].
  assert (Hle' : (fuel ≤ fuel')%nat) by lia.
  cbn [discoverSymbolsBetween] in Hrun |- *.
  destruct (decide (beginop < endop)); [|done].
  bind_ok Hrun as opcode Hop. rewrite Hop. cbn [mbind result_bind].
  bind_ok Hrun as [[reads writes] st1] Hbegin.
  rewrite Hbegin. cbn [mbind result_bind].
  bind_ok Hrun as st2 Hjumps. bind_ok Hrun as st3 Hend.
  apply (IH fuel') in Hrun; [|done].
  match goal with
  | |- mbind _ ?m = _ => assert (m = Ok st2) as ->
  end.
  2: { cbn [mbind result_bind]. rewrite Hend. cbn [mbind result_bind]. done. }
  destruct (decide (jump opcode 0 >= 0)); [|done].
  destruct (decide (opname opcode = op_if)).
  { bind_ok Hjumps as s1 Hpush. rewrite Hpush. cbn [mbind result_bind].
    cbn [fresh_mask] in Hjumps |- *.
    bind_ok Hjumps as s2 Hthen. apply (IH fuel') in Hthen; [|done].
    rewrite Hthen. cbn [mbind result_bind].
    bind_ok Hjumps as s3 Helse. apply (IH fuel') in Helse; [|done].
    rewrite Helse. cbn [mbind result_bind]. done. }
  destruct (decide (is_loop_op opcode)).
  { bind_ok Hjumps as s1 Hinit. apply (IH fuel') in Hinit; [|done].
    rewrite Hinit. cbn [mbind result_bind].
    cbn [fresh_mask] in Hjumps |- *.
    bind_ok Hjumps as s2 Hpush. rewrite Hpush. cbn [mbind result_bind].
    bind_ok Hjumps as s3 Hpushl. rewrite Hpushl. cbn [mbind result_bind].
    bind_ok Hjumps as s4 Hbody. apply (IH fuel') in Hbody; [|done].
    rewrite Hbody. cbn [mbind result_bind].
    bind_ok Hjumps as s5 Hstep. apply (IH fuel') in Hstep; [|done].
    rewrite Hstep. cbn [mbind result_bind].
    bind_ok Hjumps as s6 Hcond. apply (IH fuel') in Hcond; [|done].
    rewrite Hcond. cbn [mbind result_bind]. done. }
  destruct (decide (opname opcode = op_functioncall)); [|done].
  by apply (IH fuel').
Qed.

Lemma foldM_ext_Ok {A S} (f g : A → S → result S) l s s' :
  (∀ a t t', f a t = Ok t' → g a t = Ok t') →
  foldM f l s = Ok s' → foldM g l s = Ok s'.
Proof.
  intros Hfg. revert s. induction l as [|a l IH]; intros s Hrun; [done|].
  cbn [foldM] in Hrun |- *. bind_ok Hrun as s1 Ha.
  rewrite (Hfg _ _ _ Ha). cbn. by apply IH.
Qed.

(** The same for the whole function. *)
Lemma discoverVaryingAndMaskingOfLayer_fuel_mono order fuel fuel' inst
    layer b b' :
  (fuel ≤ fuel')%nat →
  discoverVaryingAndMaskingOfLayer order fuel inst layer b = Ok b' →
  discoverVaryingAndMaskingOfLayer order fuel' inst layer b = Ok b'.
Proof.
  intros Hle Hrun. unfold discoverVaryingAndMaskingOfLayer in Hrun |- *.
  bind_ok Hrun as st Hwalk.
  assert (discoverVaryingAndMaskingOfLayer_walk fuel' inst layer b = Ok st)
    as ->; [|done].
  unfold discoverVaryingAndMaskingOfLayer_walk in Hwalk |- *.
  bind_ok Hwalk as [] Hlen. rewrite Hlen. cbn [mbind result_bind].
  bind_ok Hwalk as flags Hflags. rewrite Hflags. cbn [mbind result_bind].
  bind_ok Hwalk as [] Hempty. rewrite Hempty. cbn [mbind result_bind].
  cbn [fresh_mask] in Hwalk |- *.
  bind_ok Hwalk as st1 Hsyms. bind_ok Hwalk as st2 Hparams.
  bind_ok Hwalk as st3 Hmain.
  eapply foldM_ext_Ok in Hsyms; [rewrite Hsyms|].
  2: { intros s t t'. cbn beta. destruct (walks_symbol_init inst s); [|done].
       by apply discoverSymbolsBetween_fuel_mono. }
  cbn [mbind result_bind].
  eapply foldM_ext_Ok in Hparams; [rewrite Hparams|].
  2: { intros s t t'. cbn beta. destruct (walks_param_init inst s.2); [|done].
       by apply discoverSymbolsBetween_fuel_mono. }
  cbn [mbind result_bind].
  apply (discoverSymbolsBetween_fuel_mono _ _ fuel') in Hmain; [|done].
  rewrite Hmain. cbn [mbind result_bind]. done.
Qed.

(** * Further properties *)

(** ** One op of the walk *)

Lemma mark_deeper_usages_kept blockDepth usages flags rem flags' rem' :
  mark_deeper_usages blockDepth usages flags rem = Ok (flags', rem') →
  ∀ i : nat, flags !! i = Some true → flags' !! i = Some true.
Proof.
  revert flags rem. induction usages as [|u usages IH]; intros flags rem Hrun.
  - by injection Hrun as <- <-.
  - cbn [mark_deeper_usages] in Hrun. destruct (decide (u.1 > blockDepth)).
    + bind_ok Hrun as flags1 Hstore. unfold vec_store in Hstore.
      destruct (decide _) in Hstore; [|done]. injection Hstore as <-.
      intros i Hi. eapply IH; [done|].
      destruct (decide (i = Z.to_nat u.2)) as [->|Hne].
      * apply list_lookup_insert_eq. by eapply lookup_lt_Some.
      * by rewrite list_lookup_insert_ne.
    + eauto.
Qed.

(** A call of the mask planner touches the masking flags and the usage
    info only, and clears no flag. *)
Lemma ensure_shape symbolToCheck blockDepth maskId st st' :
  ensureWritesAtLowerDepthAreMasked symbolToCheck blockDepth maskId st
  = Ok st' →
  is_uniform_by_symbol st' = is_uniform_by_symbol st
  ∧ symbolFeedForwardMap st' = symbolFeedForwardMap st
  ∧ symbolsWrittenToByGetAttribute st' = symbolsWrittenToByGetAttribute st
  ∧ nextMaskId st' = nextMaskId st
  ∧ same_stacks st st' ∧ flags_kept st st'.
Proof.
  unfold ensureWritesAtLowerDepthAreMasked, same_stacks, flags_kept.
  intros Hrun.
  destruct (usageInfoBySymbol st !! symbolToCheck) as [info|];
    [|by injection Hrun as <-].
  destruct (decide _) in Hrun; [|by injection Hrun as <-].
  bind_ok Hrun as [] Hassert. bind_ok Hrun as [flags remaining_ops] Hloop.
  injection Hrun as <-. cbn. split_and!; try done.
  - eauto using mark_deeper_usages_length.
  - eauto using mark_deeper_usages_kept.
Qed.

Lemma flags_kept_refl st : flags_kept st st.
Proof. by split. Qed.

Lemma flags_kept_trans st1 st2 st3 :
  flags_kept st1 st2 → flags_kept st2 st3 → flags_kept st1 st3.
Proof. intros [H1 H2] [H3 H4]. split; [congruence|eauto]. Qed.

Lemma same_stacks_refl st : same_stacks st st.
Proof. by split. Qed.

Lemma same_stacks_trans st1 st2 st3 :
  same_stacks st1 st2 → same_stacks st2 st3 → same_stacks st1 st3.
Proof. intros [H1 H2] [H3 H4]. split; congruence. Qed.

Lemma discover_args_shape inst l reads writes st reads' writes' st' :
  discover_args inst l reads writes st = Ok (reads', writes', st') →
  reads' = reads ++ (argsym <$> filter (λ a, argread a = true) l)
  ∧ writes' = writes ++ (argsym <$> filter (λ a, argwrite a = true) l)
  ∧ (∀ a, a ∈ l → is_Some (symbol inst (argsym a)))
  ∧ (∀ x, is_uniform_by_symbol st' !! x
          = if decide (x ∈ argsym <$> l) then Some true
            else is_uniform_by_symbol st !! x)
  ∧ requires_masking_by_op_index st' = requires_masking_by_op_index st
  ∧ symbolFeedForwardMap st' = symbolFeedForwardMap st
  ∧ usageInfoBySymbol st' = usageInfoBySymbol st
  ∧ symbolsWrittenToByGetAttribute st' = symbolsWrittenToByGetAttribute st
  ∧ nextMaskId st' = nextMaskId st
  ∧ same_stacks st st'.
Proof.
  revert reads writes st.
  induction l as [|a l IH]; intros reads writes st Hrun.
  - injection Hrun as <- <- <-. rewrite !app_nil_r.
    split_and!; try done. intros a Ha. by apply elem_of_nil in Ha.
  - cbn [discover_args] in Hrun. bind_ok Hrun as aSymbol Harg.
    unfold opargsym in Harg.
    destruct (symbol inst (argsym a)) as [sym|] eqn:Hsym; [|done].
    injection Harg as <-.
    apply IH in Hrun
      as (-> & -> & Hvalid & Htbl & Hflags & Hfeeds & Husage & Hattr & Hmask
          & Hstacks).
    split_and!; try done.
    + rewrite filter_cons. destruct (argread a); case_decide; try done.
      by rewrite <- app_assoc.
    + rewrite filter_cons. destruct (argwrite a); case_decide; try done.
      by rewrite <- app_assoc.
    + intros a' [->|Ha']%elem_of_cons; [by rewrite Hsym|by eauto].
    + intros x. rewrite Htbl, fmap_cons.
      cbn [is_uniform_by_symbol set_is_uniform].
      destruct (decide (x ∈ argsym <$> l)) as [Hin|Hnot].
      * rewrite decide_True; [done|]. by apply list_elem_of_further.
      * destruct (decide (argsym a = x)) as [<-|Hne].
        -- rewrite lookup_insert_eq, decide_True; [done|].
           apply list_elem_of_here.
        -- rewrite lookup_insert_ne by done. rewrite decide_False; [done|].
           intros [?|?]%elem_of_cons; congruence.
Qed.

Lemma feed_into_writes_shape from ws st :
  symbolFeedForwardMap (feed_into_writes from ws st)
  = symbolFeedForwardMap st
    ++ ((λ w, (from, w)) <$> filter (λ w, w ≠ from) ws)
  ∧ is_uniform_by_symbol (feed_into_writes from ws st)
    = is_uniform_by_symbol st
  ∧ requires_masking_by_op_index (feed_into_writes from ws st)
    = requires_masking_by_op_index st
  ∧ usageInfoBySymbol (feed_into_writes from ws st) = usageInfoBySymbol st
  ∧ symbolsWrittenToByGetAttribute (feed_into_writes from ws st)
    = symbolsWrittenToByGetAttribute st
  ∧ nextMaskId (feed_into_writes from ws st) = nextMaskId st
  ∧ same_stacks st (feed_into_writes from ws st).
Proof.
  unfold feed_into_writes, same_stacks. revert st.
  induction ws as [|w ws IH]; intros st.
  - cbn. by rewrite app_nil_r.
  - cbn [fold_left]. rewrite filter_cons.
    destruct (decide (w ≠ from)); [|apply IH].
    destruct (IH (add_feed from w st)) as (-> & -> & -> & -> & -> & -> & -> & ->).
    cbn. by rewrite <- app_assoc.
Qed.

Lemma discover_reads_shape reads writes blockDepth maskId st st' :
  discover_reads reads writes blockDepth maskId st = Ok st' →
  (∀ u v, (u, v) ∈ symbolFeedForwardMap st'
          ↔ (u, v) ∈ symbolFeedForwardMap st
            ∨ (u ∈ reads ∧ v ∈ writes ∧ v ≠ u))
  ∧ is_uniform_by_symbol st' = is_uniform_by_symbol st
  ∧ symbolsWrittenToByGetAttribute st' = symbolsWrittenToByGetAttribute st
  ∧ nextMaskId st' = nextMaskId st
  ∧ same_stacks st st' ∧ flags_kept st st'.
Proof.
  revert st. induction reads as [|r reads IH]; intros st Hrun.
  - injection Hrun as <-. split_and!;
      auto using same_stacks_refl, flags_kept_refl.
    intros u v. split; [by left|]. intros [?|[[]%elem_of_nil _]]; done.
  - cbn [discover_reads] in Hrun. bind_ok Hrun as st1 Hens.
    destruct (feed_into_writes_shape r writes st)
      as (F1 & F2 & F3 & F4 & F5 & F6 & F7).
    apply ensure_shape in Hens as (E1 & E2 & E3 & E4 & E5 & E6).
    apply IH in Hrun as (I1 & I2 & I3 & I4 & I5 & I6).
    split_and!; try congruence.
    + intros u v. rewrite I1, E2, F1, elem_of_app, list_elem_of_fmap.
      split.
      * intros [[?|(w & [= -> ->] & [Hne Hin]%list_elem_of_filter)]|
                (Hu & Hv & Hne)].
        -- by left.
        -- right. split_and!; [apply list_elem_of_here|done..].
        -- right. split_and!; [by apply list_elem_of_further|done..].
      * intros [?|([->|Hu]%elem_of_cons & Hv & Hne)].
        -- left. by left.
        -- left. right. exists v. split; [done|].
           by apply list_elem_of_filter.
        -- by right.
    + eapply same_stacks_trans; [|done].
      eapply same_stacks_trans; [exact F7|done].
    + eapply flags_kept_trans; [|done].
      destruct E6 as [E6 E7]. split; [by rewrite E6, F3|].
      intros i Hi. apply E7. by rewrite F3.
Qed.

Lemma discover_writes_shape ws writeBlockDepth writeMaskId opIndex st st' :
  st' = discover_writes ws writeBlockDepth writeMaskId opIndex st →
  (∀ w, w ∈ ws → just_written writeBlockDepth writeMaskId opIndex st' w)
  ∧ (∀ s, s ∉ ws → usageInfoBySymbol st' !! s = usageInfoBySymbol st !! s)
  ∧ is_uniform_by_symbol st' = is_uniform_by_symbol st
  ∧ requires_masking_by_op_index st' = requires_masking_by_op_index st
  ∧ symbolFeedForwardMap st' = symbolFeedForwardMap st
  ∧ symbolsWrittenToByGetAttribute st' = symbolsWrittenToByGetAttribute st
  ∧ nextMaskId st' = nextMaskId st
  ∧ same_stacks st st'.
Proof.
  unfold discover_writes, same_stacks. intros ->.
  assert (∀ st0,
    let st' := fold_left (record_write writeBlockDepth writeMaskId opIndex)
                 ws st0 in
    (∀ w, w ∈ ws ∨ just_written writeBlockDepth writeMaskId opIndex st0 w →
          just_written writeBlockDepth writeMaskId opIndex st' w)
    ∧ (∀ s, s ∉ ws → usageInfoBySymbol st' !! s = usageInfoBySymbol st0 !! s)
    ∧ is_uniform_by_symbol st' = is_uniform_by_symbol st0
    ∧ requires_masking_by_op_index st' = requires_masking_by_op_index st0
    ∧ symbolFeedForwardMap st' = symbolFeedForwardMap st0
    ∧ symbolsWrittenToByGetAttribute st'
      = symbolsWrittenToByGetAttribute st0
    ∧ nextMaskId st' = nextMaskId st0
    ∧ symbolsCurrentBlockDependsOn st' = symbolsCurrentBlockDependsOn st0
    ∧ loopControlFlowSymbolStack st' = loopControlFlowSymbolStack st0)
    as Hgen.
  { induction ws as [|w ws IH]; intros st0.
    - cbn. split_and!; try done. intros w [[]%elem_of_nil|?]. done.
    - cbn [fold_left].
      destruct (IH (record_write writeBlockDepth writeMaskId opIndex st0 w))
        as (I1 & I2 & -> & -> & -> & -> & -> & -> & ->).
      split_and!; try done.
      + intros w' Hw'. apply I1.
        destruct (decide (w' = w)) as [->|Hne].
        * right. unfold just_written, record_write. cbn.
          rewrite lookup_insert_eq. eexists. split; [done|]. cbn.
          split_and!; try done. apply last_snoc.
        * destruct Hw' as [[?|?]%elem_of_cons|(info & Hinfo & ?)];
            [done|by left|].
          right. exists info. unfold record_write. cbn.
          by rewrite lookup_insert_ne.
      + intros s Hs. rewrite I2 by set_solver. unfold record_write. cbn.
        rewrite lookup_insert_ne; [done|]. set_solver. }
  destruct (Hgen st) as (H1 & H2 & H3 & H4 & H5 & H6 & H7 & H8 & H9).
  split_and!; try done. intros w Hw. apply H1. by left.
Qed.

Lemma discover_block_dependencies_shape ws st st' :
  st' = discover_block_dependencies ws st →
  (∀ u v, (u, v) ∈ symbolFeedForwardMap st'
          ↔ (u, v) ∈ symbolFeedForwardMap st
            ∨ (u ∈ symbolsCurrentBlockDependsOn st ∧ v ∈ ws ∧ v ≠ u))
  ∧ is_uniform_by_symbol st' = is_uniform_by_symbol st
  ∧ requires_masking_by_op_index st' = requires_masking_by_op_index st
  ∧ usageInfoBySymbol st' = usageInfoBySymbol st
  ∧ symbolsWrittenToByGetAttribute st' = symbolsWrittenToByGetAttribute st
  ∧ nextMaskId st' = nextMaskId st
  ∧ same_stacks st st'.
Proof.
  unfold discover_block_dependencies, same_stacks. intros ->.
  assert (∀ conds st0,
    let st1 := fold_left (λ st c, feed_into_writes c ws st) conds st0 in
    (∀ u v, (u, v) ∈ symbolFeedForwardMap st1
            ↔ (u, v) ∈ symbolFeedForwardMap st0
              ∨ (u ∈ conds ∧ v ∈ ws ∧ v ≠ u))
    ∧ is_uniform_by_symbol st1 = is_uniform_by_symbol st0
    ∧ requires_masking_by_op_index st1 = requires_masking_by_op_index st0
    ∧ usageInfoBySymbol st1 = usageInfoBySymbol st0
    ∧ symbolsWrittenToByGetAttribute st1
      = symbolsWrittenToByGetAttribute st0
    ∧ nextMaskId st1 = nextMaskId st0
    ∧ symbolsCurrentBlockDependsOn st1 = symbolsCurrentBlockDependsOn st0
    ∧ loopControlFlowSymbolStack st1 = loopControlFlowSymbolStack st0)
    as Hgen; [|apply Hgen].
  induction conds as [|c conds IH]; intros st0.
  - cbn. split_and!; try done.
    intros u v. split; [by left|]. intros [?|[[]%elem_of_nil _]]; done.
  - cbn [fold_left].
    destruct (feed_into_writes_shape c ws st0)
      as (F1 & F2 & F3 & F4 & F5 & F6 & F7 & F8).
    destruct (IH (feed_into_writes c ws st0))
      as (I1 & -> & -> & -> & -> & -> & -> & ->).
    split_and!; try done.
    intros u v. rewrite I1, F1, elem_of_app, list_elem_of_fmap. split.
    + intros [[?|(w & [= -> ->] & [Hne Hin]%list_elem_of_filter)]|
              (Hu & Hv & Hne)].
      * by left.
      * right. split_and!; [apply list_elem_of_here|done..].
      * right. split_and!; [by apply list_elem_of_further|done..].
    + intros [?|([->|Hu]%elem_of_cons & Hv & Hne)].
      * left. by left.
      * left. right. exists v. split; [done|].
        by apply list_elem_of_filter.
      * by right.
Qed.

(** Everything the part of the loop body before the dispatch does. *)
Lemma discover_op_begin_spec inst opcode opIndex blockDepth writeBlockDepth
    maskId writeMaskId st reads writes st' :
  discover_op_begin inst opcode opIndex blockDepth writeBlockDepth maskId
    writeMaskId st = Ok (reads, writes, st') →
  reads = argsym <$> filter (λ a, argread a = true) (args opcode)
  ∧ writes = argsym <$> filter (λ a, argwrite a = true) (args opcode)
  ∧ (∀ a, a ∈ args opcode → is_Some (symbol inst (argsym a)))
  ∧ (∀ u v, (u, v) ∈ symbolFeedForwardMap st'
            ↔ (u, v) ∈ symbolFeedForwardMap st
              ∨ (v ∈ writes ∧ v ≠ u
                 ∧ (u ∈ reads ∨ u ∈ symbolsCurrentBlockDependsOn st)))
  ∧ (∀ x, is_uniform_by_symbol st' !! x
          = if decide (x ∈ argsym <$> args opcode) then Some true
            else is_uniform_by_symbol st !! x)
  ∧ (∀ w, w ∈ writes →
          just_written writeBlockDepth writeMaskId opIndex st' w)
  ∧ symbolsWrittenToByGetAttribute st' = symbolsWrittenToByGetAttribute st
  ∧ nextMaskId st' = nextMaskId st
  ∧ same_stacks st st' ∧ flags_kept st st'.
Proof.
  unfold discover_op_begin. intros Hrun.
  bind_ok Hrun as [[reads0 writes0] st1] Hargs.
  bind_ok Hrun as st2 Hreads. injection Hrun as <- <- <-.
  apply discover_args_shape in Hargs
    as (-> & -> & Hvalid & Htbl & A1 & A2 & A3 & A4 & A5 & A6).
  apply discover_reads_shape in Hreads as (R1 & R2 & R3 & R4 & R5 & R6).
  cbn [app] in *.
  set (ws := argsym <$> filter (λ a, argwrite a = true) (args opcode)) in *.
  set (st3 := discover_writes ws writeBlockDepth writeMaskId opIndex st2).
  destruct (discover_writes_shape ws writeBlockDepth writeMaskId opIndex
              st2 st3 eq_refl)
    as (W1 & W2 & W3 & W4 & W5 & W6 & W7 & W8).
  destruct (discover_block_dependencies_shape ws st3 _ eq_refl)
    as (B1 & B2 & B3 & B4 & B5 & B6 & B7).
  assert (Hconds : symbolsCurrentBlockDependsOn st3
                   = symbolsCurrentBlockDependsOn st).
  { destruct W8 as [-> _], R5 as [-> _], A6 as [-> _]. done. }
  split_and!; try done.
  - intros u v. rewrite B1, W5, R1, A2, Hconds. clear. naive_solver.
  - intros x. by rewrite B2, W3, R2.
  - intros w Hw. destruct (W1 w Hw) as (info & Hinfo & ?).
    exists info. by rewrite B4.
  - congruence.
  - congruence.
  - repeat (eapply same_stacks_trans; [eassumption|]). apply same_stacks_refl.
  - destruct R6 as [R6 R7]. split.
    + by rewrite B3, W4, R6, A1.
    + intros i Hi. rewrite B3, W4. apply R7. by rewrite A1.
Qed.

(** X1.  What one op adds to the feed-forward map: an edge to every
    symbol the op writes from every symbol it reads and from every
    condition on the enclosing-condition stack, the edges from a symbol to
    itself left out; these edges and no other, and no edge is taken
    away. *)
Theorem op_feeds_readers_and_conditions_into_writers inst opcode opIndex
    blockDepth writeBlockDepth maskId writeMaskId st reads writes st' :
  discover_op_begin inst opcode opIndex blockDepth writeBlockDepth maskId
    writeMaskId st = Ok (reads, writes, st') →
  reads = argsym <$> filter (λ a, argread a = true) (args opcode)
  ∧ writes = argsym <$> filter (λ a, argwrite a = true) (args opcode)
  ∧ ∀ u v, (u, v) ∈ symbolFeedForwardMap st'
           ↔ (u, v) ∈ symbolFeedForwardMap st
             ∨ (v ∈ writes ∧ v ≠ u
                ∧ (u ∈ reads ∨ u ∈ symbolsCurrentBlockDependsOn st)).
Proof.
  intros Hrun. apply discover_op_begin_spec in Hrun. tauto.
Qed.

Lemma op_feeds_readers_and_conditions_into_writers_witness :
  (3%nat, 2%nat)
    ∈ symbolFeedForwardMap
        (begun (discover_op_begin layer_if_varying
                  (mk_op "assign" [wr 2%nat; rd 3%nat] []) 2 1 1 1 1
                  state_in_then)).2
  ∧ (1%nat, 2%nat)
    ∈ symbolFeedForwardMap
        (begun (discover_op_begin layer_if_varying
                  (mk_op "assign" [wr 2%nat; rd 3%nat] []) 2 1 1 1 1
                  state_in_then)).2.
Proof.
  destruct (op_feeds_readers_and_conditions_into_writers layer_if_varying
              (mk_op "assign" [wr 2%nat; rd 3%nat] []) 2 1 1 1 1
              state_in_then [3%nat] [2%nat]
              (begun (discover_op_begin layer_if_varying
                        (mk_op "assign" [wr 2%nat; rd 3%nat] []) 2 1 1 1 1
                        state_in_then)).2)
    as (_ & _ & Hfeeds).
  - vm_compute. reflexivity.
  - split; apply Hfeeds; right.
    + split; [repeat constructor|]. split; [discriminate|].
      left. repeat constructor.
    + split; [repeat constructor|]. split; [discriminate|].
      right. repeat constructor.
Defined.

(** X2.  After the part of the loop body before the dispatch, every
    argument symbol of the op is in the table as uniform, whatever the
    table had for it, the other entries are as before, and the usage info
    of every symbol the op writes has the write depth and the write mask
    of the call, with the op as its last pending write. *)
Theorem op_resets_arguments_and_records_writes inst opcode opIndex
    blockDepth writeBlockDepth maskId writeMaskId st reads writes st' :
  discover_op_begin inst opcode opIndex blockDepth writeBlockDepth maskId
    writeMaskId st = Ok (reads, writes, st') →
  (∀ a, a ∈ args opcode →
        is_uniform_by_symbol st' !! argsym a = Some true)
  ∧ (∀ x, x ∉ argsym <$> args opcode →
          is_uniform_by_symbol st' !! x = is_uniform_by_symbol st !! x)
  ∧ (∀ a, a ∈ args opcode → argwrite a = true →
          ∃ info, usageInfoBySymbol st' !! argsym a = Some info
                  ∧ last_depth info = writeBlockDepth
                  ∧ last_maskId info = writeMaskId
                  ∧ last (potentially_unmasked_ops info)
                    = Some (writeBlockDepth, opIndex)).
Proof.
  intros Hrun. apply discover_op_begin_spec in Hrun
    as (_ & -> & _ & _ & Htbl & Hwritten & _).
  split_and!.
  - intros a Ha. rewrite Htbl, decide_True; [done|].
    by apply list_elem_of_fmap_2.
  - intros x Hx. by rewrite Htbl, decide_False.
  - intros a Ha Hw. apply Hwritten, list_elem_of_fmap_2.
    by apply list_elem_of_filter.
Qed.

Lemma op_resets_arguments_and_records_writes_witness :
  is_uniform_by_symbol
    (begun (discover_op_begin layer_if_varying
              (mk_op "assign" [wr 2%nat; rd 3%nat] []) 2 1 1 1 1
              state_in_then)).2 !! 2%nat = Some true
  ∧ ∃ info,
      usageInfoBySymbol
        (begun (discover_op_begin layer_if_varying
                  (mk_op "assign" [wr 2%nat; rd 3%nat] []) 2 1 1 1 1
                  state_in_then)).2 !! 2%nat = Some info
      ∧ last_depth info = 1 ∧ last_maskId info = 1
      ∧ last (potentially_unmasked_ops info) = Some (1, 2).
Proof.
  destruct (op_resets_arguments_and_records_writes layer_if_varying
              (mk_op "assign" [wr 2%nat; rd 3%nat] []) 2 1 1 1 1
              state_in_then [3%nat] [2%nat]
              (begun (discover_op_begin layer_if_varying
                        (mk_op "assign" [wr 2%nat; rd 3%nat] []) 2 1 1 1 1
                        state_in_then)).2)
    as (Htbl & _ & Hwritten).
  - vm_compute. reflexivity.
  - split.
    + apply (Htbl (wr 2%nat)). repeat constructor.
    + apply (Hwritten (wr 2%nat)); [repeat constructor|reflexivity].
Defined.

(** ** The stacks and the flags along the walk *)

Lemma push_conds_shape reads st st' :
  pushSymbolsCurentBlockDependsOn reads st = Ok st' →
  ∃ c, reads = [c]
       ∧ st' = set_stacks (symbolsCurrentBlockDependsOn st ++ [c])
                 (loopControlFlowSymbolStack st) st.
Proof.
  unfold pushSymbolsCurentBlockDependsOn. intros Hrun.
  bind_ok Hrun as c Hc. injection Hrun as <-.
  destruct reads as [|c' [|]]; try done. injection Hc as ->. eauto.
Qed.

Lemma pop_conds_shape reads st st' :
  popSymbolsCurentBlockDependsOn reads st = Ok st' →
  st' = set_stacks (removelast (symbolsCurrentBlockDependsOn st))
          (loopControlFlowSymbolStack st) st.
Proof.
  unfold popSymbolsCurentBlockDependsOn. intros Hrun.
  bind_ok Hrun as c Hc.
  destruct (last (symbolsCurrentBlockDependsOn st)) as [top|]; [|done].
  bind_ok Hrun as [] Hassert. by injection Hrun as <-.
Qed.

Lemma push_loop_shape reads st st' :
  push_loop_control reads st = Ok st' →
  ∃ c, reads = [c]
       ∧ st' = set_stacks (symbolsCurrentBlockDependsOn st)
                 (loopControlFlowSymbolStack st ++ [c]) st.
Proof.
  unfold push_loop_control. intros Hrun.
  bind_ok Hrun as c Hc. injection Hrun as <-.
  destruct reads as [|c' [|]]; try done. injection Hc as ->. eauto.
Qed.

Lemma pop_loop_shape reads st st' :
  pop_loop_control reads st = Ok st' →
  st' = set_stacks (symbolsCurrentBlockDependsOn st)
          (removelast (loopControlFlowSymbolStack st)) st.
Proof.
  unfold pop_loop_control. intros Hrun.
  destruct (last (loopControlFlowSymbolStack st)) as [top|]; [|done].
  destruct reads as [|c reads]; [done|].
  bind_ok Hrun as [] Hassert. by injection Hrun as <-.
Qed.

Lemma discover_break_shape writeBlockDepth writeMaskId opIndex st st' :
  discover_break writeBlockDepth writeMaskId opIndex st = Ok st' →
  is_uniform_by_symbol st' = is_uniform_by_symbol st
  ∧ requires_masking_by_op_index st' = requires_masking_by_op_index st
  ∧ symbolsWrittenToByGetAttribute st' = symbolsWrittenToByGetAttribute st
  ∧ nextMaskId st' = nextMaskId st
  ∧ same_stacks st st'.
Proof.
  unfold discover_break, same_stacks. intros Hrun.
  destruct (last (loopControlFlowSymbolStack st)) as [loopCondition|];
    [|done].
  destruct (after_first loopCondition (symbolsCurrentBlockDependsOn st))
    as [inner|]; [|done].
  injection Hrun as <-. cbn. clear. revert st.
  induction inner as [|c inner IH]; intros st; [done|].
  cbn [fold_left]. destruct (IH (add_feed c loopCondition st))
    as (-> & -> & -> & -> & -> & ->). done.
Qed.

Lemma discover_op_end_shape opcode writes opIndex writeBlockDepth
    writeMaskId st st' :
  discover_op_end opcode writes opIndex writeBlockDepth writeMaskId st
  = Ok st' →
  is_uniform_by_symbol st' = is_uniform_by_symbol st
  ∧ requires_masking_by_op_index st' = requires_masking_by_op_index st
  ∧ nextMaskId st' = nextMaskId st
  ∧ same_stacks st st'.
Proof.
  unfold discover_op_end. intros Hrun. bind_ok Hrun as st1 Hbreak.
  injection Hrun as <-.
  assert (is_uniform_by_symbol st1 = is_uniform_by_symbol st
          ∧ requires_masking_by_op_index st1
            = requires_masking_by_op_index st
          ∧ nextMaskId st1 = nextMaskId st ∧ same_stacks st st1)
    as (B1 & B2 & B3 & B4).
  { destruct (decide (opname opcode = op_break)).
    - apply discover_break_shape in Hbreak. tauto.
    - injection Hbreak as <-. auto using same_stacks_refl. }
  by destruct (decide (opname opcode = op_getattribute)).
Qed.

(** What a walk that returns has kept: the two stacks of conditions, the
    masking flags that were set, and the order of the mask ids. *)
Definition walk_kept (st st' : WalkState) : Prop :=
  same_stacks st st' ∧ flags_kept st st' ∧ nextMaskId st ≤ nextMaskId st'.

Lemma walk_kept_refl st : walk_kept st st.
Proof. split_and!; [apply same_stacks_refl|apply flags_kept_refl|lia]. Qed.

Lemma walk_kept_trans st1 st2 st3 :
  walk_kept st1 st2 → walk_kept st2 st3 → walk_kept st1 st3.
Proof.
  intros (A1 & A2 & A3) (B1 & B2 & B3).
  split_and!; [by eapply same_stacks_trans|by eapply flags_kept_trans|lia].
Qed.

Lemma removelast_snoc {A} (l : list A) x : removelast (l ++ [x]) = l.
Proof. induction l as [|y [|z l] IH]; [done|done|]. cbn in *. by rewrite IH. Qed.

Lemma discoverSymbolsBetween_kept inst fuel :
  ∀ beginop endop blockDepth writeBlockDepth maskId writeMaskId st st',
    discoverSymbolsBetween fuel inst beginop endop blockDepth
      writeBlockDepth maskId writeMaskId st = Ok st' →
    walk_kept st st'.
Proof.
  induction fuel as [|fuel IH];
    intros beginop endop blockDepth writeBlockDepth maskId writeMaskId
           st st' Hrun; [done|].
  cbn [discoverSymbolsBetween] in Hrun.
  destruct (decide (beginop < endop));
    [|injection Hrun as <-; apply walk_kept_refl].
  bind_ok Hrun as opcode Hop.
  bind_ok Hrun as [[reads writes] st1] Hbegin.
  bind_ok Hrun as st2 Hjumps.
  bind_ok Hrun as st3 Hend.
  apply discover_op_begin_spec in Hbegin
    as (_ & _ & _ & _ & _ & _ & _ & Hmask1 & Hstacks1 & Hflags1).
  apply discover_op_end_shape in Hend as (_ & E2 & E3 & E4).
  apply IH in Hrun.
  assert (walk_kept st st1) as K1 by (split_and!; [done|done|lia]).
  assert (walk_kept st2 st3) as K3.
  { split_and!; [done| |lia]. split; [congruence|]. intros i. by rewrite E2. }
  assert (walk_kept st1 st2) as K2;
    [|eauto using walk_kept_trans].
  clear K1 K3 Hrun E2 E3 E4 Hmask1 Hstacks1 Hflags1.
  destruct (decide (jump opcode 0 >= 0));
    [|injection Hjumps as <-; apply walk_kept_refl].
  destruct (decide (opname opcode = op_if)).
  { bind_ok Hjumps as s1 Hpush. cbn [fresh_mask] in Hjumps.
    bind_ok Hjumps as s2 Hthen. bind_ok Hjumps as s3 Helse.
    apply push_conds_shape in Hpush as (c & -> & ->).
    apply IH in Hthen as ([T1 T2] & [T3 T4] & T5).
    apply IH in Helse as ([L1 L2] & [L3 L4] & L5).
    apply pop_conds_shape in Hjumps as ->. cbn in *.
    split_and!; [split; cbn| |cbn; lia].
    - by rewrite L1, T1, removelast_snoc.
    - congruence.
    - split; cbn; [congruence|]. eauto. }
  destruct (decide (is_loop_op opcode)).
  { bind_ok Hjumps as s1 Hinit. cbn [fresh_mask] in Hjumps.
    bind_ok Hjumps as s2 Hpush. bind_ok Hjumps as s3 Hpushl.
    bind_ok Hjumps as s4 Hbody. bind_ok Hjumps as s5 Hstep.
    bind_ok Hjumps as s6 Hcond. bind_ok Hjumps as condition Harg.
    bind_ok Hjumps as s7 Hens. bind_ok Hjumps as s8 Hpop.
    apply IH in Hinit as ([I1 I2] & [I3 I4] & I5).
    apply push_conds_shape in Hpush as (c & -> & ->).
    apply push_loop_shape in Hpushl as (c' & [= <-] & ->).
    apply IH in Hbody as ([B1 B2] & [B3 B4] & B5).
    apply IH in Hstep as ([S1 S2] & [S3 S4] & S5).
    apply IH in Hcond as ([C1 C2] & [C3 C4] & C5).
    apply ensure_shape in Hens as (_ & _ & _ & N4 & [N5 N6] & [N7 N8]).
    apply pop_conds_shape in Hpop as ->.
    apply pop_loop_shape in Hjumps as ->. cbn in *.
    split_and!; [split; cbn| |cbn; lia].
    - by rewrite N5, C1, S1, B1, removelast_snoc.
    - by rewrite N6, C2, S2, B2, removelast_snoc.
    - split; cbn; [congruence|]. eauto 10. }
  destruct (decide (opname opcode = op_functioncall)); [|done].
  by apply IH in Hjumps.
Qed.

(** X3.  A walk of a code range that returns has popped what it pushed:
    the stack of conditions the current block depends on and the
    loop-control stack are as they were at the call, however deeply the
    range nests.  No masking flag that was set is cleared, the vector of
    flags keeps its length, and the counter of mask ids never goes
    down. *)
Theorem walk_restores_stacks_and_keeps_flags fuel inst beginop endop
    blockDepth writeBlockDepth maskId writeMaskId st st' :
  discoverSymbolsBetween fuel inst beginop endop blockDepth writeBlockDepth
    maskId writeMaskId st = Ok st' →
  symbolsCurrentBlockDependsOn st' = symbolsCurrentBlockDependsOn st
  ∧ loopControlFlowSymbolStack st' = loopControlFlowSymbolStack st
  ∧ length (requires_masking_by_op_index st')
    = length (requires_masking_by_op_index st)
  ∧ (∀ i : nat, requires_masking_by_op_index st !! i = Some true →
                requires_masking_by_op_index st' !! i = Some true)
  ∧ nextMaskId st ≤ nextMaskId st'.
Proof.
  intros Hrun. apply discoverSymbolsBetween_kept in Hrun
    as ([? ?] & [? ?] & ?). done.
Qed.

Lemma walk_restores_stacks_and_keeps_flags_witness :
  symbolsCurrentBlockDependsOn
    (walked (discoverSymbolsBetween 10 layer_if_varying 0 6 0 0 0 0
               state_at_main)) = []
  ∧ length (requires_masking_by_op_index
              (walked (discoverSymbolsBetween 10 layer_if_varying 0 6 0 0
                         0 0 state_at_main))) = 6%nat.
Proof.
  destruct (walk_restores_stacks_and_keeps_flags 10 layer_if_varying 0 6 0
              0 0 0 state_at_main
              (walked (discoverSymbolsBetween 10 layer_if_varying 0 6 0 0
                         0 0 state_at_main)))
    as (Hconds & _ & Hlen & _).
  - vm_compute. reflexivity.
  - split; [exact Hconds|exact Hlen].
Defined.

Lemma layer_walk_kept fuel inst layer b st :
  discoverVaryingAndMaskingOfLayer_walk fuel inst layer b = Ok st →
  m_requires_masking_by_layer_and_op_index b !! layer = Some []
  ∧ walk_kept
      (fresh_mask (initial_walk_state (m_is_uniform_by_symbol b)
                     (replicate (length (ops inst)) false))).2 st.
Proof.
  unfold discoverVaryingAndMaskingOfLayer_walk. intros Hrun.
  bind_ok Hrun as [] Hlen. bind_ok Hrun as flags Hflags.
  bind_ok Hrun as [] Hempty. apply ASSERT_Ok in Hempty.
  apply bool_decide_eq_true in Hempty as ->.
  destruct (m_requires_masking_by_layer_and_op_index b !! layer)
    as [flags|]; [|done]. injection Hflags as ->. split; [done|].
  rewrite resize_nil in Hrun. cbn [fresh_mask] in Hrun.
  cbn [fresh_mask snd].
  bind_ok Hrun as st1 Hsyms. bind_ok Hrun as st2 Hparams.
  bind_ok Hrun as st3 Hmain.
  eapply walk_kept_trans; [|eapply walk_kept_trans;
    [|eapply walk_kept_trans]].
  - eapply (foldM_inv (walk_kept _)); [|exact Hsyms|apply walk_kept_refl].
    intros s t t' _ Hs Ht. eapply walk_kept_trans; [exact Ht|].
    cbn beta in Hs. destruct (walks_symbol_init inst s).
    + by eapply discoverSymbolsBetween_kept.
    + injection Hs as <-. apply walk_kept_refl.
  - eapply (foldM_inv (walk_kept _));
      [|exact Hparams|apply walk_kept_refl].
    intros s t t' _ Hs Ht. eapply walk_kept_trans; [exact Ht|].
    cbn beta in Hs. destruct (walks_param_init inst s.2).
    + by eapply discoverSymbolsBetween_kept.
    + injection Hs as <-. apply walk_kept_refl.
  - by eapply discoverSymbolsBetween_kept.
  - eapply (foldM_inv (walk_kept _)); [|exact Hrun|apply walk_kept_refl].
    intros s t t' _ Hs Ht. eapply walk_kept_trans; [exact Ht|].
    cbn beta in Hs. destruct (checks_output_param s.2).
    + apply ensure_shape in Hs as (_ & _ & _ & Hmask & ? & ?).
      split_and!; [done..|lia].
    + injection Hs as <-. apply walk_kept_refl.
Qed.

(** X4.  The walk of a layer that returns ends with both stacks of
    conditions empty and with one masking flag for every op of the layer;
    the main mask took the id 0, so the counter of mask ids is at least
    1. *)
Theorem layer_walk_ends_with_empty_stacks fuel inst layer b st :
  discoverVaryingAndMaskingOfLayer_walk fuel inst layer b = Ok st →
  symbolsCurrentBlockDependsOn st = []
  ∧ loopControlFlowSymbolStack st = []
  ∧ length (requires_masking_by_op_index st) = length (ops inst)
  ∧ 1 ≤ nextMaskId st.
Proof.
  intros Hrun. apply layer_walk_kept in Hrun
    as (_ & [-> ->] & [-> _] & Hmask). cbn in *.
  by rewrite length_replicate.
Qed.

Lemma layer_walk_ends_with_empty_stacks_witness :
  loopControlFlowSymbolStack
    (walked (discoverVaryingAndMaskingOfLayer_walk 10 layer_loop_break 0
               (fresh_backend 1))) = []
  ∧ length (requires_masking_by_op_index
              (walked (discoverVaryingAndMaskingOfLayer_walk 10
                         layer_loop_break 0 (fresh_backend 1))))
    = 7%nat.
Proof.
  destruct (layer_walk_ends_with_empty_stacks 10 layer_loop_break 0
              (fresh_backend 1)
              (walked (discoverVaryingAndMaskingOfLayer_walk 10
                         layer_loop_break 0 (fresh_backend 1))))
    as (_ & Hloops & Hlen & _).
  - vm_compute. reflexivity.
  - split; [exact Hloops|exact Hlen].
Defined.

(** X5.  An analysis that returns started from an empty masking vector
    for the layer and has replaced it, and only it, by a vector with one
    flag for every op of the layer: the vectors of the other layers and
    the number of layers are as before. *)
Theorem analysis_fills_masking_vector_of_layer order fuel inst layer b b' :
  discoverVaryingAndMaskingOfLayer order fuel inst layer b = Ok b' →
  m_requires_masking_by_layer_and_op_index b !! layer = Some []
  ∧ (∃ flags, m_requires_masking_by_layer_and_op_index b' !! layer
              = Some flags
              ∧ length flags = length (ops inst))
  ∧ (∀ other, other ≠ layer →
       m_requires_masking_by_layer_and_op_index b' !! other
       = m_requires_masking_by_layer_and_op_index b !! other)
  ∧ length (m_requires_masking_by_layer_and_op_index b')
    = length (m_requires_masking_by_layer_and_op_index b).
Proof.
  unfold discoverVaryingAndMaskingOfLayer. intros Hrun.
  bind_ok Hrun as st Hwalk. bind_ok Hrun as tbl Hprop.
  injection Hrun as <-. cbn.
  pose proof (walk_Ok_flags _ _ _ _ _ Hwalk) as Hlayer.
  apply layer_walk_kept in Hwalk as (Hempty & _ & [Hlen _] & _).
  cbn in Hlen. rewrite length_replicate in Hlen. split_and!.
  - done.
  - exists (requires_masking_by_op_index st).
    by rewrite list_lookup_insert_eq.
  - intros other Hne. by rewrite list_lookup_insert_ne.
  - by rewrite length_insert.
Qed.

Lemma analysis_fills_masking_vector_of_layer_witness :
  ∃ flags,
    m_requires_masking_by_layer_and_op_index
      (analysed (discoverVaryingAndMaskingOfLayer id 10 layer_if_varying 1
                   (fresh_backend 3))) !! 1%nat = Some flags
    ∧ length flags = 6%nat.
Proof.
  destruct (analysis_fills_masking_vector_of_layer id 10 layer_if_varying
              1 (fresh_backend 3)
              (analysed (discoverVaryingAndMaskingOfLayer id 10
                           layer_if_varying 1 (fresh_backend 3))))
    as (_ & Hflags & _).
  - vm_compute. reflexivity.
  - exact Hflags.
Defined.

(** ** Where the walk stops *)

(** X6.  An op that has a jump target and is neither an [if], nor a loop,
    nor a function call stops the walk: when the first part of the loop
    body goes through, the walk ends at the assertion of the last
    [else], and otherwise with the error of that part. *)
Theorem unknown_op_with_jump_stops_walk fuel inst beginop endop blockDepth
    writeBlockDepth maskId writeMaskId st opcode :
  beginop < endop →
  op inst beginop = Ok opcode →
  jump opcode 0 >= 0 →
  opname opcode ≠ op_if → ¬ is_loop_op opcode →
  opname opcode ≠ op_functioncall →
  discoverSymbolsBetween (S fuel) inst beginop endop blockDepth
    writeBlockDepth maskId writeMaskId st
  = match discover_op_begin inst opcode beginop blockDepth writeBlockDepth
            maskId writeMaskId st with
    | Ok _ => Err AssertionFailed
    | Err e => Err e
    end.
Proof.
  intros Hrange Hop Hjump Hif Hloop Hcall.
  cbn [discoverSymbolsBetween]. rewrite decide_True by done.
  rewrite Hop. cbn [mbind result_bind].
  destruct (discover_op_begin _ _ _ _ _ _ _ _) as [[[reads writes] st1]|e];
    [|done].
  cbn [mbind result_bind].
  rewrite (decide_True (P := jump opcode 0 >= 0)) by done.
  rewrite (decide_False (P := opname opcode = op_if)) by done.
  rewrite (decide_False (P := is_loop_op opcode)) by done.
  by rewrite (decide_False (P := opname opcode = op_functioncall)) by done.
Qed.

Lemma unknown_op_with_jump_stops_walk_witness :
  discoverSymbolsBetween 5 layer_unknown_jump 0 1 0 0 0 0
    (initial_walk_state ∅ [false])
  = Err AssertionFailed.
Proof.
  apply (unknown_op_with_jump_stops_walk 4 layer_unknown_jump 0 1 0 0 0 0
           (initial_walk_state ∅ [false]) (mk_op "useparam" [rd 0%nat] [1])).
  - lia.
  - reflexivity.
  - vm_compute. discriminate.
  - discriminate.
  - vm_compute. intros [H|[H|H]]; discriminate H.
  - discriminate.
Defined.

(** X7.  The walk never returns from a range whose first op is an [if]
    or a loop with nested blocks that does not read exactly one symbol:
    the push of the condition asserts [symbolsRead == 1]. *)
Theorem condition_op_needs_single_read fuel inst beginop endop blockDepth
    writeBlockDepth maskId writeMaskId st opcode :
  beginop < endop →
  op inst beginop = Ok opcode →
  jump opcode 0 >= 0 →
  opname opcode = op_if ∨ is_loop_op opcode →
  length (filter (λ a, argread a = true) (args opcode)) ≠ 1%nat →
  ∀ st', discoverSymbolsBetween fuel inst beginop endop blockDepth
           writeBlockDepth maskId writeMaskId st ≠ Ok st'.
Proof.
  intros Hrange Hop Hjump Hkind Hreads st' Hrun.
  destruct fuel as [|fuel]; [done|].
  cbn [discoverSymbolsBetween] in Hrun.
  rewrite decide_True, Hop in Hrun by done. cbn [mbind result_bind] in Hrun.
  bind_ok Hrun as [[reads writes] st1] Hbegin.
  bind_ok Hrun as st2 Hjumps. clear Hrun.
  apply discover_op_begin_spec in Hbegin as (-> & _).
  rewrite (decide_True (P := jump opcode 0 >= 0)) in Hjumps by done.
  assert (∀ s s', pushSymbolsCurentBlockDependsOn
                    (argsym <$> filter (λ a, argread a = true)
                                  (args opcode)) s ≠ Ok s') as Hpush.
  { intros s s' (c & Hc & _)%push_conds_shape.
    apply (f_equal length) in Hc. by rewrite length_fmap in Hc. }
  destruct (decide (opname opcode = op_if)).
  - bind_ok Hjumps as s1 Hs1. by apply Hpush in Hs1.
  - destruct Hkind as [?|Hloop]; [done|].
    rewrite (decide_True (P := is_loop_op opcode)) in Hjumps by done.
    bind_ok Hjumps as s1 Hinit. cbn [fresh_mask] in Hjumps.
    bind_ok Hjumps as s2 Hs2. by apply Hpush in Hs2.
Qed.

Lemma condition_op_needs_single_read_witness :
  returned (discoverSymbolsBetween 5 layer_if_two_reads 0 1 0 0 0 0
              (initial_walk_state ∅ [false])) = false.
Proof.
  destruct (discoverSymbolsBetween 5 layer_if_two_reads 0 1 0 0 0 0
              (initial_walk_state ∅ [false])) as [st'|e] eqn:Hrun.
  - exfalso.
    apply (condition_op_needs_single_read 5 layer_if_two_reads 0 1 0 0 0 0
             (initial_walk_state ∅ [false])
             (mk_op "if" [rd 0%nat; rd 1%nat] [1; 1])) with (st' := st').
    + lia.
    + reflexivity.
    + vm_compute. discriminate.
    + left. reflexivity.
    + vm_compute. lia.
    + exact Hrun.
  - reflexivity.
Defined.

(** X8.  The walk never returns from a range that starts with a [break]
    while the loop-control stack is empty: the [break] case asserts that
    the stack is not empty. *)
Theorem break_outside_loop_never_returns fuel inst beginop endop blockDepth
    writeBlockDepth maskId writeMaskId st opcode :
  beginop < endop →
  op inst beginop = Ok opcode →
  opname opcode = op_break →
  loopControlFlowSymbolStack st = [] →
  ∀ st', discoverSymbolsBetween fuel inst beginop endop blockDepth
           writeBlockDepth maskId writeMaskId st ≠ Ok st'.
Proof.
  intros Hrange Hop Hbreak Hstack st' Hrun.
  destruct fuel as [|fuel]; [done|].
  cbn [discoverSymbolsBetween] in Hrun.
  rewrite decide_True, Hop in Hrun by done. cbn [mbind result_bind] in Hrun.
  bind_ok Hrun as [[reads writes] st1] Hbegin.
  bind_ok Hrun as st2 Hjumps. bind_ok Hrun as st3 Hend. clear Hrun.
  apply discover_op_begin_spec in Hbegin
    as (_ & _ & _ & _ & _ & _ & _ & _ & [_ Hloops] & _).
  assert (loopControlFlowSymbolStack st2 = []) as Hst2.
  { destruct (decide (jump opcode 0 >= 0)).
    - destruct (decide (opname opcode = op_if)) as [Hif|_];
        [by rewrite Hbreak in Hif|].
      destruct (decide (is_loop_op opcode)) as [[H|[H|H]]|_];
        [by rewrite Hbreak in H..|].
      destruct (decide (opname opcode = op_functioncall)) as [H|_];
        [by rewrite Hbreak in H|done].
    - injection Hjumps as <-. congruence. }
  unfold discover_op_end in Hend. bind_ok Hend as st4 Hbr.
  rewrite decide_True in Hbr by done.
  unfold discover_break in Hbr. by rewrite Hst2 in Hbr.
Qed.

Lemma break_outside_loop_never_returns_witness :
  returned (discoverSymbolsBetween 5 layer_stray_break 1 2 1 1 1 1
              (set_stacks [0%nat] []
                 (initial_walk_state ∅ [false; false]))) = false.
Proof.
  destruct (discoverSymbolsBetween 5 layer_stray_break 1 2 1 1 1 1
              (set_stacks [0%nat] []
                 (initial_walk_state ∅ [false; false])))
    as [st'|e] eqn:Hrun.
  - exfalso.
    apply (break_outside_loop_never_returns 5 layer_stray_break 1 2 1 1 1
             1 (set_stacks [0%nat] []
                  (initial_walk_state ∅ [false; false]))
             (mk_op "break" [] [])) with (st' := st').
    + lia.
    + reflexivity.
    + reflexivity.
    + reflexivity.
    + exact Hrun.
  - reflexivity.
Defined.

(** ** Where the edges of the feed-forward map end *)

Lemma last_elem_of {A} (l : list A) x : last l = Some x → x ∈ l.
Proof.
  intros Hlast. apply last_Some in Hlast as [l' ->].
  apply elem_of_app. right. apply list_elem_of_here.
Qed.

Lemma discover_op_begin_targets inst opcode opIndex blockDepth
    writeBlockDepth maskId writeMaskId st reads writes st' :
  opcode ∈ ops inst →
  discover_op_begin inst opcode opIndex blockDepth writeBlockDepth maskId
    writeMaskId st = Ok (reads, writes, st') →
  walk_targets inst st →
  walk_targets inst st'
  ∧ (∀ w, w ∈ writes → written_by_op inst w)
  ∧ (is_loop_op opcode → ∀ c, c ∈ reads → read_by_loop_op inst c).
Proof.
  intros Hin Hrun [T1 T2 T3]. apply discover_op_begin_spec in Hrun
    as (-> & -> & _ & Hfeeds & _ & _ & Hget & _ & [_ Hloops] & _).
  assert (∀ w, w ∈ argsym <$> filter (λ a, argwrite a = true) (args opcode)
               → written_by_op inst w) as Hwritten.
  { intros w (a & -> & [Hw Ha]%list_elem_of_filter)%list_elem_of_fmap.
    by exists opcode, a. }
  split_and!; [split| |].
  - intros u v [?|(Hv & _)]%Hfeeds; [eauto|]. left. by apply Hwritten.
  - intros c. rewrite Hloops. apply T2.
  - intros w. rewrite Hget. apply T3.
  - done.
  - intros Hloop c
      (a & -> & [Hr Ha]%list_elem_of_filter)%list_elem_of_fmap.
    by exists opcode, a.
Qed.

Lemma discover_op_end_targets inst opcode writes opIndex writeBlockDepth
    writeMaskId st st' :
  (∀ w, w ∈ writes → written_by_op inst w) →
  discover_op_end opcode writes opIndex writeBlockDepth writeMaskId st
  = Ok st' →
  walk_targets inst st → walk_targets inst st'.
Proof.
  unfold discover_op_end. intros Hwrites Hrun Hst.
  bind_ok Hrun as st1 Hbreak. injection Hrun as <-.
  assert (walk_targets inst st1) as [T1 T2 T3].
  { destruct (decide (opname opcode = op_break));
      [|by injection Hbreak as <-].
    destruct Hst as [T1 T2 T3].
    pose proof Hbreak as Hshape. unfold discover_break in Hbreak.
    destruct (last (loopControlFlowSymbolStack st))
      as [loopCondition|] eqn:Hlast; [|done].
    destruct (after_first loopCondition (symbolsCurrentBlockDependsOn st))
      as [inner|] eqn:Hinner; [|done].
    destruct (discover_break_feeds writeBlockDepth writeMaskId opIndex st
                loopCondition inner Hlast Hinner)
      as (st1' & Hrun' & Hfeeds & _).
    rewrite Hshape in Hrun'. injection Hrun' as <-.
    apply discover_break_shape in Hshape as (_ & _ & Hget & _ & [_ Hloops]).
    split.
    - intros u v. rewrite Hfeeds, elem_of_app, list_elem_of_fmap.
      intros [?|(c & [= -> ->] & _)]; [eauto|].
      right. by apply T2, last_elem_of.
    - intros c. rewrite Hloops. apply T2.
    - intros w. rewrite Hget. apply T3. }
  destruct (decide (opname opcode = op_getattribute)); [|done].
  split; cbn; [done..|]. intros w Hw.
  assert (w ∈ symbolsWrittenToByGetAttribute st1 ∨ w ∈ writes) as [?|?];
    [|auto..].
  revert Hw. rewrite ?elem_of_app. tauto.
Qed.

Lemma set_stacks_targets inst conds loops st :
  (∀ c, c ∈ loops → read_by_loop_op inst c) →
  walk_targets inst st → walk_targets inst (set_stacks conds loops st).
Proof. intros Hloops [T1 T2 T3]. by split. Qed.

Lemma fresh_mask_targets inst st :
  walk_targets inst st → walk_targets inst (fresh_mask st).2.
Proof. intros [T1 T2 T3]. by split. Qed.

Lemma ensure_targets inst symbolToCheck blockDepth maskId st st' :
  ensureWritesAtLowerDepthAreMasked symbolToCheck blockDepth maskId st
  = Ok st' →
  walk_targets inst st → walk_targets inst st'.
Proof.
  intros (_ & Hfeeds & Hget & _ & [_ Hloops] & _)%ensure_shape [T1 T2 T3].
  split.
  - intros u v. rewrite Hfeeds. apply T1.
  - intros c. rewrite Hloops. apply T2.
  - intros w. rewrite Hget. apply T3.
Qed.

Lemma op_elem_of inst i opcode : op inst i = Ok opcode → opcode ∈ ops inst.
Proof.
  unfold op. destruct (decide (0 ≤ i)); [|done].
  destruct (ops inst !! Z.to_nat i) as [o|] eqn:Hlookup; [|done].
  intros [= <-]. by eapply list_elem_of_lookup_2.
Qed.

Lemma discoverSymbolsBetween_targets inst fuel :
  ∀ beginop endop blockDepth writeBlockDepth maskId writeMaskId st st',
    discoverSymbolsBetween fuel inst beginop endop blockDepth
      writeBlockDepth maskId writeMaskId st = Ok st' →
    walk_targets inst st → walk_targets inst st'.
Proof.
  induction fuel as [|fuel IH];
    intros beginop endop blockDepth writeBlockDepth maskId writeMaskId
           st st' Hrun Hst; [done|].
  cbn [discoverSymbolsBetween] in Hrun.
  destruct (decide (beginop < endop)); [|by injection Hrun as <-].
  bind_ok Hrun as opcode Hop.
  bind_ok Hrun as [[reads writes] st1] Hbegin.
  bind_ok Hrun as st2 Hjumps.
  bind_ok Hrun as st3 Hend.
  apply op_elem_of in Hop.
  eapply discover_op_begin_targets in Hbegin as (Hst1 & Hwrites & Hreads);
    [|done..].
  eapply IH; [exact Hrun|]. clear Hrun.
  eapply discover_op_end_targets; [exact Hwrites|exact Hend|]. clear Hend.
  destruct (decide (jump opcode 0 >= 0)); [|by injection Hjumps as <-].
  destruct (decide (opname opcode = op_if)).
  { bind_ok Hjumps as s1 Hpush. cbn [fresh_mask] in Hjumps.
    bind_ok Hjumps as s2 Hthen. bind_ok Hjumps as s3 Helse.
    apply push_conds_shape in Hpush as (c & -> & ->).
    apply pop_conds_shape in Hjumps as ->.
    apply IH in Hthen.
    2: { apply (fresh_mask_targets inst
                  (set_stacks _ (loopControlFlowSymbolStack st1) st1)).
         apply set_stacks_targets; [|done]. by destruct Hst1. }
    apply IH in Helse; [|by apply (fresh_mask_targets inst s2)].
    apply set_stacks_targets; [|done]. by destruct Helse. }
  destruct (decide (is_loop_op opcode)) as [Hloop|].
  { bind_ok Hjumps as s1 Hinit. cbn [fresh_mask] in Hjumps.
    bind_ok Hjumps as s2 Hpush. bind_ok Hjumps as s3 Hpushl.
    bind_ok Hjumps as s4 Hbody. bind_ok Hjumps as s5 Hstep.
    bind_ok Hjumps as s6 Hcond. bind_ok Hjumps as condition Harg.
    bind_ok Hjumps as s7 Hens. bind_ok Hjumps as s8 Hpop.
    apply IH in Hinit; [|done].
    apply push_conds_shape in Hpush as (c & -> & ->).
    apply push_loop_shape in Hpushl as (c' & [= <-] & ->).
    apply pop_conds_shape in Hpop as ->.
    apply pop_loop_shape in Hjumps as ->.
    apply IH in Hbody.
    2: { apply set_stacks_targets.
         - cbn. intros x [Hx| ->%list_elem_of_singleton]%elem_of_app.
           + by apply Hinit.
           + apply Hreads; [done|]. apply list_elem_of_here.
         - apply set_stacks_targets; [by destruct Hinit|].
           by apply (fresh_mask_targets inst s1). }
    apply IH in Hstep; [|done]. apply IH in Hcond; [|done].
    eapply ensure_targets in Hens; [|done].
    apply set_stacks_targets.
    - cbn. intros x Hx%elem_of_removelast. by apply Hens.
    - apply set_stacks_targets; [by destruct Hens|done]. }
  destruct (decide (opname opcode = op_functioncall)); [|done].
  by eapply IH.
Qed.

Lemma layer_walk_targets fuel inst layer b st :
  discoverVaryingAndMaskingOfLayer_walk fuel inst layer b = Ok st →
  walk_targets inst st.
Proof.
  unfold discoverVaryingAndMaskingOfLayer_walk. intros Hrun.
  bind_ok Hrun as [] Hlen. bind_ok Hrun as flags Hflags.
  bind_ok Hrun as [] Hempty. cbn [fresh_mask] in Hrun.
  bind_ok Hrun as st1 Hsyms. bind_ok Hrun as st2 Hparams.
  bind_ok Hrun as st3 Hmain.
  eapply (foldM_inv (walk_targets inst)); [|exact Hrun|].
  { intros s t t' _ Hs Ht. cbn beta in Hs.
    destruct (checks_output_param s.2); [|by injection Hs as <-].
    by eapply ensure_targets. }
  eapply discoverSymbolsBetween_targets; [exact Hmain|].
  eapply (foldM_inv (walk_targets inst)); [|exact Hparams|].
  { intros s t t' _ Hs Ht. cbn beta in Hs.
    destruct (walks_param_init inst s.2); [|by injection Hs as <-].
    by eapply discoverSymbolsBetween_targets. }
  eapply (foldM_inv (walk_targets inst)); [|exact Hsyms|].
  { intros s t t' _ Hs Ht. cbn beta in Hs.
    destruct (walks_symbol_init inst s); [|by injection Hs as <-].
    by eapply discoverSymbolsBetween_targets. }
  split; cbn; intros *; by rewrite ?elem_of_nil.
Qed.

Lemma analysis_Ok_walk order fuel inst layer b b' :
  discoverVaryingAndMaskingOfLayer order fuel inst layer b = Ok b' →
  ∃ st, discoverVaryingAndMaskingOfLayer_walk fuel inst layer b = Ok st.
Proof.
  unfold discoverVaryingAndMaskingOfLayer. intros Hrun.
  bind_ok Hrun as st Hwalk. eauto.
Qed.

(** X9.  After an analysis that started from an empty table, every output
    parameter of the layer is in the table as varying, whatever the ops
    of the layer do with it, and [isSymbolUniform] answers [false] for
    it. *)
Theorem output_params_varying_after_analysis order fuel inst layer b b'
    p sym :
  iterates order →
  m_is_uniform_by_symbol b = ∅ →
  discoverVaryingAndMaskingOfLayer order fuel inst layer b = Ok b' →
  (p, sym) ∈ params inst →
  symtype sym = SymTypeOutputParam →
  m_is_uniform_by_symbol b' !! p = Some false
  ∧ isSymbolUniform b' p sym = Ok false.
Proof.
  intros Horder Hfresh Hrun Hparam Hout.
  destruct (analysis_Ok_walk _ _ _ _ _ _ Hrun) as [st Hwalk].
  destruct (analysis_spec order fuel inst layer b st Horder Hfresh Hwalk)
    as (b'' & Hrun' & _ & Hfalse & _).
  rewrite Hrun in Hrun'. injection Hrun' as <-.
  assert (m_is_uniform_by_symbol b' !! p = Some false) as Hp.
  { apply Hfalse. exists p. split; [|done]. right. left. eauto. }
  split; [done|]. unfold isSymbolUniform.
  rewrite bool_decide_eq_false_2; [by rewrite Hp|].
  intros Hempty. by rewrite Hempty in Hp.
Qed.

Lemma output_params_varying_after_analysis_witness :
  isSymbolUniform
    (analysed (discoverVaryingAndMaskingOfLayer reversed 10
                 layer_if_varying 0 (fresh_backend 1)))
    6%nat (mk_symbol "Cout" SymTypeOutputParam false) = Ok false.
Proof.
  destruct (output_params_varying_after_analysis reversed 10
              layer_if_varying 0 (fresh_backend 1)
              (analysed (discoverVaryingAndMaskingOfLayer reversed 10
                           layer_if_varying 0 (fresh_backend 1)))
              6%nat (mk_symbol "Cout" SymTypeOutputParam false))
    as [_ Hquery].
  - exact iterates_reversed.
  - reflexivity.
  - vm_compute. reflexivity.
  - vm_compute. repeat constructor.
  - reflexivity.
  - exact Hquery.
Defined.

(** X10.  The analysis marks no bystander: a symbol whose seed decision
    is "uniform", that is no output parameter, that no op of the layer
    writes and that no loop op reads as its condition is not varying
    after an analysis from an empty table, and [isSymbolUniform] answers
    [true] for it once the table has an entry. *)
Theorem unwritten_symbol_stays_uniform order fuel inst layer b b' x sym :
  iterates order →
  m_is_uniform_by_symbol b = ∅ →
  discoverVaryingAndMaskingOfLayer order fuel inst layer b = Ok b' →
  symbol inst x = Some sym →
  seed_is_uniform sym = true →
  symtype sym ≠ SymTypeOutputParam →
  ¬ written_by_op inst x →
  ¬ read_by_loop_op inst x →
  m_is_uniform_by_symbol b' !! x ≠ Some false
  ∧ (m_is_uniform_by_symbol b' ≠ ∅ → isSymbolUniform b' x sym = Ok true).
Proof.
  intros Horder Hfresh Hrun Hsym Hseed Hout Hwritten Hloop.
  destruct (analysis_Ok_walk _ _ _ _ _ _ Hrun) as [st Hwalk].
  destruct (analysis_spec order fuel inst layer b st Horder Hfresh Hwalk)
    as (b'' & Hrun' & _ & Hfalse & _).
  rewrite Hrun in Hrun'. injection Hrun' as <-.
  destruct (layer_walk_targets _ _ _ _ _ Hwalk) as [T1 T2 T3].
  assert (m_is_uniform_by_symbol b' !! x ≠ Some false) as Hx.
  { intros (seed & Hs & Hpath)%Hfalse.
    apply rtc_inv_r in Hpath as [->|(y & _ & Hedge)].
    - destruct Hs as [(_ & sym' & Hsym' & Hseed')|[(sym' & Hp & Ho)|Hget]].
      + congruence.
      + apply params_symbol in Hp. congruence.
      + by apply Hwritten, T3.
    - destruct (T1 y x Hedge); auto. }
  split; [done|]. intros Hne. unfold isSymbolUniform.
  rewrite bool_decide_eq_false_2 by done. cbn [ASSERT mbind result_bind negb].
  destruct (m_is_uniform_by_symbol b' !! x) as [[]|]; [done|done|].
  by rewrite decide_False.
Qed.

Lemma unwritten_symbol_stays_uniform_witness :
  isSymbolUniform
    (analysed (discoverVaryingAndMaskingOfLayer reversed 10
                 layer_if_varying 0 (fresh_backend 1)))
    3%nat (mk_symbol "one" SymTypeConst false) = Ok true.
Proof.
  destruct (unwritten_symbol_stays_uniform reversed 10 layer_if_varying 0
              (fresh_backend 1)
              (analysed (discoverVaryingAndMaskingOfLayer reversed 10
                           layer_if_varying 0 (fresh_backend 1)))
              3%nat (mk_symbol "one" SymTypeConst false))
    as [_ Hquery].
  - exact iterates_reversed.
  - reflexivity.
  - vm_compute. reflexivity.
  - reflexivity.
  - reflexivity.
  - discriminate.
  - apply (bool_decide_eq_false_1 (written_by_op layer_if_varying 3%nat)).
    vm_compute. reflexivity.
  - apply (bool_decide_eq_false_1 (read_by_loop_op layer_if_varying 3%nat)).
    vm_compute. reflexivity.
  - apply Hquery. vm_compute. discriminate.
Defined.

(** ** The masking query *)

Lemma size_t_of_int_nonneg i : 0 ≤ i < 2 ^ 64 → size_t_of_int i = i.
Proof. intros Hi. unfold size_t_of_int. by apply Z.mod_small. Qed.

Lemma size_t_of_int_neg i : - 2 ^ 64 ≤ i < 0 → size_t_of_int i = i + 2 ^ 64.
Proof.
  intros Hi. unfold size_t_of_int.
  rewrite <- (Z.mod_add i 1 (2 ^ 64)) by lia.
  apply Z.mod_small. lia.
Qed.

Lemma requiresMasking_spec b layer flags opIndex :
  m_requires_masking_by_layer_and_op_index b !! layer = Some flags →
  - 2 ^ 31 ≤ opIndex < 2 ^ 31 →
  Z.of_nat (length flags) < 2 ^ 63 →
  requiresMasking b layer opIndex
  = if decide (0 ≤ opIndex < Z.of_nat (length flags))
    then Ok (default false (flags !! Z.to_nat opIndex))
    else Err AssertionFailed.
Proof.
  intros Hlayer Hint Hsize. unfold requiresMasking. rewrite Hlayer.
  cbn [mbind result_bind].
  destruct (decide (flags = [])) as [->|Hne].
  { rewrite decide_False by (cbn; lia).
    by rewrite (bool_decide_eq_true_2 (@nil bool = [])) by done. }
  rewrite (bool_decide_eq_false_2 (flags = [])) by done.
  cbn [negb ASSERT mbind result_bind].
  destruct (decide (0 ≤ opIndex)) as [Hpos|Hneg].
  - rewrite size_t_of_int_nonneg by lia.
    destruct (decide (0 ≤ opIndex < Z.of_nat (length flags))) as [Hin|Hout].
    + rewrite bool_decide_eq_true_2 by lia. cbn [ASSERT mbind result_bind].
      destruct (lookup_lt_is_Some_2 flags (Z.to_nat opIndex)) as [r Hr];
        [lia|]. by rewrite Hr.
    + by rewrite bool_decide_eq_false_2 by lia.
  - rewrite size_t_of_int_neg by lia.
    rewrite decide_False by lia.
    by rewrite bool_decide_eq_false_2 by lia.
Qed.

(** X11.  [requiresMasking] answers with the flag of the op for an op
    index inside the masking vector of the layer and stops at one of its
    two assertions otherwise: a negative index, taken as a [size_t] by
    the comparison with the size, is never below the size, and an empty
    vector fails for every index. *)
Theorem requiresMasking_answers_inside_vector b layer flags opIndex :
  m_requires_masking_by_layer_and_op_index b !! layer = Some flags →
  - 2 ^ 31 ≤ opIndex < 2 ^ 31 →
  Z.of_nat (length flags) < 2 ^ 63 →
  (∀ requires, 0 ≤ opIndex → flags !! Z.to_nat opIndex = Some requires →
               requiresMasking b layer opIndex = Ok requires)
  ∧ (¬ (0 ≤ opIndex < Z.of_nat (length flags)) →
     requiresMasking b layer opIndex = Err AssertionFailed).
Proof.
  intros Hlayer Hint Hsize.
  rewrite (requiresMasking_spec b layer flags) by done. split.
  - intros requires Hpos Hflag. pose proof (lookup_lt_Some _ _ _ Hflag).
    rewrite decide_True by lia. by rewrite Hflag.
  - intros Hout. by rewrite decide_False.
Qed.

Lemma requiresMasking_answers_inside_vector_witness :
  requiresMasking
    {| m_is_uniform_by_symbol := ∅;
       m_requires_masking_by_layer_and_op_index := [[false; true]] |}
    0 1 = Ok true
  ∧ requiresMasking
      {| m_is_uniform_by_symbol := ∅;
         m_requires_masking_by_layer_and_op_index := [[false; true]] |}
      0 (-1) = Err AssertionFailed.
Proof.
  split.
  - apply (requiresMasking_answers_inside_vector
             {| m_is_uniform_by_symbol := ∅;
                m_requires_masking_by_layer_and_op_index :=
                  [[false; true]] |} 0 [false; true] 1).
    + reflexivity.
    + lia.
    + simpl; lia.
    + lia.
    + reflexivity.
  - apply (requiresMasking_answers_inside_vector
             {| m_is_uniform_by_symbol := ∅;
                m_requires_masking_by_layer_and_op_index :=
                  [[false; true]] |} 0 [false; true] (-1)).
    + reflexivity.
    + lia.
    + simpl; lia.
    + simpl; lia.
Defined.

(** X12.  After an analysis that returned, [requiresMasking] for the
    layer returns for the indices of the ops of the layer and for these
    only: every other index, and every index when the layer has no op,
    stops at an assertion. *)
Theorem requiresMasking_after_analysis order fuel inst layer b b' opIndex :
  discoverVaryingAndMaskingOfLayer order fuel inst layer b = Ok b' →
  - 2 ^ 31 ≤ opIndex < 2 ^ 31 →
  Z.of_nat (length (ops inst)) < 2 ^ 31 →
  (0 ≤ opIndex < Z.of_nat (length (ops inst))
   → ∃ requires, requiresMasking b' layer opIndex = Ok requires)
  ∧ (¬ (0 ≤ opIndex < Z.of_nat (length (ops inst)))
     → requiresMasking b' layer opIndex = Err AssertionFailed).
Proof.
  unfold discoverVaryingAndMaskingOfLayer. intros Hrun Hint Hsize.
  bind_ok Hrun as st Hwalk. bind_ok Hrun as tbl Hprop.
  injection Hrun as <-.
  pose proof (walk_Ok_flags _ _ _ _ _ Hwalk) as Hlayer.
  apply layer_walk_kept in Hwalk as (_ & _ & [Hlen _] & _).
  cbn in Hlen. rewrite length_replicate in Hlen.
  rewrite (requiresMasking_spec _ layer (requires_masking_by_op_index st));
    [|by apply list_lookup_insert_eq|done|lia].
  rewrite Hlen. split.
  - intros Hin. rewrite decide_True by done. eauto.
  - intros Hout. by rewrite decide_False.
Qed.

Lemma requiresMasking_after_analysis_witness :
  (∃ requires,
     requiresMasking
       (analysed (discoverVaryingAndMaskingOfLayer id 10 layer_if_varying 0
                    (fresh_backend 1))) 0 5 = Ok requires)
  ∧ requiresMasking
      (analysed (discoverVaryingAndMaskingOfLayer id 10 layer_if_varying 0
                   (fresh_backend 1))) 0 6 = Err AssertionFailed.
Proof.
  split.
  - apply (requiresMasking_after_analysis id 10 layer_if_varying 0
             (fresh_backend 1)
             (analysed (discoverVaryingAndMaskingOfLayer id 10
                          layer_if_varying 0 (fresh_backend 1))) 5).
    + vm_compute. reflexivity.
    + lia.
    + simpl; lia.
    + simpl; lia.
  - apply (requiresMasking_after_analysis id 10 layer_if_varying 0
             (fresh_backend 1)
             (analysed (discoverVaryingAndMaskingOfLayer id 10
                          layer_if_varying 0 (fresh_backend 1))) 6).
    + vm_compute. reflexivity.
    + lia.
    + simpl; lia.
    + simpl; lia.
Defined.

(** ** The stack of loop conditions *)

Lemma pop_push_varying_loop_condition condition g :
  pop_varying_loop_condition (push_varying_loop_condition condition g)
  = Ok {| m_generated_loops_condition_stack :=
            m_generated_loops_condition_stack g;
          ll_calls := ll_calls g
                      ++ match condition with
                         | Some _ => [clear_mask_break]
                         | None => []
                         end |}.
Proof.
  unfold pop_varying_loop_condition, push_varying_loop_condition. cbn.
  rewrite last_snoc, removelast_snoc.
  destruct condition; [done|]. by rewrite app_nil_r.
Qed.

Lemma push_varying_loop_conditions_stack conditions g :
  push_varying_loop_conditions conditions g
  = {| m_generated_loops_condition_stack :=
         m_generated_loops_condition_stack g ++ conditions;
       ll_calls := ll_calls g |}.
Proof.
  unfold push_varying_loop_conditions. revert g.
  induction conditions as [|condition conditions IH]; intros g.
  - destruct g. cbn. by rewrite app_nil_r.
  - cbn [fold_left]. rewrite IH. cbn. by rewrite <- app_assoc.
Qed.

Lemma pop_varying_loop_conditions_pushed conditions :
  ∀ stack calls,
    pop_varying_loop_conditions (length conditions)
      {| m_generated_loops_condition_stack := stack ++ conditions;
         ll_calls := calls |}
    = Ok {| m_generated_loops_condition_stack := stack;
            ll_calls :=
              calls ++ replicate (length (filter is_Some conditions))
                         clear_mask_break |}.
Proof.
  induction conditions as [|condition conditions IH] using rev_ind;
    intros stack calls.
  { rewrite app_nil_r. cbn. by rewrite app_nil_r. }
  rewrite length_app, Nat.add_1_r. cbn [pop_varying_loop_conditions].
  unfold pop_varying_loop_condition. cbn.
  rewrite app_assoc, last_snoc, removelast_snoc. cbn [mbind result_bind].
  rewrite IH, filter_app, length_app, Nat.add_comm, replicate_add.
  do 2 f_equal. destruct condition; cbn.
  - by rewrite <- app_assoc.
  - by rewrite decide_False by (by intros [? ?]).
Qed.

(** X13.  The stack of loop conditions is used last in, first out: after
    a push the innermost condition is the one pushed, and after the
    pushes for nested loops as many pops as pushes give back the stack as
    it was; [ll.clear_mask_break] has then been called once for every
    condition that was not null, and for no other. *)
Theorem loop_conditions_round_trip conditions g :
  (∀ condition, varying_condition_of_innermost_loop
                  (push_varying_loop_condition condition g) = Ok condition)
  ∧ pop_varying_loop_conditions (length conditions)
      (push_varying_loop_conditions conditions g)
    = Ok {| m_generated_loops_condition_stack :=
              m_generated_loops_condition_stack g;
            ll_calls :=
              ll_calls g
              ++ replicate (length (filter is_Some conditions))
                   clear_mask_break |}.
Proof.
  split.
  - intros condition. unfold varying_condition_of_innermost_loop. cbn.
    by rewrite last_snoc.
  - by rewrite push_varying_loop_conditions_stack,
         pop_varying_loop_conditions_pushed.
Qed.

(** X14.  On an empty stack of loop conditions both
    [varying_condition_of_innermost_loop] and [pop_varying_loop_condition]
    stop at their assertion, and on no other stack: there the pop takes
    away the condition that the query returns and leaves the conditions
    below it. *)
Theorem loop_conditions_empty_stack_asserts g :
  (m_generated_loops_condition_stack g = []
   → varying_condition_of_innermost_loop g = Err AssertionFailed
     ∧ pop_varying_loop_condition g = Err AssertionFailed)
  ∧ (m_generated_loops_condition_stack g ≠ []
     → ∃ condition g',
         varying_condition_of_innermost_loop g = Ok condition
         ∧ pop_varying_loop_condition g = Ok g'
         ∧ m_generated_loops_condition_stack g
           = m_generated_loops_condition_stack g' ++ [condition]).
Proof.
  unfold varying_condition_of_innermost_loop, pop_varying_loop_condition.
  split.
  - by intros ->.
  - intros Hne.
    destruct (m_generated_loops_condition_stack g)
      as [|condition stack _] using rev_ind; [done|].
    rewrite last_snoc. eexists condition, _. split_and!; [done..|].
    cbn. by rewrite removelast_snoc.
Qed.

Lemma loop_conditions_empty_stack_asserts_witness :
  pop_varying_loop_condition
    {| m_generated_loops_condition_stack := []; ll_calls := [] |}
  = Err AssertionFailed
  ∧ ∃ g', pop_varying_loop_condition two_loops = Ok g'
          ∧ m_generated_loops_condition_stack two_loops
            = m_generated_loops_condition_stack g' ++ [Some 2%nat].
Proof.
  split.
  - apply (loop_conditions_empty_stack_asserts
             {| m_generated_loops_condition_stack := [];
                ll_calls := [] |}).
    reflexivity.
  - destruct (loop_conditions_empty_stack_asserts two_loops)
      as [_ Hpop].
    destruct Hpop as (condition & g' & Hinner & Hpop & Hstack).
    + discriminate.
    + injection Hinner as <-. exists g'. split; [exact Hpop|exact Hstack].
Defined.

(** ** The index of a shader global *)

Lemma ShaderGlobalNameToIndex_from_absent tbl i nm is_uniform :
  nm ∉ tbl.*1 →
  ShaderGlobalNameToIndex_from tbl i nm is_uniform = (-1, is_uniform).
Proof.
  revert i. induction tbl as [|[f u] tbl IH]; intros i Hnm; [done|].
  cbn [ShaderGlobalNameToIndex_from]. rewrite fmap_cons in Hnm.
  apply not_elem_of_cons in Hnm as [Hne Hnm]. rewrite decide_False by done.
  by apply IH.
Qed.

Lemma ShaderGlobalNameToIndex_from_present tbl i nm is_uniform :
  nm ∈ tbl.*1 →
  ∃ k : nat,
    ShaderGlobalNameToIndex_from tbl i nm is_uniform
    = (i + Z.of_nat k, IsShaderGlobalUniformByName_from tbl nm)
    ∧ tbl !! k = Some (nm, IsShaderGlobalUniformByName_from tbl nm)
    ∧ ∀ j e, (j < k)%nat → tbl !! j = Some e → e.1 ≠ nm.
Proof.
  revert i. induction tbl as [|[f u] tbl IH]; intros i Hnm.
  { by apply elem_of_nil in Hnm. }
  cbn [ShaderGlobalNameToIndex_from IsShaderGlobalUniformByName_from].
  destruct (decide (nm = f)) as [->|Hne].
  - exists 0%nat. rewrite Z.add_0_r. split_and!; [done..|]. lia.
  - rewrite fmap_cons in Hnm. apply elem_of_cons in Hnm as [?|Hnm]; [done|].
    destruct (IH (i + 1) Hnm) as (k & Hrun & Hk & Hfirst).
    exists (S k). split_and!.
    + rewrite Hrun. f_equal. lia.
    + done.
    + intros [|j] e Hj He.
      * injection He as <-. cbn. congruence.
      * apply (Hfirst j); [lia|done].
Qed.

(** X15.  For a name of the table [fields], [ShaderGlobalNameToIndex]
    returns the index of the first entry with the name and writes to
    [is_uniform] what [IsShaderGlobalUniformByName] returns for the name,
    whatever the flag held before; the flag is [true] for the first ten
    entries of the table and [false] for the others. *)
Theorem ShaderGlobalNameToIndex_of_listed_name nm is_uniform :
  nm ∈ fields.*1 →
  ∃ k : nat,
    ShaderGlobalNameToIndex nm is_uniform
    = (Z.of_nat k, IsShaderGlobalUniformByName nm)
    ∧ fields !! k = Some (nm, IsShaderGlobalUniformByName nm)
    ∧ (k < length fields)%nat
    ∧ (IsShaderGlobalUniformByName nm = true ↔ (k < 10)%nat).
Proof.
  intros Hnm.
  destruct (ShaderGlobalNameToIndex_from_present fields 0 nm is_uniform Hnm)
    as (k & Hrun & Hk & _).
  exists k. unfold ShaderGlobalNameToIndex, IsShaderGlobalUniformByName.
  rewrite Hrun, Z.add_0_l. split_and!; [done|done|by eapply lookup_lt_Some|].
  revert Hk. generalize (IsShaderGlobalUniformByName_from fields nm).
  intros u Hk. unfold fields in Hk.
  do 10 (destruct k as [|k]; [injection Hk as <- <-; split; [lia|done]|]).
  do 18 (destruct k as [|k]; [injection Hk as <- <-; split; [done|lia]|]).
  done.
Qed.

Lemma ShaderGlobalNameToIndex_of_listed_name_witness :
  ∃ k : nat,
    ShaderGlobalNameToIndex "N" true
    = (Z.of_nat k, IsShaderGlobalUniformByName "N")
    ∧ fields !! k = Some ("N"%string, IsShaderGlobalUniformByName "N").
Proof.
  destruct (ShaderGlobalNameToIndex_of_listed_name "N" true)
    as (k & Hrun & Hk & _).
  - vm_compute. repeat constructor.
  - exists k. split; [exact Hrun|exact Hk].
Defined.

(** X16.  [ShaderGlobalNameToIndex] returns -1 exactly for the names that
    are not in the table [fields], and then leaves [is_uniform] as the
    caller had it. *)
Theorem ShaderGlobalNameToIndex_fails_iff_unlisted nm is_uniform :
  ((ShaderGlobalNameToIndex nm is_uniform).1 = -1 ↔ nm ∉ fields.*1)
  ∧ (nm ∉ fields.*1 →
     ShaderGlobalNameToIndex nm is_uniform = (-1, is_uniform)).
Proof.
  split; [split|].
  - intros Hrun Hnm.
    destruct (ShaderGlobalNameToIndex_from_present fields 0 nm is_uniform
                Hnm) as (k & Hk & _).
    unfold ShaderGlobalNameToIndex in Hrun. rewrite Hk in Hrun.
    cbn in Hrun. lia.
  - intros Hnm. unfold ShaderGlobalNameToIndex.
    by rewrite ShaderGlobalNameToIndex_from_absent.
  - apply ShaderGlobalNameToIndex_from_absent.
Qed.

Lemma ShaderGlobalNameToIndex_fails_iff_unlisted_witness :
  ShaderGlobalNameToIndex "Cs" true = (-1, true).
Proof.
  destruct (ShaderGlobalNameToIndex_fails_iff_unlisted "Cs" true)
    as [_ Hfails].
  apply Hfails.
  apply (bool_decide_eq_false_1 ("Cs"%string ∈ fields.*1)).
  vm_compute. reflexivity.
Defined.

(** X17.  The table [fields] names every field once: looking up the name
    of the entry at an index gives that index back, with the flag of the
    entry. *)
Theorem ShaderGlobalNameToIndex_of_field (k : nat) nm u is_uniform :
  fields !! k = Some (nm, u) →
  ShaderGlobalNameToIndex nm is_uniform = (Z.of_nat k, u).
Proof.
  unfold fields. intros Hk.
  do 28 (destruct k as [|k]; [by injection Hk as <- <-|]).
  done.
Qed.

Lemma ShaderGlobalNameToIndex_of_field_witness :
  ShaderGlobalNameToIndex "Ci" false = (5, true).
Proof.
  apply (ShaderGlobalNameToIndex_of_field 5 "Ci" true false).
  reflexivity.
Defined.

(** ** Layers without control flow *)

Lemma ensure_at_top_level symbolToCheck maskId st :
  writes_at_top_level st →
  ensureWritesAtLowerDepthAreMasked symbolToCheck 0 maskId st = Ok st.
Proof.
  intros Htop. unfold ensureWritesAtLowerDepthAreMasked.
  destruct (usageInfoBySymbol st !! symbolToCheck) as [info|] eqn:Hinfo;
    [|done].
  apply Htop in Hinfo. rewrite decide_False; [done|]. lia.
Qed.

Lemma discover_args_total inst l :
  (∀ a, a ∈ l → is_Some (symbol inst (argsym a))) →
  ∀ reads writes st, ∃ r, discover_args inst l reads writes st = Ok r.
Proof.
  induction l as [|a l IH]; intros Hvalid reads writes st; [by eexists|].
  cbn [discover_args]. unfold opargsym.
  destruct (Hvalid a) as [sym ->]; [apply list_elem_of_here|].
  cbn [mbind result_bind]. apply IH.
  intros a' Ha'. by apply Hvalid, list_elem_of_further.
Qed.

Lemma discover_reads_at_top_level reads writes maskId :
  ∀ st, writes_at_top_level st →
        ∃ st', discover_reads reads writes 0 maskId st = Ok st'
               ∧ usageInfoBySymbol st' = usageInfoBySymbol st
               ∧ requires_masking_by_op_index st'
                 = requires_masking_by_op_index st.
Proof.
  induction reads as [|r reads IH]; intros st Htop; [by eexists|].
  cbn [discover_reads].
  destruct (feed_into_writes_shape r writes st)
    as (_ & _ & Hflags & Husage & _).
  rewrite ensure_at_top_level.
  2: { intros s info. rewrite Husage. apply Htop. }
  cbn [mbind result_bind].
  destruct (IH (feed_into_writes r writes st)) as (st' & -> & ? & ?).
  { intros s info. rewrite Husage. apply Htop. }
  exists st'. split_and!; congruence.
Qed.

Lemma discover_op_begin_at_top_level inst opcode opIndex maskId st :
  (∀ a, a ∈ args opcode → is_Some (symbol inst (argsym a))) →
  writes_at_top_level st →
  ∃ reads writes st',
    discover_op_begin inst opcode opIndex 0 0 maskId maskId st
    = Ok (reads, writes, st')
    ∧ writes_at_top_level st'
    ∧ requires_masking_by_op_index st' = requires_masking_by_op_index st.
Proof.
  intros Hvalid Htop. unfold discover_op_begin.
  destruct (discover_args_total inst (args opcode) Hvalid [] [] st)
    as [[[reads writes] st1] Hargs].
  rewrite Hargs. cbn [mbind result_bind].
  apply discover_args_shape in Hargs
    as (_ & _ & _ & _ & A1 & _ & A3 & _).
  destruct (discover_reads_at_top_level reads writes maskId st1)
    as (st2 & -> & R1 & R2).
  { intros s info. rewrite A3. apply Htop. }
  cbn [mbind result_bind]. eexists _, _, _. split; [done|].
  set (st3 := discover_writes writes 0 maskId opIndex st2).
  destruct (discover_writes_shape writes 0 maskId opIndex st2 st3 eq_refl)
    as (W1 & W2 & _ & W4 & _).
  destruct (discover_block_dependencies_shape writes st3 _ eq_refl)
    as (_ & _ & B3 & B4 & _).
  split.
  - intros s info. rewrite B4. intros Hinfo.
    destruct (decide (s ∈ writes)) as [Hin|Hout].
    + destruct (W1 s Hin) as (info' & Hinfo' & Hdepth & _).
      rewrite Hinfo in Hinfo'. injection Hinfo' as <-. lia.
    + rewrite W2 in Hinfo by done. rewrite R1, A3 in Hinfo.
      by eapply Htop.
  - congruence.
Qed.

Lemma farthest_jump_bound opcode : jump opcode 0 ≤ farthest_jump opcode.
Proof. unfold farthest_jump. lia. Qed.

Lemma discoverSymbolsBetween_straight_line inst maskId :
  straight_line inst →
  ∀ fuel beginop endop st,
    0 ≤ beginop → endop ≤ Z.of_nat (length (ops inst)) →
    (Z.to_nat (endop - beginop) < fuel)%nat →
    writes_at_top_level st →
    ∃ st', discoverSymbolsBetween fuel inst beginop endop 0 0 maskId
             maskId st = Ok st'
           ∧ writes_at_top_level st'
           ∧ requires_masking_by_op_index st'
             = requires_masking_by_op_index st.
Proof.
  intros [Hops _ _]. induction fuel as [|fuel IH];
    intros beginop endop st Hbegin Hend Hfuel Htop; [lia|].
  cbn [discoverSymbolsBetween].
  destruct (decide (beginop < endop)); [|by eexists].
  unfold op. rewrite decide_True by done.
  destruct (lookup_lt_is_Some_2 (ops inst) (Z.to_nat beginop))
    as [opcode Hop]; [lia|].
  rewrite Hop. cbn [mbind result_bind].
  apply list_elem_of_lookup_2 in Hop.
  destruct (Hops opcode Hop) as (Hjump & Hbreak & Hvalid).
  pose proof (farthest_jump_bound opcode).
  destruct (discover_op_begin_at_top_level inst opcode beginop maskId st
              Hvalid Htop) as (reads & writes & st1 & -> & Htop1 & Hflags1).
  cbn [mbind result_bind]. rewrite decide_False by lia.
  cbn [mbind result_bind]. unfold discover_op_end.
  rewrite decide_False by done. cbn [mbind result_bind].
  unfold next_op. rewrite decide_False by lia.
  destruct (IH (beginop + 1) endop
              (if decide (opname opcode = op_getattribute)
               then add_getattribute_writes writes st1 else st1))
    as (st' & Hrun & Htop' & Hflags'); [lia..| |].
  { by destruct (decide (opname opcode = op_getattribute)). }
  exists st'. split_and!; [done..|].
  rewrite Hflags', <- Hflags1.
  by destruct (decide (opname opcode = op_getattribute)).
Qed.

Lemma foldM_total {A S} (P : S → Prop) (f : A → S → result S) l :
  (∀ a s, a ∈ l → P s → ∃ s', f a s = Ok s' ∧ P s') →
  ∀ s, P s → ∃ s', foldM f l s = Ok s' ∧ P s'.
Proof.
  induction l as [|a l IH]; intros Hf s Hs; [by eexists|].
  cbn [foldM]. destruct (Hf a s) as (s1 & -> & Hs1);
    [apply list_elem_of_here|done|].
  cbn [mbind result_bind]. apply IH; [|done].
  intros a' s' Ha'. apply Hf. by apply list_elem_of_further.
Qed.

Lemma layer_walk_straight_line fuel inst layer b :
  straight_line inst →
  m_requires_masking_by_layer_and_op_index b !! layer = Some [] →
  (length (ops inst) < fuel)%nat →
  ∃ st, discoverVaryingAndMaskingOfLayer_walk fuel inst layer b = Ok st
        ∧ requires_masking_by_op_index st
          = replicate (length (ops inst)) false.
Proof.
  intros Hsl Hlayer Hfuel. pose proof Hsl as [_ [Hmain1 Hmain2] Hinit].
  unfold discoverVaryingAndMaskingOfLayer_walk.
  rewrite bool_decide_eq_true_2 by (by eapply lookup_lt_Some).
  rewrite Hlayer. cbn [mbind result_bind ASSERT].
  rewrite bool_decide_eq_true_2 by done.
  cbn [mbind result_bind ASSERT fresh_mask]. rewrite resize_nil.
  cbn [nextMaskId initial_walk_state].
  set (P := λ st, writes_at_top_level st
                  ∧ requires_masking_by_op_index st
                    = replicate (length (ops inst)) false).
  assert (∀ beginop endop st,
            0 ≤ beginop → endop ≤ Z.of_nat (length (ops inst)) → P st →
            ∃ st', discoverSymbolsBetween fuel inst beginop endop 0 0 0 0 st
                   = Ok st' ∧ P st') as Hwalk.
  { intros beginop endop st Hbegin Hend [Htop Hflags].
    destruct (discoverSymbolsBetween_straight_line inst 0 Hsl fuel beginop
                endop st) as (st' & Hrun & Htop' & Hflags');
      [done|done|lia|done|].
    exists st'. split; [done|]. split; [done|congruence]. }
  match goal with
  | |- context [foldM ?f (symbols inst) ?s0] =>
      assert (∃ s', foldM f (symbols inst) s0 = Ok s' ∧ P s')
        as (st1 & -> & Hst1)
  end.
  { apply foldM_total.
    - intros s st Hs Hst.
      destruct (walks_symbol_init inst s); [|by eexists].
      destruct (Hinit s Hs). by apply Hwalk.
    - split; [|done]. intros s info. cbn. by rewrite lookup_empty. }
  cbn [mbind result_bind].
  match goal with
  | |- context [foldM ?f (params inst) st1] =>
      assert (∃ s', foldM f (params inst) st1 = Ok s' ∧ P s')
        as (st2 & -> & Hst2)
  end.
  { apply foldM_total; [|done]. intros [p s] st Hs Hst. cbn [snd].
    destruct (walks_param_init inst s); [|by eexists].
    destruct (Hinit s); [by eapply params_elem|]. by apply Hwalk. }
  cbn [mbind result_bind].
  destruct (Hwalk (maincodebegin inst) (maincodeend inst) st2)
    as (st3 & -> & Hst3); [done..|].
  cbn [mbind result_bind].
  match goal with
  | |- context [foldM ?f (params inst) st3] =>
      assert (∃ s', foldM f (params inst) st3 = Ok s' ∧ P s')
        as (st4 & -> & Hst4)
  end.
  { apply foldM_total; [|done]. intros [p s] st Hs Hst. cbn [snd fst].
    destruct (checks_output_param s); [|by eexists].
    exists st. split; [|done]. apply ensure_at_top_level, Hst. }
  exists st4. split; [done|apply Hst4].
Qed.

(** X18.  A layer without control flow needs no mask.  When no op of the
    layer has a jump target or is a [break], every argument is a symbol
    of the layer and the code ranges lie inside the op vector, the
    analysis from an empty table returns, given more fuel than the layer
    has ops, and leaves the masking flag of every op [false]. *)
Theorem straight_line_layer_needs_no_masking order fuel inst layer b :
  iterates order →
  straight_line inst →
  m_is_uniform_by_symbol b = ∅ →
  m_requires_masking_by_layer_and_op_index b !! layer = Some [] →
  (length (ops inst) < fuel)%nat →
  ∃ b', discoverVaryingAndMaskingOfLayer order fuel inst layer b = Ok b'
        ∧ m_requires_masking_by_layer_and_op_index b' !! layer
          = Some (replicate (length (ops inst)) false).
Proof.
  intros Horder Hsl Hfresh Hlayer Hfuel.
  destruct (layer_walk_straight_line fuel inst layer b Hsl Hlayer Hfuel)
    as (st & Hwalk & Hflags).
  destruct (analysis_spec order fuel inst layer b st Horder Hfresh Hwalk)
    as (b' & Hrun & Hmask & _).
  exists b'. split; [done|]. rewrite Hmask, Hflags.
  apply list_lookup_insert_eq. by eapply lookup_lt_Some.
Qed.

Lemma straight_line_layer_param : straight_line layer_param.
Proof.
  split.
  - intros opcode ->%list_elem_of_singleton. split_and!.
    + vm_compute. reflexivity.
    + discriminate.
    + intros a [->|[->|[]%elem_of_nil]%elem_of_cons]%elem_of_cons;
        by eexists.
  - cbn. lia.
  - intros s [->|[->|[]%elem_of_nil]%elem_of_cons]%elem_of_cons; cbn; lia.
Qed.

Lemma straight_line_layer_needs_no_masking_witness :
  ∃ b', discoverVaryingAndMaskingOfLayer reversed 2 layer_param 0
          (fresh_backend 1) = Ok b'
        ∧ m_requires_masking_by_layer_and_op_index b' !! 0%nat
          = Some [false].
Proof.
  apply (straight_line_layer_needs_no_masking reversed 2 layer_param 0
           (fresh_backend 1)).
  - exact iterates_reversed.
  - exact straight_line_layer_param.
  - reflexivity.
  - reflexivity.
  - simpl; lia.
Defined.

(** ** The ops that get a mask *)

Lemma pending_ok_frame inst st st' :
  usageInfoBySymbol st' = usageInfoBySymbol st →
  requires_masking_by_op_index st' = requires_masking_by_op_index st →
  pending_ok inst st → pending_ok inst st'.
Proof.
  intros Husage Hflags [P1 P2]. split.
  - intros s info u. rewrite Husage. apply P1.
  - intros n. rewrite Hflags. apply P2.
Qed.

Lemma mark_deeper_usages_origin blockDepth usages :
  ∀ flags rem flags' rem',
    mark_deeper_usages blockDepth usages flags rem = Ok (flags', rem') →
    (∀ n : nat, flags' !! n = Some true →
                flags !! n = Some true ∨ ∃ d, (d, Z.of_nat n) ∈ usages)
    ∧ (∀ u, u ∈ rem' → u ∈ rem ∨ u ∈ usages).
Proof.
  induction usages as [|[d i] usages IH]; intros flags rem flags' rem' Hrun.
  { injection Hrun as <- <-. auto. }
  cbn [mark_deeper_usages fst snd] in Hrun.
  destruct (decide (d > blockDepth)) as [Hdeep|Hshallow].
  - bind_ok Hrun as flags1 Hstore. unfold vec_store in Hstore.
    destruct (decide (0 ≤ i < Z.of_nat (length flags))) as [Hi|]; [|done].
    injection Hstore as <-. apply IH in Hrun as [Hflags Hrem]. split.
    + intros n [Hn|[d' Hd']]%Hflags.
      * destruct (decide (n = Z.to_nat i)) as [->|Hne].
        -- right. exists d. rewrite Z2Nat.id by lia. apply list_elem_of_here.
        -- left. by rewrite list_lookup_insert_ne in Hn.
      * right. exists d'. by apply list_elem_of_further.
    + intros u [?|?]%Hrem; [by left|]. right. by apply list_elem_of_further.
  - apply IH in Hrun as [Hflags Hrem]. split.
    + intros n [?|[d' Hd']]%Hflags; [by left|].
      right. exists d'. by apply list_elem_of_further.
    + intros u [[?| ->%list_elem_of_singleton]%elem_of_app|?]%Hrem.
      * by left.
      * right. apply list_elem_of_here.
      * right. by apply list_elem_of_further.
Qed.

Lemma ensure_pending inst symbolToCheck blockDepth maskId st st' :
  ensureWritesAtLowerDepthAreMasked symbolToCheck blockDepth maskId st
  = Ok st' →
  pending_ok inst st → pending_ok inst st'.
Proof.
  unfold ensureWritesAtLowerDepthAreMasked. intros Hrun [P1 P2].
  destruct (usageInfoBySymbol st !! symbolToCheck) as [info|] eqn:Hinfo;
    [|by injection Hrun as <-].
  destruct (decide _) in Hrun; [|by injection Hrun as <-].
  bind_ok Hrun as [] Hassert. bind_ok Hrun as [flags remaining_ops] Hloop.
  injection Hrun as <-.
  apply mark_deeper_usages_origin in Hloop as [Hflags Hrem]. split; cbn.
  - intros s info' u Hs Hu.
    destruct (decide (s = symbolToCheck)) as [->|Hne].
    + rewrite lookup_insert_eq in Hs. injection Hs as <-. cbn in Hu.
      apply Hrem in Hu as [[]%elem_of_nil|Hu]. by eapply P1.
    + rewrite lookup_insert_ne in Hs by done. by eapply P1.
  - intros n [Hn|[d Hd]]%Hflags; [by apply P2|].
    by apply (P1 _ _ _ Hinfo Hd).
Qed.

Lemma discover_reads_pending inst reads writes blockDepth maskId :
  ∀ st st', discover_reads reads writes blockDepth maskId st = Ok st' →
            pending_ok inst st → pending_ok inst st'.
Proof.
  induction reads as [|r reads IH]; intros st st' Hrun Hst.
  { by injection Hrun as <-. }
  cbn [discover_reads] in Hrun. bind_ok Hrun as st1 Hens.
  eapply IH; [done|]. eapply ensure_pending; [done|].
  destruct (feed_into_writes_shape r writes st)
    as (_ & _ & Hflags & Husage & _).
  by apply (pending_ok_frame inst st).
Qed.

Lemma discover_writes_pending inst ws writeBlockDepth writeMaskId opIndex :
  (ws ≠ [] → writes_or_breaks inst opIndex) →
  ∀ st, pending_ok inst st →
        pending_ok inst
          (discover_writes ws writeBlockDepth writeMaskId opIndex st).
Proof.
  unfold discover_writes.
  induction ws as [|w ws IH]; intros Hop st Hst; [done|].
  cbn [fold_left]. apply IH; [auto|]. destruct Hst as [P1 P2].
  split; cbn; [|done]. intros s info u Hs Hu.
  destruct (decide (s = w)) as [->|Hne].
  - rewrite lookup_insert_eq in Hs. injection Hs as <-. cbn in Hu.
    apply elem_of_app in Hu as [Hu| ->%list_elem_of_singleton].
    + destruct (usageInfoBySymbol st !! w) as [info|] eqn:Hinfo.
      * by eapply P1.
      * by apply elem_of_nil in Hu.
    + by apply Hop.
  - rewrite lookup_insert_ne in Hs by done. by eapply P1.
Qed.

Lemma discover_op_begin_pending inst opcode opIndex blockDepth
    writeBlockDepth maskId writeMaskId st reads writes st' :
  op inst opIndex = Ok opcode →
  discover_op_begin inst opcode opIndex blockDepth writeBlockDepth maskId
    writeMaskId st = Ok (reads, writes, st') →
  pending_ok inst st → pending_ok inst st'.
Proof.
  unfold discover_op_begin. intros Hop Hrun Hst.
  bind_ok Hrun as [[reads0 writes0] st1] Hargs.
  bind_ok Hrun as st2 Hreads. injection Hrun as <- <- <-.
  apply discover_args_shape in Hargs
    as (_ & Hwrites & _ & _ & A1 & _ & A3 & _).
  set (st3 := discover_writes writes0 writeBlockDepth writeMaskId opIndex
                st2).
  destruct (discover_block_dependencies_shape writes0 st3 _ eq_refl)
    as (_ & _ & B3 & B4 & _).
  eapply pending_ok_frame; [exact B4|exact B3|].
  apply discover_writes_pending.
  - intros Hne. exists opcode. split; [done|]. left.
    cbn [app] in Hwrites. subst writes0.
    destruct (filter _ _) as [|a l] eqn:Hfilter; [done|].
    assert (a ∈ filter (λ a, argwrite a = true) (args opcode)) as Ha.
    { rewrite Hfilter. apply list_elem_of_here. }
    apply list_elem_of_filter in Ha as [? ?]. eauto.
  - eapply discover_reads_pending; [done|].
    by apply (pending_ok_frame inst st).
Qed.

Lemma discover_op_end_pending inst opcode writes opIndex writeBlockDepth
    writeMaskId st st' :
  op inst opIndex = Ok opcode →
  discover_op_end opcode writes opIndex writeBlockDepth writeMaskId st
  = Ok st' →
  pending_ok inst st → pending_ok inst st'.
Proof.
  unfold discover_op_end. intros Hop Hrun Hst.
  bind_ok Hrun as st1 Hbreak. injection Hrun as <-.
  assert (pending_ok inst st1) as Hst1.
  { destruct (decide (opname opcode = op_break)) as [Hname|];
      [|by injection Hbreak as <-].
    unfold discover_break in Hbreak.
    destruct (last (loopControlFlowSymbolStack st))
      as [loopCondition|]; [|done].
    destruct (after_first loopCondition (symbolsCurrentBlockDependsOn st))
      as [inner|]; [|done].
    injection Hbreak as <-.
    assert (∀ conds st0,
              usageInfoBySymbol
                (fold_left (λ st c, add_feed c loopCondition st) conds st0)
              = usageInfoBySymbol st0
              ∧ requires_masking_by_op_index
                  (fold_left (λ st c, add_feed c loopCondition st) conds
                     st0)
                = requires_masking_by_op_index st0) as Hfold.
    { clear. induction conds as [|c conds IH]; intros st0; [done|].
      cbn [fold_left]. destruct (IH (add_feed c loopCondition st0))
        as [-> ->]. done. }
    destruct (Hfold inner st) as [Husage Hflags]. destruct Hst as [P1 P2].
    split; cbn.
    - intros s info u Hs Hu.
      destruct (decide (s = loopCondition)) as [->|Hne].
      + rewrite lookup_insert_eq in Hs. injection Hs as <-. cbn in Hu.
        apply elem_of_app in Hu as [Hu| ->%list_elem_of_singleton].
        * rewrite Husage in Hu.
          destruct (usageInfoBySymbol st !! loopCondition)
            as [info|] eqn:Hinfo.
          -- by eapply P1.
          -- by apply elem_of_nil in Hu.
        * exists opcode. auto.
      + rewrite lookup_insert_ne, Husage in Hs by done. by eapply P1.
    - intros n. rewrite Hflags. apply P2. }
  destruct (decide (opname opcode = op_getattribute)); [|done].
  by apply (pending_ok_frame inst st1).
Qed.

Lemma discoverSymbolsBetween_pending inst fuel :
  ∀ beginop endop blockDepth writeBlockDepth maskId writeMaskId st st',
    discoverSymbolsBetween fuel inst beginop endop blockDepth
      writeBlockDepth maskId writeMaskId st = Ok st' →
    pending_ok inst st → pending_ok inst st'.
Proof.
  induction fuel as [|fuel IH];
    intros beginop endop blockDepth writeBlockDepth maskId writeMaskId
           st st' Hrun Hst; [done|].
  cbn [discoverSymbolsBetween] in Hrun.
  destruct (decide (beginop < endop)); [|by injection Hrun as <-].
  bind_ok Hrun as opcode Hop.
  bind_ok Hrun as [[reads writes] st1] Hbegin.
  bind_ok Hrun as st2 Hjumps.
  bind_ok Hrun as st3 Hend.
  eapply IH; [exact Hrun|]. clear Hrun.
  eapply discover_op_end_pending; [exact Hop|exact Hend|]. clear Hend.
  eapply discover_op_begin_pending in Hbegin; [|done..].
  destruct (decide (jump opcode 0 >= 0)); [|by injection Hjumps as <-].
  destruct (decide (opname opcode = op_if)).
  { bind_ok Hjumps as s1 Hpush. cbn [fresh_mask] in Hjumps.
    bind_ok Hjumps as s2 Hthen. bind_ok Hjumps as s3 Helse.
    apply push_conds_shape in Hpush as (c & -> & ->).
    apply pop_conds_shape in Hjumps as ->.
    apply IH in Hthen; [|by apply (pending_ok_frame inst st1)].
    apply IH in Helse; [|by apply (pending_ok_frame inst s2)].
    by apply (pending_ok_frame inst s3). }
  destruct (decide (is_loop_op opcode)) as [Hloop|].
  { bind_ok Hjumps as s1 Hinit. cbn [fresh_mask] in Hjumps.
    bind_ok Hjumps as s2 Hpush. bind_ok Hjumps as s3 Hpushl.
    bind_ok Hjumps as s4 Hbody. bind_ok Hjumps as s5 Hstep.
    bind_ok Hjumps as s6 Hcond. bind_ok Hjumps as condition Harg.
    bind_ok Hjumps as s7 Hens. bind_ok Hjumps as s8 Hpop.
    apply IH in Hinit; [|done].
    apply push_conds_shape in Hpush as (c & -> & ->).
    apply push_loop_shape in Hpushl as (c' & [= <-] & ->).
    apply pop_conds_shape in Hpop as ->.
    apply pop_loop_shape in Hjumps as ->.
    apply IH in Hbody; [|by apply (pending_ok_frame inst s1)].
    apply IH in Hstep; [|done]. apply IH in Hcond; [|done].
    eapply ensure_pending in Hens; [|done].
    by apply (pending_ok_frame inst s7). }
  destruct (decide (opname opcode = op_functioncall)); [|done].
  by eapply IH.
Qed.

Lemma layer_walk_pending fuel inst layer b st :
  discoverVaryingAndMaskingOfLayer_walk fuel inst layer b = Ok st →
  pending_ok inst st.
Proof.
  unfold discoverVaryingAndMaskingOfLayer_walk. intros Hrun.
  bind_ok Hrun as [] Hlen. bind_ok Hrun as flags Hflags.
  bind_ok Hrun as [] Hempty. apply ASSERT_Ok in Hempty.
  apply bool_decide_eq_true in Hempty as ->.
  rewrite resize_nil in Hrun. cbn [fresh_mask] in Hrun.
  bind_ok Hrun as st1 Hsyms. bind_ok Hrun as st2 Hparams.
  bind_ok Hrun as st3 Hmain.
  eapply (foldM_inv (pending_ok inst)); [|exact Hrun|].
  { intros s t t' _ Hs Ht. cbn beta in Hs.
    destruct (checks_output_param s.2); [|by injection Hs as <-].
    by eapply ensure_pending. }
  eapply discoverSymbolsBetween_pending; [exact Hmain|].
  eapply (foldM_inv (pending_ok inst)); [|exact Hparams|].
  { intros s t t' _ Hs Ht. cbn beta in Hs.
    destruct (walks_param_init inst s.2); [|by injection Hs as <-].
    by eapply discoverSymbolsBetween_pending. }
  eapply (foldM_inv (pending_ok inst)); [|exact Hsyms|].
  { intros s t t' _ Hs Ht. cbn beta in Hs.
    destruct (walks_symbol_init inst s); [|by injection Hs as <-].
    by eapply discoverSymbolsBetween_pending. }
  split; cbn.
  - intros s info u. by rewrite lookup_empty.
  - intros n [[=] _]%lookup_replicate.
Qed.

(** X19.  The analysis asks a mask only of an op that has something to
    mask: every op whose masking flag is set after an analysis that
    returned writes one of its arguments or is a [break]. *)
Theorem masked_op_writes_or_breaks order fuel inst layer b b' flags
    (n : nat) :
  discoverVaryingAndMaskingOfLayer order fuel inst layer b = Ok b' →
  m_requires_masking_by_layer_and_op_index b' !! layer = Some flags →
  flags !! n = Some true →
  ∃ opcode, ops inst !! n = Some opcode
            ∧ ((∃ a, a ∈ args opcode ∧ argwrite a = true)
               ∨ opname opcode = op_break).
Proof.
  unfold discoverVaryingAndMaskingOfLayer. intros Hrun Hlayer Hflag.
  bind_ok Hrun as st Hwalk. bind_ok Hrun as tbl Hprop.
  injection Hrun as <-. cbn in Hlayer.
  pose proof (walk_Ok_flags _ _ _ _ _ Hwalk) as Hlen.
  rewrite list_lookup_insert_eq in Hlayer by done. injection Hlayer as <-.
  apply layer_walk_pending in Hwalk as [_ P2].
  destruct (P2 n Hflag) as (opcode & Hop & Hkind).
  exists opcode. split; [|done]. unfold op in Hop.
  rewrite decide_True, Nat2Z.id in Hop by lia.
  destruct (ops inst !! n); [by injection Hop as ->|done].
Qed.

Lemma masked_op_writes_or_breaks_witness :
  ∃ opcode, ops layer_loop_break !! 5%nat = Some opcode
            ∧ ((∃ a, a ∈ args opcode ∧ argwrite a = true)
               ∨ opname opcode = op_break).
Proof.
  apply (masked_op_writes_or_breaks id 10 layer_loop_break 0
           (fresh_backend 1)
           (analysed (discoverVaryingAndMaskingOfLayer id 10
                        layer_loop_break 0 (fresh_backend 1)))
           [false; false; false; true; false; true; true] 5).
  - vm_compute. reflexivity.
  - vm_compute. reflexivity.
  - reflexivity.
Defined.

(** * Addresses of symbols *)

Section AddressesProps.

Context (NDEBUG : bool) (param_order : SymPtr → Z).

Lemma isSymbolUniform_nonempty b p sym :
  m_is_uniform_by_symbol b ≠ ∅ →
  ∃ is_uniform, isSymbolUniform b p sym = Ok is_uniform.
Proof.
  intros Hne. unfold isSymbolUniform.
  rewrite bool_decide_eq_false_2 by done. cbn [negb ASSERT mbind result_bind].
  destruct (m_is_uniform_by_symbol b !! p); [by eexists|].
  destruct (decide _); by eexists.
Qed.

(** X20.  The base pointer of a shader global follows its name alone.
    For a global whose name is in the table [fields],
    [getLLVMSymbolBase] returns the field of the shader globals at the
    index of the name, cast to the plain type for a name the table has as
    uniform and to the wide type otherwise, whatever entry the analysis
    left for the symbol; for a global of any other name it stops at the
    assertion of [llvm_global_symbol_ptr]. *)
Theorem global_base_pointer_follows_name b p sym lay g :
  symtype sym = SymTypeGlobal →
  m_is_uniform_by_symbol b ≠ ∅ →
  (name sym ∈ fields.*1 →
   ∃ k : nat,
     fields !! k = Some (name sym, IsShaderGlobalUniformByName (name sym))
     ∧ getLLVMSymbolBase param_order b p sym lay g
       = Ok (Some (ptr_to_cast (void_ptr (GEP sg_ptr 0 (Z.of_nat k)))
                     (if IsShaderGlobalUniformByName (name sym)
                      then llvm_type (elementtype lay)
                      else llvm_wide_type (elementtype lay))), g))
  ∧ (name sym ∉ fields.*1 →
     getLLVMSymbolBase param_order b p sym lay g = Err AssertionFailed).
Proof.
  intros Hglobal Hne. unfold getLLVMSymbolBase.
  destruct (isSymbolUniform_nonempty b p sym Hne) as [is_uniform ->].
  cbn [mbind result_bind]. rewrite decide_True by done.
  unfold llvm_global_symbol_ptr, ShaderGlobalNameToIndex. split.
  - intros Hnm.
    destruct (ShaderGlobalNameToIndex_from_present fields 0 (name sym)
                is_uniform Hnm) as (k & -> & Hk & _).
    exists k. split; [done|]. rewrite Z.add_0_l.
    rewrite bool_decide_eq_true_2 by lia. cbn [ASSERT mbind result_bind].
    unfold IsShaderGlobalUniformByName.
    by destruct (IsShaderGlobalUniformByName_from fields (name sym)).
  - intros Hnm. by rewrite ShaderGlobalNameToIndex_from_absent.
Qed.

(** X21.  An output parameter of an analysed layer is addressed wide:
    after an analysis from an empty table, [getLLVMSymbolBase] returns
    for every output parameter of the layer its field of the group data,
    cast to the wide type of its element type when that type is known,
    and changes no member. *)
Theorem output_param_base_pointer_is_wide order fuel inst layer b b' p sym
    lay g :
  iterates order →
  m_is_uniform_by_symbol b = ∅ →
  discoverVaryingAndMaskingOfLayer order fuel inst layer b = Ok b' →
  (p, sym) ∈ params inst →
  symtype sym = SymTypeOutputParam →
  elementtype_simpletype lay ≠ TypeDesc_UNKNOWN →
  getLLVMSymbolBase param_order b' p sym lay g
  = Ok (Some (ptr_to_cast (void_ptr (GEP groupdata_ptr 0 (param_order p)))
                (llvm_wide_type_desc (elementtype_simpletype lay))), g).
Proof.
  intros Horder Hfresh Hrun Hparam Hout Hknown.
  destruct (analysis_Ok_walk _ _ _ _ _ _ Hrun) as [st Hwalk].
  destruct (analysis_spec order fuel inst layer b st Horder Hfresh Hwalk)
    as (b'' & Hrun' & _ & Hfalse & _).
  rewrite Hrun in Hrun'. injection Hrun' as <-.
  assert (m_is_uniform_by_symbol b' !! p = Some false) as Hp.
  { apply Hfalse. exists p. split; [|done]. right. left. eauto. }
  unfold getLLVMSymbolBase, isSymbolUniform.
  rewrite bool_decide_eq_false_2.
  2: { intros Hempty. by rewrite Hempty in Hp. }
  rewrite Hp. cbn [negb ASSERT mbind result_bind].
  rewrite decide_False by (rewrite Hout; discriminate).
  rewrite decide_True by auto.
  unfold groupdata_field_ptr, groupdata_field_ref.
  by rewrite decide_True.
Qed.

(** X22.  What [getOrAllocateLLVMSymbol] returns for a local, temporary
    or constant symbol is what later calls find.  On the members it
    leaves, [getLLVMSymbolBase] returns the same value and a second
    [getOrAllocateLLVMSymbol] returns it again, both without a change.
    A call that finds the mangled name changes nothing; a call that does
    not builds one [alloca] and adds the size of the type to
    [m_llvm_local_mem], three times for a symbol with derivatives. *)
Theorem allocated_symbol_is_found_again b p sym lay forceBool g a g' :
  symtype sym = SymTypeLocal ∨ symtype sym = SymTypeTemp
  ∨ symtype sym = SymTypeConst →
  m_is_uniform_by_symbol b ≠ ∅ →
  getOrAllocateLLVMSymbol NDEBUG b p sym lay forceBool g = Ok (a, g') →
  getLLVMSymbolBase param_order b p sym lay g' = Ok (Some a, g')
  ∧ (∀ forceBool',
       getOrAllocateLLVMSymbol NDEBUG b p sym lay forceBool' g'
       = Ok (a, g'))
  ∧ (∀ v, named_values g !! mangled lay = Some v → a = v ∧ g' = g)
  ∧ (named_values g !! mangled lay = None →
     allocas_built g' = S (allocas_built g)
     ∧ m_llvm_local_mem g'
       = m_llvm_local_mem g
         + llvm_typedesc_size lay * (if has_derivs lay then 3 else 1)).
Proof.
  intros Hkind Hne Hrun.
  assert (DASSERT NDEBUG
            (bool_decide (symtype sym = SymTypeLocal
                          ∨ symtype sym = SymTypeTemp
                          ∨ symtype sym = SymTypeConst)) = Ok ()) as Hd.
  { unfold DASSERT. destruct NDEBUG; [done|].
    by rewrite bool_decide_eq_true_2. }
  assert (named_values g' !! mangled lay = Some a) as Hfound.
  { unfold getOrAllocateLLVMSymbol in Hrun. rewrite Hd in Hrun.
    cbn [mbind result_bind] in Hrun.
    destruct (named_values g !! mangled lay) as [v|] eqn:Hv.
    - by injection Hrun as <- <-.
    - bind_ok Hrun as is_uniform Hu.
      destruct (llvm_alloca _ _ _ _ _ _ _) as [a1 g1].
      injection Hrun as <- <-. cbn. apply lookup_insert_eq. }
  split_and!.
  - unfold getLLVMSymbolBase.
    destruct (isSymbolUniform_nonempty b p sym Hne) as [is_uniform ->].
    cbn [mbind result_bind].
    rewrite decide_False by (intros Hg; rewrite Hg in Hkind;
                             by destruct Hkind as [|[|]]).
    rewrite decide_False by (intros [Hg|Hg]; rewrite Hg in Hkind;
                             by destruct Hkind as [|[|]]).
    by rewrite Hfound.
  - intros forceBool'. unfold getOrAllocateLLVMSymbol. rewrite Hd.
    cbn [mbind result_bind]. by rewrite Hfound.
  - intros v Hv. unfold getOrAllocateLLVMSymbol in Hrun. rewrite Hd in Hrun.
    cbn [mbind result_bind] in Hrun. rewrite Hv in Hrun.
    by injection Hrun as <- <-.
  - intros Hv. unfold getOrAllocateLLVMSymbol in Hrun. rewrite Hd in Hrun.
    cbn [mbind result_bind] in Hrun. rewrite Hv in Hrun.
    bind_ok Hrun as is_uniform Hu. unfold llvm_alloca in Hrun.
    by destruct is_uniform, forceBool; injection Hrun as <- <-.
Qed.

End AddressesProps.

Lemma global_base_pointer_follows_name_witness :
  (∃ k : nat,
     fields !! k = Some ("u"%string, false)
     ∧ getLLVMSymbolBase (λ _, 0)
         (analysed (discoverVaryingAndMaskingOfLayer id 10 layer_if_varying
                      0 (fresh_backend 1)))
         0%nat (mk_symbol "u" SymTypeGlobal false) layout_x empty_codegen
       = Ok (Some (ptr_to_cast (void_ptr (GEP sg_ptr 0 (Z.of_nat k)))
                     (llvm_wide_type 0)), empty_codegen))
  ∧ getLLVMSymbolBase (λ _, 0)
      (analysed (discoverVaryingAndMaskingOfLayer id 10 layer_if_varying 0
                   (fresh_backend 1)))
      0%nat (mk_symbol "Cs" SymTypeGlobal false) layout_x empty_codegen
    = Err AssertionFailed.
Proof.
  split.
  - destruct (global_base_pointer_follows_name (λ _, 0)
                (analysed (discoverVaryingAndMaskingOfLayer id 10
                             layer_if_varying 0 (fresh_backend 1)))
                0%nat (mk_symbol "u" SymTypeGlobal false) layout_x
                empty_codegen) as [Hlisted _].
    + reflexivity.
    + vm_compute. discriminate.
    + destruct Hlisted as (k & Hk & Hbase).
      * vm_compute. repeat constructor.
      * exists k. split; [exact Hk|exact Hbase].
  - apply (global_base_pointer_follows_name (λ _, 0)
             (analysed (discoverVaryingAndMaskingOfLayer id 10
                          layer_if_varying 0 (fresh_backend 1)))
             0%nat (mk_symbol "Cs" SymTypeGlobal false) layout_x
             empty_codegen).
    + reflexivity.
    + vm_compute. discriminate.
    + apply (bool_decide_eq_false_1 ("Cs"%string ∈ fields.*1)).
      vm_compute. reflexivity.
Defined.

Lemma output_param_base_pointer_is_wide_witness :
  getLLVMSymbolBase (λ _, 2)
    (analysed (discoverVaryingAndMaskingOfLayer id 10 layer_if_varying 0
                 (fresh_backend 1)))
    6%nat (mk_symbol "Cout" SymTypeOutputParam false) layout_x
    empty_codegen
  = Ok (Some (ptr_to_cast (void_ptr (GEP groupdata_ptr 0 2))
                (llvm_wide_type_desc (TypeDesc_tag 0))), empty_codegen).
Proof.
  apply (output_param_base_pointer_is_wide (λ _, 2) id 10 layer_if_varying
           0 (fresh_backend 1)
           (analysed (discoverVaryingAndMaskingOfLayer id 10
                        layer_if_varying 0 (fresh_backend 1)))
           6%nat (mk_symbol "Cout" SymTypeOutputParam false) layout_x
           empty_codegen).
  - exact iterates_id.
  - reflexivity.
  - vm_compute. reflexivity.
  - vm_compute. repeat constructor.
  - reflexivity.
  - discriminate.
Defined.

Lemma allocated_symbol_is_found_again_witness :
  getLLVMSymbolBase (λ _, 0)
    (analysed (discoverVaryingAndMaskingOfLayer id 10 layer_if_varying 0
                 (fresh_backend 1)))
    2%nat (mk_symbol "x" SymTypeLocal false) layout_x
    (allocated (getOrAllocateLLVMSymbol false
                  (analysed (discoverVaryingAndMaskingOfLayer id 10
                               layer_if_varying 0 (fresh_backend 1)))
                  2%nat (mk_symbol "x" SymTypeLocal false) layout_x false
                  empty_codegen)).2
  = Ok (Some (wide_op_alloca 0 (TypeDesc_tag 0) 3 "x"),
        (allocated (getOrAllocateLLVMSymbol false
                      (analysed (discoverVaryingAndMaskingOfLayer id 10
                                   layer_if_varying 0 (fresh_backend 1)))
                      2%nat (mk_symbol "x" SymTypeLocal false) layout_x
                      false empty_codegen)).2).
Proof.
  destruct (allocated_symbol_is_found_again false (λ _, 0)
              (analysed (discoverVaryingAndMaskingOfLayer id 10
                           layer_if_varying 0 (fresh_backend 1)))
              2%nat (mk_symbol "x" SymTypeLocal false) layout_x false
              empty_codegen (wide_op_alloca 0 (TypeDesc_tag 0) 3 "x")
              (allocated (getOrAllocateLLVMSymbol false
                            (analysed (discoverVaryingAndMaskingOfLayer id
                                         10 layer_if_varying 0
                                         (fresh_backend 1)))
                            2%nat (mk_symbol "x" SymTypeLocal false)
                            layout_x false empty_codegen)).2)
    as [Hbase _].
  - left. reflexivity.
  - vm_compute. discriminate.
  - vm_compute. reflexivity.
  - exact Hbase.
Defined.

(** * The test renderer *)

Lemma get_filenames_full argv g :
  TestRender.scenefile g ≠ ""%string →
  TestRender.imagefile g ≠ ""%string →
  fold_left TestRender.take_filename argv g = g.
Proof.
  intros Hscene Himage. induction argv as [|arg argv IH]; [done|].
  cbn [fold_left]. unfold TestRender.take_filename at 2.
  by rewrite !decide_False by done.
Qed.

Lemma get_filenames_image argv :
  ∀ g, TestRender.scenefile g ≠ ""%string →
       TestRender.imagefile g = ""%string →
       fold_left TestRender.take_filename argv g
       = TestRender.set_imagefile
           (nth 0 (filter (λ a, a ≠ ""%string) argv) ""%string) g.
Proof.
  induction argv as [|arg argv IH]; intros g Hscene Himage.
  { destruct g. cbn in *. by subst. }
  cbn [fold_left]. unfold TestRender.take_filename at 2.
  rewrite decide_False, decide_True by done.
  rewrite filter_cons. destruct (decide (arg ≠ ""%string)) as [Harg|Harg].
  - by rewrite get_filenames_full.
  - apply dec_stable in Harg as ->. by rewrite IH.
Qed.

(** X23.  [get_filenames] takes the scene file and the image file from
    the first two arguments that are not empty.  Called while both names
    are empty, it leaves the first such argument in [scenefile] and the
    second in [imagefile], an empty name where there is none; the later
    arguments are dropped, no other variable changes, and 0 is
    returned. *)
Theorem get_filenames_takes_first_two_names argv g :
  TestRender.scenefile g = ""%string →
  TestRender.imagefile g = ""%string →
  TestRender.get_filenames argv g
  = (0, TestRender.set_imagefile
          (nth 1 (filter (λ a, a ≠ ""%string) argv) ""%string)
          (TestRender.set_scenefile
             (nth 0 (filter (λ a, a ≠ ""%string) argv) ""%string) g)).
Proof.
  unfold TestRender.get_filenames. intros Hscene Himage. f_equal.
  revert g Hscene Himage. induction argv as [|arg argv IH];
    intros g Hscene Himage.
  { destruct g. cbn in *. by subst. }
  cbn [fold_left]. unfold TestRender.take_filename at 2.
  rewrite decide_True by done.
  rewrite filter_cons. destruct (decide (arg ≠ ""%string)) as [Harg|Harg].
  - by rewrite get_filenames_image.
  - apply dec_stable in Harg as ->. by rewrite IH.
Qed.

Lemma get_filenames_takes_first_two_names_witness :
  TestRender.scenefile
    (TestRender.get_filenames
       ["scene.xml"; ""; "out.exr"; "more"]%string
       TestRender.initial_globals).2 = "scene.xml"%string
  ∧ TestRender.imagefile
      (TestRender.get_filenames
         ["scene.xml"; ""; "out.exr"; "more"]%string
         TestRender.initial_globals).2 = "out.exr"%string.
Proof.
  rewrite (get_filenames_takes_first_two_names
             ["scene.xml"; ""; "out.exr"; "more"]%string
             TestRender.initial_globals).
  - split; reflexivity.
  - reflexivity.
  - reflexivity.
Defined.

(** X24.  The optimisation level that [set_shadingsys_options] passes on:
    the value of [TESTSHADE_OPT] when the variable is set, whatever the
    flags say; otherwise 2 under [-O2], else 1 under [-O1], else 0 under
    [-O0], and 2 when none is given.  The [compile_report] attribute is 1
    exactly when the [debug] attribute is not 0, and the function leaves
    [shadingsys_options_set] true. *)
Theorem shadingsys_options_optimize_level atoi opt_env g :
  TestRender.shadingsys_int "optimize"
    (TestRender.set_shadingsys_options atoi opt_env g).1
  = Some match opt_env with
         | Some opt_env => atoi opt_env
         | None => if TestRender.O2 g then 2
                   else if TestRender.O1 g then 1
                   else if TestRender.O0 g then 0 else 2
         end
  ∧ (TestRender.shadingsys_int "compile_report"
       (TestRender.set_shadingsys_options atoi opt_env g).1 = Some 1
     ↔ TestRender.shadingsys_int "debug"
         (TestRender.set_shadingsys_options atoi opt_env g).1 ≠ Some 0)
  ∧ TestRender.shadingsys_options_set
      (TestRender.set_shadingsys_options atoi opt_env g).2 = true.
Proof.
  unfold TestRender.set_shadingsys_options, TestRender.shadingsys_int.
  cbn [fst snd].
  destruct (decide (TestRender.shaderpath g = ""%string)),
    (decide (TestRender.extraoptions g = ""%string)),
    (decide (TestRender.texoptions g = ""%string));
    (split_and!; [|split|done]);
    destruct opt_env, (TestRender.O0 g), (TestRender.O1 g),
      (TestRender.O2 g), (TestRender.debug1 g), (TestRender.debug2 g);
    done.
Qed.

(** * Types and arguments of calls *)

(** X25.  [llvm_pass_wide_type] accepts the types that [llvm_pass_type]
    accepts and stops at the same assertions; where the plain function
    returns the void type it returns the void type too, and a void
    pointer for every other type. *)
Theorem llvm_pass_wide_type_of_pass_type closure_based t :
  llvm_pass_wide_type closure_based t
  = match llvm_pass_type closure_based t with
    | Ok type_void => Ok type_void
    | Ok _ => Ok type_void_ptr
    | Err e => Err e
    end.
Proof.
  unfold llvm_pass_wide_type, llvm_pass_type.
  destruct closure_based; [done|].
  destruct (t_is_FLOAT t), (t_is_INT t), (t_is_STRING t),
    (t_aggregate_is_VEC3 t), (t_aggregate_is_MATRIX44 t), (t_is_NONE t),
    (t_is_PTR t), (t_is_LONGLONG t);
    cbn [mbind result_bind]; by destruct (bool_decide (t_arraylen t = 0)).
Qed.

(** X26.  In a debug build [llvm_call_function] never widens a constant:
    the branch that would do it is the [else] of
    [function_is_uniform || s.symtype() != SymTypeConst], and it starts
    by asserting [function_is_uniform].  So a constant that is no closure
    and is passed by pointer to a function that is not uniform stops the
    call there; in a release build the constant is widened. *)
Theorem llvm_call_function_never_widens_in_debug NDEBUG s aggregate
    s_has_derivs deriv_ptrs function_is_uniform functionIsLlvmInlined :
  (NDEBUG = false →
   llvm_call_function_arg NDEBUG s aggregate s_has_derivs deriv_ptrs
     function_is_uniform functionIsLlvmInlined
   ≠ Ok pass_widened_constant)
  ∧ (is_closure (typespec s) = false →
     symtype s = SymTypeConst →
     function_is_uniform = false →
     aggregate > 1 ∨ (deriv_ptrs = true ∧ s_has_derivs = true)
     ∨ functionIsLlvmInlined = false →
     llvm_call_function_arg NDEBUG s aggregate s_has_derivs deriv_ptrs
       function_is_uniform functionIsLlvmInlined
     = if NDEBUG then Ok pass_widened_constant else Err AssertionFailed).
Proof.
  unfold llvm_call_function_arg, DASSERT. split.
  - intros ->. destruct (is_closure (typespec s)); [done|].
    destruct (_ || _ || _); [|done].
    destruct function_is_uniform; [done|]. cbn [orb].
    destruct (negb _); [done|]. cbn [mbind result_bind].
    by destruct (bool_decide (symtype s = SymTypeConst)).
  - intros -> Hconst -> Hptr.
    rewrite (bool_decide_eq_true_2 (symtype s = SymTypeConst)) by done.
    assert (bool_decide (aggregate > 1) || deriv_ptrs && s_has_derivs
            || negb false && negb functionIsLlvmInlined = true) as ->.
    { destruct Hptr as [?|[[-> ->]| ->]].
      - by rewrite bool_decide_eq_true_2.
      - by destruct (bool_decide _).
      - by destruct (bool_decide _), (deriv_ptrs && s_has_derivs). }
    by destruct NDEBUG.
Qed.

Lemma llvm_call_function_never_widens_in_debug_witness :
  llvm_call_function_arg false (mk_symbol "k" SymTypeConst false) 1 false
    false false false = Err AssertionFailed
  ∧ llvm_call_function_arg true (mk_symbol "k" SymTypeConst false) 1 false
      false false false = Ok pass_widened_constant.
Proof.
  split.
  - apply (llvm_call_function_never_widens_in_debug false
             (mk_symbol "k" SymTypeConst false) 1 false false false false).
    + reflexivity.
    + reflexivity.
    + reflexivity.
    + right. right. reflexivity.
  - apply (llvm_call_function_never_widens_in_debug true
             (mk_symbol "k" SymTypeConst false) 1 false false false false).
    + reflexivity.
    + reflexivity.
    + reflexivity.
    + right. right. reflexivity.
Defined.

(** * The seeds in terms of the layer *)

(** ** The symbols noted for [getattribute] are those that the visited
    [getattribute] ops write *)








(** ** The seeds of the code and the seeds by design *)






(** ** A global that the layer only writes *)

(** C6.  The code on the layer [N = k], with [N] the global of that name
    and [k] a constant.  [N] takes part in the feed-forward graph as the
    writer end of the edge from [k], and its name is not on the uniform
    list; the seeding loop, which goes through the reader ends, does not
    meet it, so the analysis leaves it uniform in the table and
    [isSymbolUniform] answers [true].  [getLLVMSymbolBase] nevertheless
    addresses it by its name, through a pointer to the wide type. *)
Theorem written_global_uniform_but_addressed_wide param_order lay g :
  ∃ b',
    discoverVaryingAndMaskingOfLayer id 10 layer_global_written 0
      (fresh_backend 1) = Ok b'
    ∧ symbolFeedForwardMap
        (walked (discoverVaryingAndMaskingOfLayer_walk 10
                   layer_global_written 0 (fresh_backend 1)))
      = [(1%nat, 0%nat)]
    ∧ symbol layer_global_written 0%nat
      = Some (mk_symbol "N" SymTypeGlobal false)
    ∧ IsShaderGlobalUniformByName "N" = false
    ∧ m_is_uniform_by_symbol b' !! 0%nat = Some true
    ∧ isSymbolUniform b' 0%nat (mk_symbol "N" SymTypeGlobal false) = Ok true
    ∧ getLLVMSymbolBase param_order b' 0%nat
        (mk_symbol "N" SymTypeGlobal false) lay g
      = Ok (Some (ptr_to_cast (void_ptr (GEP sg_ptr 0 13))
                    (llvm_wide_type (elementtype lay))), g).
Proof. eexists. split_and!; vm_compute; reflexivity. Qed.
